(** * ImmersedBoundaryMembraneElasticityForce: a shallow embedding

    The membrane elasticity force of the immersed boundary project
    (src/ImmersedBoundaryMembraneElasticityForce.cpp) over an explicit
    model of the mesh it mutates.

    - [double] is the kernel's binary64 type [float]; every arithmetic
      expression keeps the association the C++ source gives it.
    - [unsigned] is a [Z] in [0, 2^32), with the truncation written out
      where a [size_t] is narrowed or an addition may wrap.
    - [Node<DIM>*] is an address in the mesh's node store, so that two
      elements (or an element and its corner list) naming the same node
      share its force accumulator and its region tag.
    - [EXCEPTION(...)] is the outcome [Exception msg]; a failed [assert]
      or an access outside a container is the outcome [Fault]. *)

From Stdlib Require Import ZArith String Floats.
From stdpp Require Import base list.

Local Open Scope Z_scope.

(** ** Outcomes of a call *)

Inductive Result (A : Type) : Type :=
| Ok (a : A)
| Exception (msg : string)
| Fault.

Arguments Ok {A} a.
Arguments Exception {A} msg.
Arguments Fault {A}.

#[global] Instance Result_ret : MRet Result := fun _ a => Ok a.
#[global] Instance Result_bind : MBind Result := fun _ _ k c =>
  match c with
  | Ok a => k a
  | Exception msg => Exception msg
  | Fault => Fault
  end.

Definition of_option {A} (o : option A) : Result A :=
  match o with
  | Some a => Ok a
  | None => Fault
  end.

(** ** [unsigned] and containers *)

Definition UINT_MAX : Z := 4294967295.

(** Conversion to [unsigned]: reduction modulo 2^32. *)
Definition to_unsigned (z : Z) : Z := z `mod` (UINT_MAX + 1).

(** [std::vector::size()]. *)
Definition vec_size {A} (v : list A) : Z := Z.of_nat (length v).

(** [v[i]] read, for an index that came out of unsigned arithmetic. *)
Definition vec_at {A} (v : list A) (i : Z) : Result A :=
  if (0 <=? i) then of_option (v !! Z.to_nat i) else Fault.

(** [v[i] = x]. *)
Definition vec_set {A} (v : list A) (i : Z) (x : A) : Result (list A) :=
  if (0 <=? i) && (i <? vec_size v) then Ok (<[Z.to_nat i := x]> v) else Fault.

(** [for (unsigned i = lo; i < hi; i++) body]: the body runs for
    [lo, lo+1, ..., hi-1] and the loop stops at the first outcome that is
    not [Ok].  The counter stays below [hi <= UINT_MAX], so [i++] never
    wraps. *)
Fixpoint for_steps {S} (n : nat) (i : Z) (body : Z → S → Result S) (s : S)
  : Result S :=
  match n with
  | O => Ok s
  | Datatypes.S n' => s' ← body i s; for_steps n' (i + 1) body s'
  end.

Definition for_loop {S} (lo hi : Z) (body : Z → S → Result S) (s : S) : Result S :=
  for_steps (Z.to_nat (hi - lo)) lo body s.

(** ** [c_vector<double, DIM>] *)

Abbreviation c_vector := (list float).

(** [v *= t]. *)
Definition scale_assign (v : c_vector) (t : float) : c_vector :=
  (λ x, x * t)%float <$> v.

(** [a - b]. *)
Definition vminus (a b : c_vector) : c_vector := zip_with PrimFloat.sub a b.

(** [a += b]. *)
Definition vplus_assign (a b : c_vector) : c_vector := zip_with PrimFloat.add a b.

(** ** Nodes, elements and the mesh *)

(** The region tags: "0, 1, and 2 representing basal, apical, and lateral
    respectively". *)
Definition msBas : Z := 0.
Definition msApi : Z := 1.
Definition msLat : Z := 2.

Module Node.
Record t : Type := mk {
  mIndex : Z;
  mLocation : c_vector;
  mAppliedForce : c_vector;
  mRegion : Z
}.

Definition GetIndex (n : t) : Z := mIndex n.
Definition rGetLocation (n : t) : c_vector := mLocation n.

(** Modelled from the spec: Node::AddAppliedForceContribution, the
    "additive force accumulator" of a node ("force contributions are
    additive, never overwritten"). *)
Definition AddAppliedForceContribution (f : c_vector) (n : t) : t :=
  mk (mIndex n) (mLocation n) (vplus_assign (mAppliedForce n) f) (mRegion n).

(** Modelled from the spec: Node::SetRegion, the "region tag setter". *)
Definition SetRegion (r : Z) (n : t) : t :=
  mk (mIndex n) (mLocation n) (mAppliedForce n) r.
End Node.

Module Element.
Record t : Type := mk {
  mIndex : Z;
  mNodes : list nat;
  mCornerNodes : list nat;
  mElementAttributes : list float
}.

Definition GetIndex (e : t) : Z := mIndex e.
Definition GetNumNodes (e : t) : Z := to_unsigned (vec_size (mNodes e)).
Definition rGetCornerNodes (e : t) : list nat := mCornerNodes e.
Definition rGetElementAttributes (e : t) : list float := mElementAttributes e.
Definition GetNumElementAttributes (e : t) : Z :=
  to_unsigned (vec_size (mElementAttributes e)).

(** Modelled from the spec: the element's "node lookup (by local
    index)"; the index is asserted to be in range. *)
Definition GetNode (e : t) (localIndex : Z) : Result nat :=
  if localIndex <? vec_size (mNodes e) then vec_at (mNodes e) localIndex else Fault.

(** Modelled from the spec: the element's attribute list with
    "append-only access". *)
Definition AddElementAttribute (a : float) (e : t) : t :=
  mk (mIndex e) (mNodes e) (mCornerNodes e) (mElementAttributes e ++ [a]).
End Element.

Module Mesh.
Record t : Type := mk {
  mNodes : list Node.t;
  mElements : list Element.t;
  mMembraneIndex : Z
}.

Definition GetMembraneIndex (m : t) : Z := mMembraneIndex m.
Definition GetNumElements (m : t) : Z := to_unsigned (vec_size (mElements m)).

(** Modelled from the spec: the mesh's "element lookup by index", the
    index asserted to be in range. *)
Definition GetElement (m : t) (index : Z) : Result Element.t :=
  if index <? vec_size (mElements m) then vec_at (mElements m) index else Fault.

(** Dereferencing a node pointer. *)
Definition node (m : t) (p : nat) : Result Node.t := of_option (mNodes m !! p).

(** [p->method(...)] for a method that mutates the node. *)
Definition update_node (p : nat) (f : Node.t → Node.t) (m : t) : Result t :=
  match mNodes m !! p with
  | Some _ => Ok (mk (alter f p (mNodes m)) (mElements m) (mMembraneIndex m))
  | None => Fault
  end.

(** [elem_it->method(...)] for a method that mutates the element the
    iterator stands on. *)
Definition update_element (pos : nat) (f : Element.t → Element.t) (m : t) : Result t :=
  match mElements m !! pos with
  | Some _ => Ok (mk (mNodes m) (alter f pos (mElements m)) (mMembraneIndex m))
  | None => Fault
  end.

(** [elem_it->GetNodeLocation(i)]. *)
Definition GetNodeLocation (m : t) (e : Element.t) (localIndex : Z) : Result c_vector :=
  p ← Element.GetNode e localIndex;
  n ← node m p;
  Ok (Node.rGetLocation n).

(** Modelled from the spec: the element's "node lookup ... by global
    index": the local index of the node with this global index, scanning
    the element's nodes in order and keeping the last hit; UINT_MAX when
    there is none. *)
Definition GetNodeLocalIndex (m : t) (e : Element.t) (globalIndex : Z) : Result Z :=
  for_loop 0 (Element.GetNumNodes e)
    (λ i local_index,
       p ← Element.GetNode e i;
       n ← node m p;
       Ok (if Node.GetIndex n =? globalIndex then i else local_index))
    UINT_MAX.

(** The element iterator: the body runs once per element, in storage
    order, on the element as the mesh holds it at that moment. *)
Fixpoint iterate (positions : list nat)
    (body : nat → Element.t → t → Result t) (m : t) : Result t :=
  match positions with
  | [] => Ok m
  | pos :: rest =>
      e ← of_option (mElements m !! pos);
      m' ← body pos e m;
      iterate rest body m'
  end.

Definition for_each_element (body : nat → Element.t → t → Result t) (m : t)
  : Result t :=
  iterate (seq 0 (length (mElements m))) body m.
End Mesh.

(** ** The force class *)

(** The data members of ImmersedBoundaryMembraneElasticityForce.  The
    constructor leaves [mElementsHaveCorners] and
    [mReferenceLocationInAttributesVector] unassigned ([None]). *)
Record Force : Type := mkForce {
  mpMesh : option nat;
  mSpringConstant : float;
  mRestLengthMultiplier : float;
  mBasementSpringConstantModifier : float;
  mBasementRestLengthModifier : float;
  mElementsHaveCorners : option bool;
  mReferenceLocationInAttributesVector : option Z
}.

(** The constructor. *)
Definition ImmersedBoundaryMembraneElasticityForce : Force :=
  mkForce None 1e6%float 0.5%float 5.0%float 0.5%float None None.

Definition SetSpringConstant (springConstant : float) (this : Force) : Force :=
  mkForce (mpMesh this) springConstant (mRestLengthMultiplier this)
    (mBasementSpringConstantModifier this) (mBasementRestLengthModifier this)
    (mElementsHaveCorners this) (mReferenceLocationInAttributesVector this).

Definition GetSpringConstant (this : Force) : float := mSpringConstant this.

Definition SetRestLengthMultiplier (restLengthMultiplier : float) (this : Force) : Force :=
  mkForce (mpMesh this) (mSpringConstant this) restLengthMultiplier
    (mBasementSpringConstantModifier this) (mBasementRestLengthModifier this)
    (mElementsHaveCorners this) (mReferenceLocationInAttributesVector this).

Definition GetRestLengthMultiplier (this : Force) : float := mRestLengthMultiplier this.

(** The cell population: the address of its mesh and its intrinsic
    spacing. *)
Record ImmersedBoundaryCellPopulation : Type := mkPopulation {
  rGetMesh : nat;
  GetIntrinsicSpacing : float
}.

(** The force object together with the meshes that exist; [mpMesh] and
    [rGetMesh] are addresses into [meshes]. *)
Record State : Type := mkState {
  this : Force;
  meshes : list Mesh.t
}.

Definition set_this (f : Force) (s : State) : State := mkState f (meshes s).

Definition set_mesh (a : nat) (m : Mesh.t) (s : State) : State :=
  mkState (this s) (<[a := m]> (meshes s)).

Definition corners_message : string :=
  "All elements must have the same number of corners to use this force class.".
Definition attributes_message : string :=
  "All elements must have the same number of attributes to use this force class.".

Section MembraneElasticityForce.

(** What the mesh and uBLAS provide and the listed sources do not
    contain: the displacement between two points on the (periodic)
    domain, the Euclidean norm, and the average node spacing of an
    element. *)
Variable GetVectorFromAtoB : c_vector → c_vector → c_vector.
Variable norm_2 : c_vector → float.
Variable GetAverageNodeSpacingOfElement : Mesh.t → Z → bool → float.

(** The number of components of a [c_vector<double, DIM>]. *)
Variable DIM : nat.

(** A [c_vector] that has been constructed and not assigned yet. *)
Definition unassigned_vector : c_vector := replicate DIM nan.

(** *** TagNodeRegions *)

Definition set_regions (e : Element.t) (lo hi : Z) (region : Z) (m : Mesh.t)
  : Result Mesh.t :=
  for_loop lo hi
    (λ node_idx m,
       p ← Element.GetNode e node_idx;
       Mesh.update_node p (Node.SetRegion region) m)
    m.

Definition corner_index (m : Mesh.t) (e : Element.t) (r_corners : list nat) (c : Z)
  : Result Z :=
  p ← vec_at r_corners c;
  n ← Mesh.node m p;
  Mesh.GetNodeLocalIndex m e (Node.GetIndex n).

Definition TagNodeRegions_element (e : Element.t) (m : Mesh.t) : Result Mesh.t :=
  if Mesh.GetMembraneIndex m =? Element.GetIndex e then
    set_regions e 0 (Element.GetNumNodes e) msBas m
  else
    let r_corners := Element.rGetCornerNodes e in
    change_1 ← corner_index m e r_corners 1;
    i0 ← corner_index m e r_corners 0;
    let change_2 := to_unsigned (i0 + 1) in
    change_3 ← corner_index m e r_corners 3;
    i2 ← corner_index m e r_corners 2;
    let change_4 := to_unsigned (i2 + 1) in
    m ← set_regions e 0 change_1 msLat m;
    m ← set_regions e change_1 change_2 msApi m;
    m ← set_regions e change_2 change_3 msLat m;
    m ← set_regions e change_3 change_4 msBas m;
    set_regions e change_4 (Element.GetNumNodes e) msLat m.

Definition TagNodeRegions (m : Mesh.t) : Result Mesh.t :=
  Mesh.for_each_element (λ _ e m, TagNodeRegions_element e m) m.

(** *** TagApicalAndBasalLengths *)

(** [unsigned(n / 2.0)]: for an [unsigned] n the quotient is exact in
    binary64 and the conversion truncates it. *)
Definition half_way_of (num_nodes : Z) : Z := num_nodes `div` 2.

Definition TagApicalAndBasalLengths_element (pos : nat) (e : Element.t) (m : Mesh.t)
  : Result Mesh.t :=
  if Element.GetIndex e =? Mesh.GetMembraneIndex m then
    m ← Mesh.update_element pos (Element.AddElementAttribute 0%float) m;
    Mesh.update_element pos (Element.AddElementAttribute 0%float) m
  else
    let half_way := half_way_of (Element.GetNumNodes e) in
    p0 ← Element.GetNode e 0;
    n0 ← Mesh.node m p0;
    ph ← Element.GetNode e half_way;
    nh ← Mesh.node m ph;
    x ← vec_at (GetVectorFromAtoB (Node.rGetLocation n0) (Node.rGetLocation nh)) 0;
    let elem_width := abs x in
    m ← Mesh.update_element pos (Element.AddElementAttribute elem_width) m;
    Mesh.update_element pos (Element.AddElementAttribute elem_width) m.

Definition TagApicalAndBasalLengths (m : Mesh.t) : Result Mesh.t :=
  Mesh.for_each_element TagApicalAndBasalLengths_element m.

(** *** The spring forces of one element *)

(** The first node loop: "calculate the force exerted on node i+1 by
    node i". *)
Definition segment_loop (m : Mesh.t) (e : Element.t) (num_nodes : Z)
    (spring_constant rest_length : float) : Result (list c_vector) :=
  for_loop 0 num_nodes
    (λ node_idx elastic_force_to_next_node,
       let next_idx := to_unsigned (node_idx + 1) `mod` num_nodes in
       let modified_spring_constant := spring_constant in
       let modified_rest_length := rest_length in
       a ← Mesh.GetNodeLocation m e node_idx;
       b ← Mesh.GetNodeLocation m e next_idx;
       elastic_force_to_next_node ←
         vec_set elastic_force_to_next_node node_idx (GetVectorFromAtoB a b);
       v ← vec_at elastic_force_to_next_node node_idx;
       let normed_dist := norm_2 v in
       v ← vec_at elastic_force_to_next_node node_idx;
       vec_set elastic_force_to_next_node node_idx
         (scale_assign v
            (modified_spring_constant * (normed_dist - modified_rest_length)
             / normed_dist)%float))
    (replicate (Z.to_nat num_nodes) unassigned_vector).

(** The second node loop: "add the contributions of springs adjacent to
    each node". *)
Definition aggregate_loop (e : Element.t) (num_nodes : Z)
    (elastic_force_to_next_node : list c_vector) (m : Mesh.t) : Result Mesh.t :=
  for_loop 0 num_nodes
    (λ node_idx m,
       let prev_idx := to_unsigned (node_idx + num_nodes - 1) `mod` num_nodes in
       f ← vec_at elastic_force_to_next_node node_idx;
       g ← vec_at elastic_force_to_next_node prev_idx;
       let aggregate_force := vminus f g in
       p ← Element.GetNode e node_idx;
       Mesh.update_node p (Node.AddAppliedForceContribution aggregate_force) m)
    m.

(** The body of the element loop of AddImmersedBoundaryForceContribution. *)
Definition element_contribution (f : Force)
    (rCellPopulation : ImmersedBoundaryCellPopulation)
    (e : Element.t) (m : Mesh.t) : Result Mesh.t :=
  let intrinsic_spacing_squared :=
    (GetIntrinsicSpacing rCellPopulation * GetIntrinsicSpacing rCellPopulation)%float in
  let elem_idx := Element.GetIndex e in
  let num_nodes := Element.GetNumNodes e in
  let spacing_ratio := GetAverageNodeSpacingOfElement m elem_idx false in
  let spring_constant :=
    (mSpringConstant f * intrinsic_spacing_squared / (spacing_ratio * spacing_ratio))%float in
  let rest_length := (mRestLengthMultiplier f * spacing_ratio)%float in
  let membrane := elem_idx =? Mesh.GetMembraneIndex m in
  let spring_constant :=
    if membrane then (spring_constant * mBasementSpringConstantModifier f)%float
    else spring_constant in
  let rest_length :=
    if membrane then (rest_length * mBasementRestLengthModifier f)%float
    else rest_length in
  elastic_force_to_next_node ← segment_loop m e num_nodes spring_constant rest_length;
  aggregate_loop e num_nodes elastic_force_to_next_node m.

(** *** Calls on the force object *)

(** A member function: it reads and writes the force object and the
    meshes, and the state it leaves behind is kept when it throws. *)
Definition Call (A : Type) : Type := State → Result A * State.

#[local] Instance Call_ret : MRet Call := λ _ a s, (Ok a, s).
#[local] Instance Call_bind : MBind Call := λ _ _ k c s,
  match c s with
  | (Ok a, s') => k a s'
  | (Exception msg, s') => (Exception msg, s')
  | (Fault, s') => (Fault, s')
  end.

Definition get_this : Call Force := λ s, (Ok (this s), s).
Definition put_this (f : Force) : Call () := λ s, (Ok (), set_this f s).
Definition lift {A} (r : Result A) : Call A := λ s, (r, s).

(** [mpMesh->...] for a read. *)
Definition read_mesh {A} (g : Mesh.t → Result A) : Call A := λ s,
  match mpMesh (this s) with
  | Some a =>
      match meshes s !! a with
      | Some m => (g m, s)
      | None => (Fault, s)
      end
  | None => (Fault, s)
  end.

(** [mpMesh->...] for a sequence of writes that cannot throw. *)
Definition write_mesh (g : Mesh.t → Result Mesh.t) : Call () := λ s,
  match mpMesh (this s) with
  | Some a =>
      match meshes s !! a with
      | Some m =>
          match g m with
          | Ok m' => (Ok (), set_mesh a m' s)
          | Exception msg => (Exception msg, s)
          | Fault => (Fault, s)
          end
      | None => (Fault, s)
      end
  | None => (Fault, s)
  end.

Definition verify_corners (m : Mesh.t) : Result Z :=
  e0 ← Mesh.GetElement m 0;
  let num_corners := to_unsigned (vec_size (Element.rGetCornerNodes e0)) in
  _ ← for_loop 1 (Mesh.GetNumElements m)
        (λ elem_idx (_ : ()),
           e ← Mesh.GetElement m elem_idx;
           if negb (num_corners =? vec_size (Element.rGetCornerNodes e))
           then Exception corners_message
           else Ok ())
        ();
  Ok num_corners.

Definition verify_attributes (reference : Z) (m : Mesh.t) : Result () :=
  for_loop 1 (Mesh.GetNumElements m)
    (λ elem_idx (_ : ()),
       e ← Mesh.GetElement m elem_idx;
       if negb (reference =? Element.GetNumElementAttributes e)
       then Exception attributes_message
       else Ok ())
    ().

(** The block guarded by [if (mpMesh == NULL)]. *)
Definition setup (rCellPopulation : ImmersedBoundaryCellPopulation) : Call () :=
  f ← get_this;
  _ ← put_this (mkForce (Some (rGetMesh rCellPopulation)) (mSpringConstant f)
         (mRestLengthMultiplier f) (mBasementSpringConstantModifier f)
         (mBasementRestLengthModifier f) (mElementsHaveCorners f)
         (mReferenceLocationInAttributesVector f));
  num_corners ← read_mesh verify_corners;
  f ← get_this;
  _ ← put_this (mkForce (mpMesh f) (mSpringConstant f)
         (mRestLengthMultiplier f) (mBasementSpringConstantModifier f)
         (mBasementRestLengthModifier f) (Some (num_corners =? 4))
         (mReferenceLocationInAttributesVector f));
  if num_corners =? 4 then
    reference ← read_mesh (λ m, e0 ← Mesh.GetElement m 0;
                                Ok (Element.GetNumElementAttributes e0));
    f ← get_this;
    _ ← put_this (mkForce (mpMesh f) (mSpringConstant f)
           (mRestLengthMultiplier f) (mBasementSpringConstantModifier f)
           (mBasementRestLengthModifier f) (mElementsHaveCorners f)
           (Some reference));
    _ ← read_mesh (verify_attributes reference);
    _ ← write_mesh TagNodeRegions;
    write_mesh TagApicalAndBasalLengths
  else mret ().

(** The element loop that follows the setup block. *)
Definition force_computation (rCellPopulation : ImmersedBoundaryCellPopulation)
  : Call () :=
  f ← get_this;
  write_mesh (Mesh.for_each_element (λ _ e m, element_contribution f rCellPopulation e m)).

Definition AddImmersedBoundaryForceContribution
    (rCellPopulation : ImmersedBoundaryCellPopulation) : Call () :=
  f ← get_this;
  _ ← (if mpMesh f is None then setup rCellPopulation else mret ());
  force_computation rCellPopulation.

Definition attribute_at (elemIndex attribute_location : Z) (m : Mesh.t) : Result float :=
  e ← Mesh.GetElement m elemIndex;
  if attribute_location <? Element.GetNumElementAttributes e
  then vec_at (Element.rGetElementAttributes e) attribute_location
  else Fault.

Definition GetApicalLengthForElement (elemIndex : Z) : Call float :=
  f ← get_this;
  attribute_location ← lift (of_option (mReferenceLocationInAttributesVector f));
  read_mesh (attribute_at elemIndex attribute_location).

Definition GetBasalLengthForElement (elemIndex : Z) : Call float :=
  f ← get_this;
  reference ← lift (of_option (mReferenceLocationInAttributesVector f));
  let attribute_location := to_unsigned (reference + 1) in
  read_mesh (attribute_at elemIndex attribute_location).

End MembraneElasticityForce.

(** ** Instances of the mesh operations, used to run the model *)

(** The displacement on the periodic unit square [0,1) x [0,1): the
    difference of the two points, each component taken the short way
    round when it exceeds one half. *)
Definition unit_square_GetVectorFromAtoB (rLocation1 rLocation2 : c_vector) : c_vector :=
  (λ d, if (0.5 <? abs d)%float
        then (let r := abs (abs d - 1) in if (d <? 0) then r else - r)%float
        else d) <$> vminus rLocation2 rLocation1.

(** The Euclidean norm as uBLAS computes it: the square root of the sum
    of the squares, accumulated from zero in component order. *)
Definition ublas_norm_2 (v : c_vector) : float :=
  sqrt (foldl (λ t u, t + u * u)%float 0%float v).

(** The perimeter of an element divided by its number of nodes. *)
Definition perimeter_GetAverageNodeSpacingOfElement
    (m : Mesh.t) (index : Z) (recalculate : bool) : float :=
  match Mesh.GetElement m index with
  | Ok e =>
      let n := Element.GetNumNodes e in
      let surface_area :=
        for_loop 0 n
          (λ i area,
             a ← Mesh.GetNodeLocation m e i;
             b ← Mesh.GetNodeLocation m e (to_unsigned (i + 1) `mod` n);
             Ok (area + ublas_norm_2 (unit_square_GetVectorFromAtoB a b))%float)
          0%float in
      match surface_area with
      | Ok area => (area / of_uint63 (Uint63.of_Z n))%float
      | _ => nan
      end
  | _ => nan
  end.

(** A node at a planar position, with a cleared force and region 0. *)
Definition node_at (index : Z) (x y : float) : Node.t :=
  Node.mk index [x; y] [0%float; 0%float] 0.

Definition regions (m : Mesh.t) : list Z := Node.mRegion <$> Mesh.mNodes m.
Definition forces (m : Mesh.t) : list c_vector := Node.mAppliedForce <$> Mesh.mNodes m.

(** * The vocabulary of the properties *)

(** The pointer an element holds at a local index. *)
Definition node_ptr (e : Element.t) (j : Z) : nat :=
  default 0%nat (Element.mNodes e !! Z.to_nat j).

Definition with_nodes (m : Mesh.t) (ns : list Node.t) : Mesh.t :=
  Mesh.mk ns (Mesh.mElements m) (Mesh.mMembraneIndex m).

(** The node store after the nodes at local indices [js] have been
    updated, one after the other, by [g]. *)
Definition apply_updates (e : Element.t) (g : Z → Node.t → Node.t)
    (js : list Z) (ns : list Node.t) : list Node.t :=
  foldl (λ ns j, alter (g j) (node_ptr e j) ns) ns js.

(** The node pointers of an element are all live and their number fits
    an [unsigned]. *)
Definition valid_nodes (m : Mesh.t) (e : Element.t) : Prop :=
  vec_size (Element.mNodes e) ≤ UINT_MAX ∧
  Forall (λ p, (p < length (Mesh.mNodes m))%nat) (Element.mNodes e).

Definition in_range (lo hi j : Z) : bool := (lo <=? j) && (j <? hi).

(** The tag that a list of range assignments [(lo, hi, tag)], made one
    after the other, leaves on local index [j]. *)
Definition assign_ranges (ranges : list (Z * Z * Z)) (j : Z) (tag : Z) : Z :=
  foldl (λ tag '(lo, hi, t), if in_range lo hi j then t else tag) tag ranges.

(** The tag of the last of the ranges that contains local index [j]. *)
Definition last_range_tag (ranges : list (Z * Z * Z)) (j : Z) : option Z :=
  foldl (λ tag '(lo, hi, t), if in_range lo hi j then Some t else tag) None ranges.

(** The five ranges of the region tagging, for an element of [n] nodes
    whose corners 0, 1, 2, 3 have the local indices [i0], [i1], [i2], [i3]. *)
Definition region_ranges (n i0 i1 i2 i3 : Z) : list (Z * Z * Z) :=
  [(0, i1, msLat); (i1, i0 + 1, msApi); (i0 + 1, i3, msLat);
   (i3, i2 + 1, msBas); (i2 + 1, n, msLat)].

(** The global index stored in the node behind a pointer. *)
Definition global_index (m : Mesh.t) (p : nat) : option Z :=
  Node.mIndex <$> Mesh.mNodes m !! p.

(** No two nodes of the element carry the same global index. *)
Definition distinct_indices (m : Mesh.t) (e : Element.t) : Prop :=
  NoDup (global_index m <$> Element.mNodes e).

(** The node store after a list of range assignments. *)
Definition tagged (e : Element.t) (ranges : list (Z * Z * Z)) (ns : list Node.t)
  : list Node.t :=
  foldl (λ ns '(lo, hi, t),
           apply_updates e (λ _, Node.SetRegion t) (seqZ lo (hi - lo)) ns)
    ns ranges.

Definition ranges_within (n : Z) (ranges : list (Z * Z * Z)) : Prop :=
  Forall (λ '(lo, hi, _), 0 ≤ lo ∧ hi ≤ n) ranges.

(** The position of the node at a local index. *)
Definition location (m : Mesh.t) (e : Element.t) (j : Z) : c_vector :=
  default [] (Node.mLocation <$> Mesh.mNodes m !! node_ptr e j).


(** The meshes [m] and [m'] have the same elements and the same membrane
    index, and their nodes agree on what [π] reads from a node. *)
Definition agree {B} (π : Node.t → B) (m m' : Mesh.t) : Prop :=
  Mesh.mElements m' = Mesh.mElements m
  ∧ Mesh.mMembraneIndex m' = Mesh.mMembraneIndex m
  ∧ π <$> Mesh.mNodes m' = π <$> Mesh.mNodes m.

(** What a node carries besides its force accumulator, and besides its
    region tag. *)
Definition but_force (n : Node.t) : Z * c_vector * Z :=
  (Node.mIndex n, Node.mLocation n, Node.mRegion n).

Definition but_region (n : Node.t) : Z * c_vector * c_vector :=
  (Node.mIndex n, Node.mLocation n, Node.mAppliedForce n).

(** Every element of the mesh has live, pairwise distinct node pointers,
    at most 2^31 of them. *)
Definition well_formed_elements (m : Mesh.t) : Prop :=
  ∀ e, e ∈ Mesh.mElements m →
    valid_nodes m e ∧ NoDup (Element.mNodes e)
    ∧ vec_size (Element.mNodes e) ≤ 2147483648.

(** The corners 0, 1, 2, 3 of the element are its nodes at the local
    indices [i0], [i1], [i2], [i3]. *)
Definition corners_at (e : Element.t) (i0 i1 i2 i3 : Z) : Prop :=
  let n := vec_size (Element.mNodes e) in
  (0 ≤ i0 < n ∧ 0 ≤ i1 < n ∧ 0 ≤ i2 < n ∧ 0 ≤ i3 < n)
  ∧ Element.rGetCornerNodes e
    = [node_ptr e i0; node_ptr e i1; node_ptr e i2; node_ptr e i3].

(** Every element of the mesh has live node pointers to nodes of pairwise
    distinct global indices, and four corners among its nodes unless it
    is the membrane element. *)
Definition well_formed_corners (m : Mesh.t) : Prop :=
  ∀ e, e ∈ Mesh.mElements m →
    valid_nodes m e ∧ distinct_indices m e
    ∧ (Mesh.GetMembraneIndex m ≠ Element.GetIndex e →
       ∃ i0 i1 i2 i3, corners_at e i0 i1 i2 i3).

(** No node belongs to two elements of the mesh. *)
Definition disjoint_elements (m : Mesh.t) : Prop :=
  ∀ (pos pos' : nat) e e' p,
    pos ≠ pos' →
    Mesh.mElements m !! pos = Some e → Mesh.mElements m !! pos' = Some e' →
    p ∈ Element.mNodes e → p ∉ Element.mNodes e'.

(** Modelled from the spec: the reset of a node's force accumulator
    between two force computations ("resetting it between calls"), to the
    zero vector of [DIM] components. *)
Definition ClearAppliedForce (DIM : nat) (n : Node.t) : Node.t :=
  Node.mk (Node.mIndex n) (Node.mLocation n) (replicate DIM 0%float) (Node.mRegion n).

Definition clear_forces (DIM : nat) (m : Mesh.t) : Mesh.t :=
  with_nodes m (ClearAppliedForce DIM <$> Mesh.mNodes m).

(** The accumulators of every node reset. *)
Definition reset (DIM : nat) (s : State) : State :=
  mkState (this s) (clear_forces DIM <$> meshes s).

(** ** Meshes to run the model on *)

(** [n] nodes, all at the origin, with the global indices 0, ..., n-1. *)
Definition ring (n : nat) : list Node.t :=
  (λ i, node_at (Z.of_nat i) 0 0) <$> seq 0 n.

(** A mesh of one element of twelve nodes, without a membrane element
    (the membrane index is then UINT_MAX). *)
Definition twelve_node_element (corners : list nat) : Element.t :=
  Element.mk 0 (seq 0 12) corners [].

Definition twelve_node_mesh (corners : list nat) : Mesh.t :=
  Mesh.mk (ring 12) [twelve_node_element corners] UINT_MAX.

(** The tags of the twelve-node example: nodes 0 and 1 lateral, 2 to 5
    apical, 6 and 7 lateral, 8 to 11 basal. *)
Definition twelve_node_tags : list Z :=
  [msLat; msLat; msApi; msApi; msApi; msApi; msLat; msLat; msBas; msBas; msBas; msBas].

(** A square of side 0.25 with its lower left corner at [(x0, 0)], its
    nodes listed anticlockwise from the upper right corner, with the
    global indices [first], ..., [first + 3]. *)
Definition square_nodes (first : Z) (x0 : float) : list Node.t :=
  [node_at first (x0 + 0.25) 0.25; node_at (first + 1) x0 0.25;
   node_at (first + 2) x0 0; node_at (first + 3) (x0 + 0.25) 0].

(** The element on the nodes stored at [first], ..., [first + 3]; with
    [corners] its corners apical-left, apical-right, basal-right and
    basal-left are its nodes 1, 0, 3 and 2. *)
Definition square_element (index : Z) (first : nat) (corners : bool)
    (attributes : list float) : Element.t :=
  Element.mk index [first; first + 1; first + 2; first + 3]%nat
    (if corners then [first + 1; first; first + 3; first + 2]%nat else [])
    attributes.

(** Two squares side by side, and no membrane element. *)
Definition two_squares (corners0 corners1 : bool) (attributes0 attributes1 : list float)
  : Mesh.t :=
  Mesh.mk (square_nodes 0 0 ++ square_nodes 4 0.5)
    [square_element 0 0 corners0 attributes0; square_element 1 4 corners1 attributes1]
    UINT_MAX.

(** A population on the mesh at address 0, with intrinsic spacing 0.25. *)
Definition population : ImmersedBoundaryCellPopulation := mkPopulation 0 0.25.

(** A freshly constructed force object and one mesh. *)
Definition fresh (m : Mesh.t) : State :=
  mkState ImmersedBoundaryMembraneElasticityForce [m].

(** An element of three nodes that all sit at the origin. *)
Definition collapsed_element : Element.t := Element.mk 0 [0; 1; 2]%nat [] [].

Definition collapsed_mesh : Mesh.t := Mesh.mk (ring 3) [collapsed_element] UINT_MAX.
(** * Properties *)

(** ** Outcomes and loops *)

Lemma bind_Ok {A B} (k : A → Result B) (c : Result A) (b : B) :
  c ≫= k = Ok b ↔ ∃ a, c = Ok a ∧ k a = Ok b.
Proof.
  destruct c as [a| |]; simpl; split; try (intros [? [? ?]]); try discriminate; eauto.
  intros. simplify_eq. assumption.
Qed.

Lemma bind_Exception {A B} (k : A → Result B) (c : Result A) (msg : string) :
  c ≫= k = Exception msg ↔
  c = Exception msg ∨ ∃ a, c = Ok a ∧ k a = Exception msg.
Proof.
  destruct c as [a| |]; simpl; split.
  - intros H. right. by exists a.
  - intros [?|(? & ? & ?)]; by simplify_eq.
  - intros ?. simplify_eq. by left.
  - intros [?|(? & ? & ?)]; by simplify_eq.
  - discriminate.
  - intros [?|(? & ? & ?)]; by simplify_eq.
Qed.

Lemma of_option_Ok {A} (o : option A) (a : A) : of_option o = Ok a ↔ o = Some a.
Proof. destruct o; simpl; split; intros; simplify_eq; done. Qed.

Lemma of_option_not_Exception {A} (o : option A) msg : of_option o ≠ Exception msg.
Proof. destruct o; done. Qed.

Lemma to_unsigned_small z : 0 ≤ z ≤ UINT_MAX → to_unsigned z = z.
Proof. intros. unfold to_unsigned, UINT_MAX in *. apply Z.mod_small. lia. Qed.

Lemma to_unsigned_range z : 0 ≤ to_unsigned z ≤ UINT_MAX.
Proof.
  unfold to_unsigned, UINT_MAX.
  pose proof (Z.mod_pos_bound z (4294967295 + 1)). lia.
Qed.

Lemma to_unsigned_le z : 0 ≤ z → to_unsigned z ≤ z.
Proof. intros. unfold to_unsigned, UINT_MAX. apply Z.mod_le; lia. Qed.

Lemma vec_size_nonneg {A} (v : list A) : 0 ≤ vec_size v.
Proof. unfold vec_size. lia. Qed.

Lemma vec_at_Ok {A} (v : list A) i a :
  vec_at v i = Ok a ↔ 0 ≤ i ∧ v !! Z.to_nat i = Some a.
Proof.
  unfold vec_at. destruct (Z.leb_spec 0 i); rewrite ?of_option_Ok; split;
    intros; try tauto; try lia; try discriminate.
Qed.

Lemma vec_at_lookup {A} (v : list A) (j : nat) a :
  v !! j = Some a → vec_at v (Z.of_nat j) = Ok a.
Proof. intros. apply vec_at_Ok. rewrite Nat2Z.id. split; [lia|done]. Qed.

Lemma vec_at_not_Exception {A} (v : list A) i msg : vec_at v i ≠ Exception msg.
Proof. unfold vec_at. destruct (0 <=? i); [apply of_option_not_Exception|done]. Qed.

Lemma vec_set_not_Exception {A} (v : list A) i x msg : vec_set v i x ≠ Exception msg.
Proof. unfold vec_set. destruct (_ && _); done. Qed.

Lemma vec_set_Ok {A} (v : list A) (j : nat) x :
  (j < length v)%nat → vec_set v (Z.of_nat j) x = Ok (<[j := x]> v).
Proof.
  intros. unfold vec_set, vec_size.
  destruct (Z.leb_spec 0 (Z.of_nat j)); [|lia].
  destruct (Z.ltb_spec (Z.of_nat j) (Z.of_nat (length v))); [|lia].
  simpl. by rewrite Nat2Z.id.
Qed.

Section Loops.
Context {S : Type}.
Implicit Types (body : Z → S → Result S) (s : S).

(** A loop whose body keeps an invariant runs to completion. *)
Lemma for_steps_invariant (I : Z → S → Prop) body n lo s :
  I lo s →
  (∀ i s, lo ≤ i < lo + Z.of_nat n → I i s → ∃ s', body i s = Ok s' ∧ I (i + 1) s') →
  ∃ s', for_steps n lo body s = Ok s' ∧ I (lo + Z.of_nat n) s'.
Proof.
  revert lo s. induction n as [|n IH]; intros lo s H0 Hstep.
  - exists s. split; [done|]. by replace (lo + Z.of_nat 0) with lo by lia.
  - destruct (Hstep lo s) as (s1 & Hb & H1); [lia|done|].
    destruct (IH (lo + 1) s1) as (s2 & Hr & H2); [done| |].
    + intros i s' Hi. apply Hstep. lia.
    + exists s2. simpl. rewrite Hb. simpl. split; [done|].
      by replace (lo + Z.of_nat (Datatypes.S n)) with (lo + 1 + Z.of_nat n) by lia.
Qed.

Lemma for_loop_invariant (I : Z → S → Prop) body lo hi s :
  lo ≤ hi →
  I lo s →
  (∀ i s, lo ≤ i < hi → I i s → ∃ s', body i s = Ok s' ∧ I (i + 1) s') →
  ∃ s', for_loop lo hi body s = Ok s' ∧ I hi s'.
Proof.
  intros Hle H0 Hstep. unfold for_loop.
  destruct (for_steps_invariant I body (Z.to_nat (hi - lo)) lo s) as (s' & ? & HI);
    [done| |].
  - intros i s' Hi. apply Hstep. lia.
  - exists s'. split; [done|].
    by replace (lo + Z.of_nat (Z.to_nat (hi - lo))) with hi in HI by lia.
Qed.

Lemma for_loop_empty body lo hi s : hi ≤ lo → for_loop lo hi body s = Ok s.
Proof. intros. unfold for_loop. by replace (Z.to_nat (hi - lo)) with O by lia. Qed.

(** What every completed run of the body preserves, the completed loop
    preserves. *)
Lemma for_steps_preserves (P : S → Prop) body n lo s s' :
  (∀ i s s', body i s = Ok s' → P s → P s') →
  P s → for_steps n lo body s = Ok s' → P s'.
Proof.
  intros Hstep. revert lo s. induction n as [|n IH]; intros lo s H0 Hr; simpl in Hr.
  - by simplify_eq.
  - apply bind_Ok in Hr as (s1 & Hb & Hr). eauto.
Qed.

Lemma for_loop_preserves (P : S → Prop) body lo hi s s' :
  (∀ i s s', body i s = Ok s' → P s → P s') →
  P s → for_loop lo hi body s = Ok s' → P s'.
Proof. apply for_steps_preserves. Qed.

(** A loop throws only if its body does. *)
Lemma for_steps_not_Exception body n lo s msg :
  (∀ i s, body i s ≠ Exception msg) → for_steps n lo body s ≠ Exception msg.
Proof.
  intros Hb. revert lo s. induction n as [|n IH]; intros lo s; simpl; [done|].
  intros H. apply bind_Exception in H as [?|(s1 & _ & ?)]; [by eapply Hb|by eapply IH].
Qed.

Lemma for_loop_not_Exception body lo hi s msg :
  (∀ i s, body i s ≠ Exception msg) → for_loop lo hi body s ≠ Exception msg.
Proof. apply for_steps_not_Exception. Qed.

(** The first iteration that throws ends the loop with its exception. *)
Lemma for_steps_first_Exception body n lo s msg (k : nat) :
  (k < n)%nat →
  (∀ i, lo ≤ i < lo + Z.of_nat k → body i s = Ok s) →
  body (lo + Z.of_nat k) s = Exception msg →
  for_steps n lo body s = Exception msg.
Proof.
  revert lo k. induction n as [|n IH]; intros lo k Hk Hok Hthrow; [lia|].
  simpl. destruct k as [|k].
  - replace (lo + Z.of_nat 0) with lo in Hthrow by lia. by rewrite Hthrow.
  - rewrite Hok by lia. simpl. apply (IH (lo + 1) k); [lia| |].
    + intros i Hi. apply Hok. lia.
    + by replace (lo + 1 + Z.of_nat k) with (lo + Z.of_nat (Datatypes.S k)) by lia.
Qed.

Lemma for_steps_all_Ok body n lo s :
  (∀ i, lo ≤ i < lo + Z.of_nat n → body i s = Ok s) →
  for_steps n lo body s = Ok s.
Proof.
  intros H. destruct (for_steps_invariant (λ _ s', s' = s) body n lo s) as (s' & ? & ?);
    [done| |by simplify_eq].
  intros i s' Hi ->. exists s. split; [by apply H|done].
Qed.

End Loops.

(** ** Binary64 arithmetic

    The facts about [double] arithmetic that the force computation
    depends on, read off the specification of the primitive operations. *)

Lemma is_nan_spec x :
  is_nan x = match Prim2SF x with S754_nan => true | _ => false end.
Proof.
  unfold is_nan. rewrite FloatAxioms.eqb_spec. unfold SFeqb, SFcompare.
  destruct (Prim2SF x) as [s|s| |s m e]; [done|by destruct s|done|].
  destruct s; rewrite Z.compare_refl, Pos.compare_cont_refl; done.
Qed.

Lemma is_zero_spec x :
  is_zero x = match Prim2SF x with S754_zero _ => true | _ => false end.
Proof.
  unfold is_zero. rewrite FloatAxioms.eqb_spec.
  change (Prim2SF zero) with (S754_zero false).
  by destruct (Prim2SF x) as [s|s| |s m e]; try destruct s.
Qed.

Lemma is_infinity_spec x :
  is_infinity x = match Prim2SF x with S754_infinity _ => true | _ => false end.
Proof.
  unfold is_infinity. rewrite FloatAxioms.eqb_spec, FloatAxioms.abs_spec.
  change (Prim2SF infinity) with (S754_infinity false).
  by destruct (Prim2SF x) as [s|s| |s m e].
Qed.

Lemma is_finite_spec x :
  is_finite x
  = match Prim2SF x with S754_zero _ | S754_finite _ _ _ => true | _ => false end.
Proof.
  unfold is_finite. rewrite is_nan_spec, is_infinity_spec.
  by destruct (Prim2SF x).
Qed.

(** [x - x] is [+0] for a finite [x]. *)
Lemma sub_diag_finite x : is_finite x = true → Prim2SF (x - x) = S754_zero false.
Proof.
  rewrite is_finite_spec, FloatAxioms.sub_spec. unfold SF64sub, SFsub.
  destruct (Prim2SF x) as [s|s| |s m e]; try discriminate; intros _.
  - by destruct s.
  - by rewrite Z.sub_diag.
Qed.

(** A finite number times a zero is a zero. *)
Lemma mul_finite_zero x z :
  is_finite x = true → is_zero z = true → is_zero (x * z) = true.
Proof.
  rewrite is_finite_spec, !is_zero_spec, FloatAxioms.mul_spec. unfold SF64mul, SFmul.
  by destruct (Prim2SF x), (Prim2SF z).
Qed.

(** A zero divided by a finite number that is not a zero is a zero. *)
Lemma div_zero_finite z d :
  is_zero z = true → is_finite d = true → is_zero d = false → is_zero (z / d) = true.
Proof.
  rewrite is_finite_spec, !is_zero_spec, FloatAxioms.div_spec. unfold SF64div, SFdiv.
  by destruct (Prim2SF z), (Prim2SF d).
Qed.

(** The difference of two zeros is a zero. *)
Lemma sub_zero_zero a b : is_zero a = true → is_zero b = true → is_zero (a - b) = true.
Proof.
  rewrite !is_zero_spec, FloatAxioms.sub_spec. unfold SF64sub, SFsub.
  destruct (Prim2SF a) as [sa|sa| |sa ma ea], (Prim2SF b) as [sb|sb| |sb mb eb];
    try discriminate.
  by destruct sa, sb.
Qed.











Lemma is_zero_sub_diag x : is_finite x = true → is_zero (x - x) = true.
Proof. intros H. by rewrite is_zero_spec, sub_diag_finite. Qed.

Lemma Forall_scale_assign (P Q : float → Prop) v s :
  (∀ x, P x → Q (x * s)%float) → Forall P v → Forall Q (scale_assign v s).
Proof.
  intros HPQ Hv. unfold scale_assign. apply Forall_fmap.
  eapply Forall_impl; [exact Hv|]. intros x Hx. by apply HPQ.
Qed.

Lemma Forall_vminus (P P' Q : float → Prop) a b :
  (∀ x y, P x → P' y → Q (x - y)%float) →
  Forall P a → Forall P' b → Forall Q (vminus a b).
Proof.
  intros HQ Ha. revert b. unfold vminus.
  induction Ha as [|x a Hx Ha IH]; intros b Hb; simpl; [done|].
  destruct Hb as [|y b Hy Hb]; simpl; [done|].
  constructor; [by apply HQ|by apply IH].
Qed.

(** ** Loops over the nodes of an element *)

Lemma with_nodes_id m : with_nodes m (Mesh.mNodes m) = m.
Proof. by destruct m. Qed.

Lemma GetNumNodes_valid m e :
  valid_nodes m e → Element.GetNumNodes e = vec_size (Element.mNodes e).
Proof.
  intros [? _]. apply to_unsigned_small. split; [apply vec_size_nonneg|done].
Qed.

Lemma GetNode_Ok e (j : Z) :
  0 ≤ j < vec_size (Element.mNodes e) →
  Element.GetNode e j = Ok (node_ptr e j) ∧
  Element.mNodes e !! Z.to_nat j = Some (node_ptr e j).
Proof.
  intros Hj. unfold Element.GetNode, node_ptr, vec_size in *.
  destruct (Z.ltb_spec j (Z.of_nat (length (Element.mNodes e)))); [|lia].
  destruct (lookup_lt_is_Some_2 (Element.mNodes e) (Z.to_nat j)) as [p Hp]; [lia|].
  rewrite Hp. simpl. split; [|done]. apply vec_at_Ok. split; [lia|done].
Qed.

Lemma GetNode_not_Exception e j msg : Element.GetNode e j ≠ Exception msg.
Proof.
  unfold Element.GetNode. destruct (_ <? _); [apply vec_at_not_Exception|done].
Qed.

Lemma node_ptr_valid m e (j : Z) :
  valid_nodes m e → 0 ≤ j < vec_size (Element.mNodes e) →
  (node_ptr e j < length (Mesh.mNodes m))%nat.
Proof.
  intros [_ Hall] Hj. destruct (GetNode_Ok e j Hj) as [_ Hp].
  by apply (Forall_lookup_1 _ _ _ _ Hall Hp).
Qed.

Lemma update_node_Ok p f m :
  (p < length (Mesh.mNodes m))%nat →
  Mesh.update_node p f m = Ok (with_nodes m (alter f p (Mesh.mNodes m))).
Proof.
  intros Hp. unfold Mesh.update_node.
  by destruct (lookup_lt_is_Some_2 _ _ Hp) as [n ->].
Qed.

Lemma update_node_inv p f m m' :
  Mesh.update_node p f m = Ok m' → m' = with_nodes m (alter f p (Mesh.mNodes m)).
Proof. unfold Mesh.update_node. destruct (_ !! _); intros; by simplify_eq. Qed.

Lemma update_node_not_Exception p f m msg : Mesh.update_node p f m ≠ Exception msg.
Proof. unfold Mesh.update_node. by destruct (_ !! _). Qed.

Lemma node_Ok m p n : Mesh.node m p = Ok n ↔ Mesh.mNodes m !! p = Some n.
Proof. apply of_option_Ok. Qed.

Lemma length_apply_updates e g js ns : length (apply_updates e g js ns) = length ns.
Proof.
  unfold apply_updates. revert ns. induction js as [|j js IH]; intros ns; simpl; [done|].
  by rewrite IH, length_alter.
Qed.

Lemma apply_updates_snoc e g js j ns :
  apply_updates e g (js ++ [j]) ns = alter (g j) (node_ptr e j) (apply_updates e g js ns).
Proof. unfold apply_updates. by rewrite foldl_app. Qed.

(** The closed form of a loop that updates the node at each local index
    of a range. *)
Lemma node_loop_Ok m e g lo hi :
  valid_nodes m e → 0 ≤ lo → hi ≤ vec_size (Element.mNodes e) →
  for_loop lo hi
    (λ node_idx m, p ← Element.GetNode e node_idx; Mesh.update_node p (g node_idx) m) m
  = Ok (with_nodes m (apply_updates e g (seqZ lo (hi - lo)) (Mesh.mNodes m))).
Proof.
  intros Hv Hlo Hhi. destruct (Z.le_gt_cases lo hi) as [Hle|Hgt].
  - destruct (for_loop_invariant
      (λ i mi, mi = with_nodes m (apply_updates e g (seqZ lo (i - lo)) (Mesh.mNodes m)))
      (λ node_idx m, p ← Element.GetNode e node_idx; Mesh.update_node p (g node_idx) m)
      lo hi m) as (m' & -> & ->); [done| | |done].
    + rewrite Z.sub_diag. simpl. by rewrite with_nodes_id.
    + intros i mi Hi ->. destruct (GetNode_Ok e i) as [-> _]; [lia|]. simpl.
      rewrite update_node_Ok.
      * eexists. split; [done|]. unfold with_nodes. simpl. f_equal.
        replace (i + 1 - lo) with (Z.of_nat (Datatypes.S (Z.to_nat (i - lo)))) by lia.
        rewrite seqZ_S, apply_updates_snoc.
        rewrite Z2Nat.id by lia. by replace (lo + (i - lo)) with i by lia.
      * simpl. rewrite length_apply_updates. apply node_ptr_valid; [done|lia].
  - rewrite for_loop_empty by lia. rewrite seqZ_nil by lia. simpl. by rewrite with_nodes_id.
Qed.

(** Such a loop never throws, and when it completes it has only applied
    the updates. *)
Lemma node_loop_not_Exception e g lo hi m msg :
  for_loop lo hi
    (λ node_idx m, p ← Element.GetNode e node_idx; Mesh.update_node p (g node_idx) m) m
  ≠ Exception msg.
Proof.
  apply for_loop_not_Exception. intros i s H.
  apply bind_Exception in H as [H|(p & _ & H)].
  - by apply GetNode_not_Exception in H.
  - by apply update_node_not_Exception in H.
Qed.

Lemma apply_updates_cons e g j js ns :
  apply_updates e g (j :: js) ns = apply_updates e g js (alter (g j) (node_ptr e j) ns).
Proof. done. Qed.

(** A node that none of the local indices points to is left alone. *)
Lemma lookup_apply_updates_other e g js ns p :
  p ∉ node_ptr e <$> js → apply_updates e g js ns !! p = ns !! p.
Proof.
  revert ns. induction js as [|j js IH]; intros ns Hp; [done|].
  rewrite fmap_cons, not_elem_of_cons in Hp. destruct Hp as [Hne Hp].
  rewrite apply_updates_cons, IH by done. by apply list_lookup_alter_ne.
Qed.

(** When the local indices point to distinct nodes, each node receives
    exactly its own update. *)
Lemma lookup_apply_updates_NoDup e g js ns j :
  NoDup (node_ptr e <$> js) → j ∈ js →
  apply_updates e g js ns !! node_ptr e j = g j <$> ns !! node_ptr e j.
Proof.
  revert ns. induction js as [|j0 js IH]; intros ns Hnd Hj; [by apply elem_of_nil in Hj|].
  rewrite fmap_cons in Hnd. apply NoDup_cons in Hnd as [Hfresh Hnd].
  rewrite apply_updates_cons. apply elem_of_cons in Hj as [->|Hj].
  - rewrite lookup_apply_updates_other by done. apply list_lookup_alter_eq.
  - rewrite IH by done. rewrite list_lookup_alter_ne; [done|].
    intros Heq. apply Hfresh. rewrite Heq. by apply list_elem_of_fmap_2.
Qed.

(** An update that is the same at every index and idempotent: a node is
    updated if and only if some index of the range points to it. *)
Lemma lookup_apply_updates_const e f js ns p :
  (∀ n, f (f n) = f n) →
  apply_updates e (λ _, f) js ns !! p
  = (if decide (p ∈ node_ptr e <$> js) then f else id) <$> ns !! p.
Proof.
  intros Hf. revert ns. induction js as [|j js IH]; intros ns.
  - change (apply_updates e (λ _, f) [] ns) with ns. rewrite fmap_nil.
    case_decide as H; [by apply elem_of_nil in H|]. by destruct (ns !! p).
  - rewrite apply_updates_cons, IH, fmap_cons.
    destruct (decide (node_ptr e j = p)) as [->|Hne].
    + rewrite list_lookup_alter_eq.
      rewrite (decide_True (P := p ∈ p :: _)) by apply list_elem_of_here.
      destruct (ns !! p) as [n|]; simpl; [|by case_decide].
      case_decide; simpl; by rewrite ?Hf.
    + rewrite list_lookup_alter_ne by done.
      destruct (decide (p ∈ node_ptr e <$> js)) as [Hin|Hnin].
      * by rewrite decide_True by by apply list_elem_of_further.
      * rewrite decide_False; [done|]. rewrite not_elem_of_cons. split; [done|done].
Qed.

(** An index of a range points to a node exactly when that node's local
    index lies in the range, the element's node pointers being distinct. *)
Lemma node_ptr_in_range e lo hi (j : Z) :
  NoDup (Element.mNodes e) → 0 ≤ lo → hi ≤ vec_size (Element.mNodes e) →
  0 ≤ j < vec_size (Element.mNodes e) →
  node_ptr e j ∈ node_ptr e <$> seqZ lo (hi - lo) ↔ lo ≤ j < hi.
Proof.
  intros Hnd Hlo Hhi Hj. rewrite list_elem_of_fmap. split.
  - intros (j' & Heq & Hin). apply elem_of_seqZ in Hin.
    destruct (GetNode_Ok e j) as [_ H1]; [done|].
    destruct (GetNode_Ok e j') as [_ H2]; [lia|].
    rewrite <- Heq in H2.
    pose proof (NoDup_lookup _ _ _ _ Hnd H1 H2). lia.
  - intros Hr. exists j. split; [done|]. apply elem_of_seqZ. lia.
Qed.

Lemma node_ptr_elem_of e (j : Z) :
  0 ≤ j < vec_size (Element.mNodes e) → node_ptr e j ∈ Element.mNodes e.
Proof.
  intros Hj. destruct (GetNode_Ok e j Hj) as [_ H]. by eapply list_elem_of_lookup_2.
Qed.

Lemma node_ptr_fmap_subseteq e lo len p :
  0 ≤ lo → lo + len ≤ vec_size (Element.mNodes e) →
  p ∈ node_ptr e <$> seqZ lo len → p ∈ Element.mNodes e.
Proof.
  intros Hlo Hhi (j & -> & Hin)%list_elem_of_fmap. apply elem_of_seqZ in Hin.
  apply node_ptr_elem_of. lia.
Qed.

(** NoDup of the pointers read through a range of local indices. *)
Lemma NoDup_node_ptr_range e lo len :
  NoDup (Element.mNodes e) → 0 ≤ lo → lo + len ≤ vec_size (Element.mNodes e) →
  NoDup (node_ptr e <$> seqZ lo len).
Proof.
  intros Hnd Hlo Hhi. apply NoDup_fmap_2_strong; [|apply NoDup_seqZ].
  intros j j' Hj Hj' Heq. apply elem_of_seqZ in Hj, Hj'.
  destruct (GetNode_Ok e j) as [_ H1]; [lia|].
  destruct (GetNode_Ok e j') as [_ H2]; [lia|].
  rewrite <- Heq in H2.
  pose proof (NoDup_lookup _ _ _ _ Hnd H1 H2). lia.
Qed.

(** ** Region tagging *)

Lemma distinct_indices_NoDup m e : distinct_indices m e → NoDup (Element.mNodes e).
Proof. apply NoDup_fmap_1. Qed.

Lemma valid_nodes_with_nodes m e ns :
  length ns = length (Mesh.mNodes m) → valid_nodes m e → valid_nodes (with_nodes m ns) e.
Proof. intros Hlen [? ?]. split; [done|]. simpl. by rewrite Hlen. Qed.

Lemma set_regions_Ok m e lo hi r :
  valid_nodes m e → 0 ≤ lo → hi ≤ vec_size (Element.mNodes e) →
  set_regions e lo hi r m
  = Ok (with_nodes m
          (apply_updates e (λ _, Node.SetRegion r) (seqZ lo (hi - lo)) (Mesh.mNodes m))).
Proof. apply node_loop_Ok. Qed.

Lemma lookup_set_regions e lo hi r ns (j : Z) :
  NoDup (Element.mNodes e) → 0 ≤ lo → hi ≤ vec_size (Element.mNodes e) →
  0 ≤ j < vec_size (Element.mNodes e) →
  apply_updates e (λ _, Node.SetRegion r) (seqZ lo (hi - lo)) ns !! node_ptr e j
  = (if in_range lo hi j then Node.SetRegion r else id) <$> ns !! node_ptr e j.
Proof.
  intros Hnd Hlo Hhi Hj. rewrite lookup_apply_updates_const by done.
  pose proof (node_ptr_in_range e lo hi j Hnd Hlo Hhi Hj) as Hiff.
  unfold in_range. case_decide as Hin; [apply Hiff in Hin|];
    destruct (Z.leb_spec lo j), (Z.ltb_spec j hi); simpl; try done;
    exfalso; lia || (apply Hin, Hiff; lia).
Qed.

Lemma lookup_set_regions_other e lo hi r ns p :
  0 ≤ lo → hi ≤ vec_size (Element.mNodes e) → p ∉ Element.mNodes e →
  apply_updates e (λ _, Node.SetRegion r) (seqZ lo (hi - lo)) ns !! p = ns !! p.
Proof.
  intros Hlo Hhi Hp. apply lookup_apply_updates_other. intros Hin. apply Hp.
  destruct (Z.le_gt_cases lo hi).
  - apply (node_ptr_fmap_subseteq e lo (hi - lo)); [done|lia|done].
  - rewrite seqZ_nil in Hin by lia. by apply elem_of_nil in Hin.
Qed.

(** The local index of a node of the element is found from its global
    index. *)
Lemma GetNodeLocalIndex_Ok m e (j : Z) n :
  valid_nodes m e → distinct_indices m e →
  0 ≤ j < vec_size (Element.mNodes e) →
  Mesh.mNodes m !! node_ptr e j = Some n →
  Mesh.GetNodeLocalIndex m e (Node.GetIndex n) = Ok j.
Proof.
  intros Hv Hd Hj Hn. unfold Mesh.GetNodeLocalIndex.
  rewrite (GetNumNodes_valid m e Hv).
  destruct (for_loop_invariant
    (λ i li, (i ≤ j ∧ li = UINT_MAX) ∨ (j < i ∧ li = j))
    (λ i local_index,
       p ← Element.GetNode e i;
       n0 ← Mesh.node m p;
       Ok (if Node.GetIndex n0 =? Node.GetIndex n then i else local_index))
    0 (vec_size (Element.mNodes e)) UINT_MAX) as (li & -> & Hli).
  - lia.
  - left. split; [lia|done].
  - intros i li Hi HI. destruct (GetNode_Ok e i) as [-> Hpi]; [lia|]. simpl.
    pose proof (node_ptr_valid m e i Hv ltac:(lia)) as Hlt.
    destruct (lookup_lt_is_Some_2 _ _ Hlt) as [ni Hni].
    unfold Mesh.node. rewrite Hni. simpl. eexists. split; [done|].
    destruct (decide (i = j)) as [->|Hne].
    + right. split; [lia|]. rewrite Hni in Hn. simplify_eq.
      by rewrite Z.eqb_refl.
    + destruct (Z.eqb_spec (Node.GetIndex ni) (Node.GetIndex n)) as [Heq|_].
      * exfalso. apply Hne.
        destruct (GetNode_Ok e j) as [_ Hpj]; [lia|].
        assert (Z.to_nat i = Z.to_nat j); [|lia].
        apply (NoDup_lookup _ _ _ (Some (Node.GetIndex n)) Hd).
        -- rewrite list_lookup_fmap, Hpi. simpl. unfold global_index.
           rewrite Hni. simpl. unfold Node.GetIndex in Heq. by rewrite Heq.
        -- rewrite list_lookup_fmap, Hpj. simpl. unfold global_index.
           by rewrite Hn.
      * destruct HI as [[? ->]|[? ->]]; [left|right]; split; (lia || done).
  - f_equal. destruct Hli as [[? ?]|[? ?]]; [lia|done].
Qed.

Lemma corner_index_Ok m e r_corners (c : nat) (j : Z) :
  valid_nodes m e → distinct_indices m e →
  0 ≤ j < vec_size (Element.mNodes e) →
  r_corners !! c = Some (node_ptr e j) →
  corner_index m e r_corners (Z.of_nat c) = Ok j.
Proof.
  intros Hv Hd Hj Hc. unfold corner_index.
  rewrite (vec_at_lookup _ _ _ Hc). simpl.
  pose proof (node_ptr_valid m e j Hv Hj) as Hlt.
  destruct (lookup_lt_is_Some_2 _ _ Hlt) as [n Hn].
  unfold Mesh.node. rewrite Hn. simpl. by apply GetNodeLocalIndex_Ok.
Qed.

Lemma length_tagged e ranges ns : length (tagged e ranges ns) = length ns.
Proof.
  unfold tagged. revert ns. induction ranges as [|[[lo hi] t] ranges IH]; intros ns;
    simpl; [done|].
  by rewrite IH, length_apply_updates.
Qed.

Lemma lookup_tagged e ranges ns (j : Z) :
  NoDup (Element.mNodes e) →
  ranges_within (vec_size (Element.mNodes e)) ranges →
  0 ≤ j < vec_size (Element.mNodes e) →
  tagged e ranges ns !! node_ptr e j
  = (λ n, Node.SetRegion (assign_ranges ranges j (Node.mRegion n)) n)
      <$> ns !! node_ptr e j.
Proof.
  intros Hnd Hr Hj. unfold tagged, assign_ranges. revert ns.
  induction Hr as [|[[lo hi] t] ranges [Hlo Hhi] _ IH]; intros ns; simpl.
  - destruct (ns !! node_ptr e j) as [[]|]; done.
  - rewrite IH, lookup_set_regions by done.
    destruct (ns !! node_ptr e j) as [[]|]; simpl; [|done].
    by destruct (in_range lo hi j).
Qed.

Lemma lookup_tagged_other e ranges ns p :
  ranges_within (vec_size (Element.mNodes e)) ranges →
  p ∉ Element.mNodes e → tagged e ranges ns !! p = ns !! p.
Proof.
  intros Hr Hp. unfold tagged. revert ns.
  induction Hr as [|[[lo hi] t] ranges [Hlo Hhi] _ IH]; intros ns; simpl; [done|].
  by rewrite IH, lookup_set_regions_other.
Qed.

Lemma set_regions_with_nodes m e lo hi r ns :
  valid_nodes m e → length ns = length (Mesh.mNodes m) →
  0 ≤ lo → hi ≤ vec_size (Element.mNodes e) →
  set_regions e lo hi r (with_nodes m ns)
  = Ok (with_nodes m (apply_updates e (λ _, Node.SetRegion r) (seqZ lo (hi - lo)) ns)).
Proof.
  intros Hv Hlen Hlo Hhi. rewrite set_regions_Ok; [done| |done..].
  by apply valid_nodes_with_nodes.
Qed.

(** The region tagging of the membrane element. *)
Lemma TagNodeRegions_element_membrane m e :
  valid_nodes m e →
  Mesh.GetMembraneIndex m = Element.GetIndex e →
  TagNodeRegions_element e m
  = Ok (with_nodes m
          (tagged e [(0, vec_size (Element.mNodes e), msBas)] (Mesh.mNodes m))).
Proof.
  intros Hv Hm. unfold TagNodeRegions_element. rewrite Hm, Z.eqb_refl.
  rewrite (GetNumNodes_valid m e Hv). by rewrite set_regions_Ok by (done || lia).
Qed.

(** The region tagging of any other element, its corners 0, 1, 2, 3
    being its nodes at local indices [i0], [i1], [i2], [i3]. *)
Lemma TagNodeRegions_element_other m e (i0 i1 i2 i3 : Z) :
  valid_nodes m e → distinct_indices m e →
  Mesh.GetMembraneIndex m ≠ Element.GetIndex e →
  0 ≤ i0 < vec_size (Element.mNodes e) → 0 ≤ i1 < vec_size (Element.mNodes e) →
  0 ≤ i2 < vec_size (Element.mNodes e) → 0 ≤ i3 < vec_size (Element.mNodes e) →
  Element.rGetCornerNodes e !! 0%nat = Some (node_ptr e i0) →
  Element.rGetCornerNodes e !! 1%nat = Some (node_ptr e i1) →
  Element.rGetCornerNodes e !! 2%nat = Some (node_ptr e i2) →
  Element.rGetCornerNodes e !! 3%nat = Some (node_ptr e i3) →
  TagNodeRegions_element e m
  = Ok (with_nodes m
          (tagged e (region_ranges (vec_size (Element.mNodes e)) i0 i1 i2 i3)
             (Mesh.mNodes m))).
Proof.
  intros Hv Hd Hm H0 H1 H2 H3 Hc0 Hc1 Hc2 Hc3. unfold TagNodeRegions_element.
  destruct (Z.eqb_spec (Mesh.GetMembraneIndex m) (Element.GetIndex e)); [done|].
  rewrite (corner_index_Ok m e _ 1 i1), (corner_index_Ok m e _ 0 i0),
    (corner_index_Ok m e _ 3 i3), (corner_index_Ok m e _ 2 i2) by done.
  simpl. rewrite (GetNumNodes_valid m e Hv).
  destruct Hv as [Hsz Hall]. pose proof (conj Hsz Hall : valid_nodes m e) as Hv.
  rewrite !to_unsigned_small by lia.
  rewrite <- (with_nodes_id m) at 1.
  rewrite set_regions_with_nodes by (done || lia). simpl.
  rewrite set_regions_with_nodes by (rewrite ?length_apply_updates; done || lia). simpl.
  rewrite set_regions_with_nodes by (rewrite ?length_apply_updates; done || lia). simpl.
  rewrite set_regions_with_nodes by (rewrite ?length_apply_updates; done || lia). simpl.
  rewrite set_regions_with_nodes by (rewrite ?length_apply_updates; done || lia).
  done.
Qed.

Lemma region_ranges_within n i0 i1 i2 i3 :
  0 ≤ i0 < n → 0 ≤ i1 < n → 0 ≤ i2 < n → 0 ≤ i3 < n →
  ranges_within n (region_ranges n i0 i1 i2 i3).
Proof. intros. repeat constructor; lia. Qed.

(** The five ranges leave no local index untagged: the tag a node had
    before does not survive. *)
Lemma assign_region_ranges_covers n i0 i1 i2 i3 j tag :
  0 ≤ j < n →
  assign_ranges (region_ranges n i0 i1 i2 i3) j tag
  = assign_ranges (region_ranges n i0 i1 i2 i3) j msLat.
Proof.
  intros Hj. unfold assign_ranges, region_ranges, in_range. simpl.
  repeat match goal with
         | |- context [?a <=? ?b] => destruct (Z.leb_spec a b)
         | |- context [?a <? ?b] => destruct (Z.ltb_spec a b)
         end; simpl; try done; lia.
Qed.

Lemma assign_ranges_last ranges j tag :
  assign_ranges ranges j tag = default tag (last_range_tag ranges j).
Proof.
  unfold assign_ranges, last_range_tag.
  change tag with (default tag None) at 1. generalize (@None Z) as acc.
  induction ranges as [|[[lo hi] t] ranges IH]; intros acc; simpl; [done|].
  rewrite <- IH. by destruct (in_range lo hi j).
Qed.

(** The five ranges leave no local index untagged. *)
Lemma region_ranges_cover n i0 i1 i2 i3 j :
  0 ≤ j < n → is_Some (last_range_tag (region_ranges n i0 i1 i2 i3) j).
Proof.
  intros Hj. unfold last_range_tag, region_ranges, in_range. simpl.
  repeat match goal with
         | |- context [?a <=? ?b] => destruct (Z.leb_spec a b)
         | |- context [?a <? ?b] => destruct (Z.ltb_spec a b)
         end; simpl; try done; lia.
Qed.

(** When the corners come in the order the tagging expects, the five
    ranges partition the local indices. *)
Lemma region_ranges_ordered n i0 i1 i2 i3 j :
  0 ≤ i1 → i1 ≤ i0 + 1 → i0 + 1 ≤ i3 → i3 ≤ i2 + 1 → i2 + 1 ≤ n → 0 ≤ j < n →
  last_range_tag (region_ranges n i0 i1 i2 i3) j
  = Some (if j <? i1 then msLat
          else if j <? i0 + 1 then msApi
          else if j <? i3 then msLat
          else if j <? i2 + 1 then msBas
          else msLat).
Proof.
  intros. unfold last_range_tag, region_ranges, in_range. simpl.
  repeat match goal with
         | |- context [?a <=? ?b] => destruct (Z.leb_spec a b)
         | |- context [?a <? ?b] => destruct (Z.ltb_spec a b)
         end; simpl; try done; lia.
Qed.

Lemma lookup_tagged_last e ranges ns (j : Z) t :
  NoDup (Element.mNodes e) →
  ranges_within (vec_size (Element.mNodes e)) ranges →
  0 ≤ j < vec_size (Element.mNodes e) →
  last_range_tag ranges j = Some t →
  tagged e ranges ns !! node_ptr e j = Node.SetRegion t <$> ns !! node_ptr e j.
Proof.
  intros Hnd Hr Hj Ht. rewrite lookup_tagged by done.
  destruct (ns !! node_ptr e j) as [nd|]; simpl; [|done].
  by rewrite assign_ranges_last, Ht.
Qed.

(** The region tagging of one element: all basal for the membrane
    element, and for any other element the tag of the last of the five
    ranges that holds the local index.  Nothing but region tags changes,
    and only on the element's nodes. *)
Lemma TagNodeRegions_element_spec m e :
  valid_nodes m e → distinct_indices m e →
  let n := vec_size (Element.mNodes e) in
  (Mesh.GetMembraneIndex m = Element.GetIndex e →
   ∃ ns', TagNodeRegions_element e m = Ok (with_nodes m ns')
     ∧ (∀ j, 0 ≤ j < n →
          ns' !! node_ptr e j = Node.SetRegion msBas <$> Mesh.mNodes m !! node_ptr e j)
     ∧ (∀ p, p ∉ Element.mNodes e → ns' !! p = Mesh.mNodes m !! p))
  ∧ (∀ i0 i1 i2 i3,
       Mesh.GetMembraneIndex m ≠ Element.GetIndex e →
       0 ≤ i0 < n → 0 ≤ i1 < n → 0 ≤ i2 < n → 0 ≤ i3 < n →
       Element.rGetCornerNodes e
       = [node_ptr e i0; node_ptr e i1; node_ptr e i2; node_ptr e i3] →
       ∃ ns', TagNodeRegions_element e m = Ok (with_nodes m ns')
         ∧ (∀ j, 0 ≤ j < n →
              ∃ t, last_range_tag
                     [(0, i1, msLat); (i1, i0 + 1, msApi); (i0 + 1, i3, msLat);
                      (i3, i2 + 1, msBas); (i2 + 1, n, msLat)] j = Some t
                ∧ ns' !! node_ptr e j
                  = Node.SetRegion t <$> Mesh.mNodes m !! node_ptr e j)
         ∧ (∀ p, p ∉ Element.mNodes e → ns' !! p = Mesh.mNodes m !! p)).
Proof.
  intros Hv Hd n. pose proof (distinct_indices_NoDup m e Hd) as Hnd.
  pose proof (vec_size_nonneg (Element.mNodes e)) as Hn. split.
  - intros Hm. eexists. split; [by apply TagNodeRegions_element_membrane|].
    assert (ranges_within n [(0, n, msBas)]) as Hr by (repeat constructor; lia).
    split.
    + intros j Hj. apply lookup_tagged_last; try done.
      unfold last_range_tag, in_range. cbn [foldl]. fold n.
      by rewrite (proj2 (Z.leb_le 0 j)), (proj2 (Z.ltb_lt j n)) by lia.
    + intros p Hp. by apply lookup_tagged_other.
  - intros i0 i1 i2 i3 Hm H0 H1 H2 H3 Hc. eexists.
    split; [apply (TagNodeRegions_element_other m e i0 i1 i2 i3); try done;
            by rewrite Hc|].
    pose proof (region_ranges_within n i0 i1 i2 i3 H0 H1 H2 H3) as Hr.
    split.
    + intros j Hj. destruct (region_ranges_cover n i0 i1 i2 i3 j Hj) as [t Ht].
      exists t. split; [done|]. by apply lookup_tagged_last.
    + intros p Hp. by apply lookup_tagged_other.
Qed.

(** C4, amended.  For an element of twelve nodes that is not the membrane
    element and whose corners apical-left, apical-right, basal-right and
    basal-left sit at the local indices 5, 2, 11 and 8, the tagging leaves
    nodes 0 and 1 lateral, nodes 2 to 5 apical, nodes 6 and 7 lateral and
    nodes 8 to 11 basal. *)
Theorem C4_twelve_nodes_corners_5_2_11_8 m e :
  valid_nodes m e → distinct_indices m e →
  vec_size (Element.mNodes e) = 12 →
  Mesh.GetMembraneIndex m ≠ Element.GetIndex e →
  Element.rGetCornerNodes e
  = [node_ptr e 5; node_ptr e 2; node_ptr e 11; node_ptr e 8] →
  ∃ ns', TagNodeRegions_element e m = Ok (with_nodes m ns')
    ∧ ∀ (j : nat) t, twelve_node_tags !! j = Some t →
        ns' !! node_ptr e (Z.of_nat j)
        = Node.SetRegion t <$> Mesh.mNodes m !! node_ptr e (Z.of_nat j).
Proof.
  intros Hv Hd Hn Hm Hc. pose proof (distinct_indices_NoDup m e Hd) as Hnd.
  eexists. split.
  - apply (TagNodeRegions_element_other m e 5 2 11 8); try done; try lia;
      by rewrite Hc.
  - intros j t Hj. rewrite Hn.
    assert (j < 12)%nat as Hlt by (apply lookup_lt_Some in Hj; simpl in Hj; lia).
    apply lookup_tagged_last; [done| |lia|].
    + rewrite Hn. apply region_ranges_within; lia.
    + do 12 (destruct j as [|j]; [simpl in Hj; by simplify_eq|]). lia.
Qed.

Lemma twelve_node_mesh_valid corners :
  valid_nodes (twelve_node_mesh corners) (twelve_node_element corners).
Proof. split; [done|]. refine (bool_decide_unpack _ _). by vm_compute. Qed.

Lemma twelve_node_mesh_distinct corners :
  distinct_indices (twelve_node_mesh corners) (twelve_node_element corners).
Proof. refine (bool_decide_unpack _ _). by vm_compute. Qed.

(** At the corner order 5, 2, 11, 8 the twelve-node mesh gets the tags
    of the example. *)
Lemma C4_witness :
  ∃ ns', TagNodeRegions_element (twelve_node_element [5; 2; 11; 8]%nat)
           (twelve_node_mesh [5; 2; 11; 8]%nat)
         = Ok (with_nodes (twelve_node_mesh [5; 2; 11; 8]%nat) ns')
    ∧ ∀ (j : nat) t, twelve_node_tags !! j = Some t →
        ns' !! node_ptr (twelve_node_element [5; 2; 11; 8]%nat) (Z.of_nat j)
        = Node.SetRegion t
          <$> Mesh.mNodes (twelve_node_mesh [5; 2; 11; 8]%nat)
              !! node_ptr (twelve_node_element [5; 2; 11; 8]%nat) (Z.of_nat j).
Proof.
  apply (C4_twelve_nodes_corners_5_2_11_8 (twelve_node_mesh [5; 2; 11; 8]%nat)
           (twelve_node_element [5; 2; 11; 8]%nat)).
  - apply twelve_node_mesh_valid.
  - apply twelve_node_mesh_distinct.
  - reflexivity.
  - vm_compute. discriminate.
  - reflexivity.
Defined.

(** C4 as stated fails: with the corners apical-left, apical-right,
    basal-right and basal-left at the local indices 2, 5, 8 and 11, the
    second and the fourth range are empty and every node is tagged
    lateral. *)
Lemma C4_counterexample :
  ∃ m', TagNodeRegions (twelve_node_mesh [2; 5; 8; 11]%nat) = Ok m'
    ∧ regions m' = replicate 12 msLat
    ∧ regions m' ≠ twelve_node_tags.
Proof. eexists. split; [by vm_compute|]. split; [done|]. vm_compute. discriminate. Qed.

(** ** The spring forces of an element *)

Lemma for_loop_ext {S} (body body' : Z → S → Result S) lo hi s :
  (∀ i s, lo ≤ i < hi → body i s = body' i s) →
  for_loop lo hi body s = for_loop lo hi body' s.
Proof.
  unfold for_loop. intros Hext.
  assert (∀ n l s, lo ≤ l → l + Z.of_nat n ≤ Z.max lo hi →
            for_steps n l body s = for_steps n l body' s) as Hgen.
  { induction n as [|n IH]; intros l s0 Hl Hn; simpl; [done|].
    rewrite Hext by lia. destruct (body' l s0); simpl; [|done..].
    apply IH; lia. }
  apply Hgen; lia.
Qed.

Lemma vec_set_Z {A} (v : list A) (i : Z) x :
  0 ≤ i < vec_size v → vec_set v i x = Ok (<[Z.to_nat i := x]> v).
Proof.
  intros Hi. unfold vec_size in Hi.
  rewrite <- (Z2Nat.id i) at 1 by lia. apply vec_set_Ok. lia.
Qed.

Lemma vec_at_Z {A} (v : list A) (i : Z) a :
  0 ≤ i → v !! Z.to_nat i = Some a → vec_at v i = Ok a.
Proof. intros. by apply vec_at_Ok. Qed.

Lemma GetNodeLocation_Ok m e (j : Z) :
  valid_nodes m e → 0 ≤ j < vec_size (Element.mNodes e) →
  Mesh.GetNodeLocation m e j = Ok (location m e j).
Proof.
  intros Hv Hj. unfold Mesh.GetNodeLocation, location.
  destruct (GetNode_Ok e j Hj) as [-> _]. simpl.
  pose proof (node_ptr_valid m e j Hv Hj) as Hlt.
  destruct (lookup_lt_is_Some_2 _ _ Hlt) as [n Hn].
  unfold Mesh.node. by rewrite Hn.
Qed.

Lemma GetNodeLocation_not_Exception m e j msg :
  Mesh.GetNodeLocation m e j ≠ Exception msg.
Proof.
  unfold Mesh.GetNodeLocation. intros H.
  apply bind_Exception in H as [H|(p & _ & H)]; [by apply GetNode_not_Exception in H|].
  apply bind_Exception in H as [H|(n & _ & H)]; [|done].
  by apply of_option_not_Exception in H.
Qed.

Lemma location_ext m m' e j :
  Node.mLocation <$> Mesh.mNodes m' = Node.mLocation <$> Mesh.mNodes m →
  location m' e j = location m e j.
Proof. intros Hn. unfold location. by rewrite <- !list_lookup_fmap, Hn. Qed.

Section SpringForces.
Context (GetVectorFromAtoB : c_vector → c_vector → c_vector).
Context (norm_2 : c_vector → float).
Context (GetAverageNodeSpacingOfElement : Mesh.t → Z → bool → float).
Context (DIM : nat).

(** The displacement from node [j] to its cyclic successor. *)
Definition displacement (m : Mesh.t) (e : Element.t) (j : Z) : c_vector :=
  GetVectorFromAtoB (location m e j)
    (location m e ((j + 1) `mod` vec_size (Element.mNodes e))).

(** The segment force of the pair [(j, j+1 mod n)]:
    [spring_constant * (d - rest_length) / d] times the displacement. *)
Definition segment_force (m : Mesh.t) (e : Element.t) (k r : float) (j : Z) : c_vector :=
  let d := norm_2 (displacement m e j) in
  scale_assign (displacement m e j) (k * (d - r) / d)%float.

(** Segment force [j] minus segment force [j-1 mod n]. *)
Definition node_force (m : Mesh.t) (e : Element.t) (k r : float) (j : Z) : c_vector :=
  vminus (segment_force m e k r j)
    (segment_force m e k r ((j - 1) `mod` vec_size (Element.mNodes e))).

Lemma segment_loop_Ok m e k r :
  valid_nodes m e →
  segment_loop GetVectorFromAtoB norm_2 DIM m e (vec_size (Element.mNodes e)) k r
  = Ok (segment_force m e k r <$> seqZ 0 (vec_size (Element.mNodes e))).
Proof.
  intros Hv. unfold segment_loop. set (n := vec_size (Element.mNodes e)).
  pose proof (vec_size_nonneg (Element.mNodes e)) as Hn. fold n in Hn.
  assert (n ≤ UINT_MAX) as Hmax by apply Hv.
  match goal with |- for_loop _ _ ?b ?s = _ =>
    destruct (for_loop_invariant
      (λ i efn, length efn = Z.to_nat n ∧
         ∀ j : nat, Z.of_nat j < i → efn !! j = Some (segment_force m e k r (Z.of_nat j)))
      b 0 n s) as (efn & -> & Hlen & Hefn)
  end.
  - done.
  - split; [by rewrite length_replicate|]. intros j Hj. lia.
  - intros i efn Hi [Hlen Hefn].
    rewrite to_unsigned_small by lia.
    rewrite !GetNodeLocation_Ok by (done || lia || (apply Z.mod_pos_bound; lia)).
    simpl. rewrite vec_set_Z by (unfold vec_size; lia). simpl.
    rewrite (vec_at_Z _ _ (GetVectorFromAtoB (location m e i)
               (location m e ((i + 1) `mod` n))));
      [|lia|apply list_lookup_insert_eq; lia]. simpl.
    rewrite vec_set_Z by (unfold vec_size; rewrite length_insert; lia). simpl.
    eexists. split; [done|]. rewrite list_insert_insert_eq.
    split; [by rewrite length_insert|]. intros j Hj.
    destruct (decide (j = Z.to_nat i)) as [->|Hne].
    + rewrite list_lookup_insert_eq by lia. by rewrite Z2Nat.id by lia.
    + rewrite list_lookup_insert_ne by done. apply Hefn. lia.
  - f_equal. apply list_eq. intros j. rewrite list_lookup_fmap.
    destruct (decide (Z.of_nat j < n)) as [Hj|Hj].
    + rewrite lookup_seqZ_lt by done. simpl. by apply Hefn.
    + rewrite lookup_seqZ_ge by lia. simpl. apply lookup_ge_None. lia.
Qed.

Lemma aggregate_loop_Ok m e k r :
  valid_nodes m e → vec_size (Element.mNodes e) ≤ 2147483648 →
  aggregate_loop e (vec_size (Element.mNodes e))
    (segment_force m e k r <$> seqZ 0 (vec_size (Element.mNodes e))) m
  = Ok (with_nodes m
          (apply_updates e (λ j, Node.AddAppliedForceContribution (node_force m e k r j))
             (seqZ 0 (vec_size (Element.mNodes e))) (Mesh.mNodes m))).
Proof.
  intros Hv Hmax. unfold aggregate_loop. set (n := vec_size (Element.mNodes e)).
  pose proof (node_loop_Ok m e
    (λ j, Node.AddAppliedForceContribution (node_force m e k r j)) 0 n Hv) as Hloop.
  rewrite Z.sub_0_r in Hloop. rewrite <- Hloop by (done || lia). clear Hloop.
  apply for_loop_ext. intros i s Hi.
  rewrite to_unsigned_small by (unfold UINT_MAX; lia).
  replace (i + n - 1) with (i - 1 + 1 * n) by lia. rewrite Z_mod_plus_full.
  assert (∀ j, 0 ≤ j < n →
            vec_at (segment_force m e k r <$> seqZ 0 n) j = Ok (segment_force m e k r j))
    as Hat.
  { intros j Hj. apply vec_at_Ok. split; [lia|].
    rewrite list_lookup_fmap, lookup_seqZ_lt by lia. simpl. do 2 f_equal. lia. }
  rewrite !Hat by (done || (apply Z.mod_pos_bound; lia)). done.
Qed.

(** The spring constant and the rest length of an element as the
    specification words them. *)
Definition is_membrane (m : Mesh.t) (e : Element.t) : bool :=
  Element.GetIndex e =? Mesh.GetMembraneIndex m.

Definition base_spring_constant (f : Force) (pop : ImmersedBoundaryCellPopulation)
    (m : Mesh.t) (e : Element.t) : float :=
  let spacing_ratio := GetAverageNodeSpacingOfElement m (Element.GetIndex e) false in
  (mSpringConstant f * (GetIntrinsicSpacing pop * GetIntrinsicSpacing pop)
   / (spacing_ratio * spacing_ratio))%float.

Definition base_rest_length (f : Force) (m : Mesh.t) (e : Element.t) : float :=
  let spacing_ratio := GetAverageNodeSpacingOfElement m (Element.GetIndex e) false in
  (mRestLengthMultiplier f * spacing_ratio)%float.

Definition claimed_spring_constant (f : Force) (pop : ImmersedBoundaryCellPopulation)
    (m : Mesh.t) (e : Element.t) : float :=
  if is_membrane m e
  then (base_spring_constant f pop m e * mBasementSpringConstantModifier f)%float
  else base_spring_constant f pop m e.

Definition claimed_rest_length (f : Force) (m : Mesh.t) (e : Element.t) : float :=
  if is_membrane m e
  then (base_rest_length f m e * mBasementRestLengthModifier f)%float
  else base_rest_length f m e.

Local Abbreviation element_contribution' :=
  (element_contribution GetVectorFromAtoB norm_2 GetAverageNodeSpacingOfElement DIM).
Local Abbreviation segment_loop' := (segment_loop GetVectorFromAtoB norm_2 DIM).

Lemma element_contribution_loops f pop e m :
  element_contribution' f pop e m
  = (efn ← segment_loop' m e (Element.GetNumNodes e)
             (claimed_spring_constant f pop m e) (claimed_rest_length f m e);
     aggregate_loop e (Element.GetNumNodes e) efn m).
Proof.
  unfold element_contribution, claimed_spring_constant, claimed_rest_length,
    base_spring_constant, base_rest_length, is_membrane.
  by destruct (Element.GetIndex e =? Mesh.GetMembraneIndex m).
Qed.

(** The node store after the spring forces of an element have been
    added. *)
Definition with_spring_forces (f : Force) (pop : ImmersedBoundaryCellPopulation)
    (e : Element.t) (m : Mesh.t) : list Node.t :=
  apply_updates e
    (λ j, Node.AddAppliedForceContribution
            (node_force m e (claimed_spring_constant f pop m e)
               (claimed_rest_length f m e) j))
    (seqZ 0 (vec_size (Element.mNodes e))) (Mesh.mNodes m).

Lemma element_contribution_Ok f pop e m :
  valid_nodes m e → vec_size (Element.mNodes e) ≤ 2147483648 →
  element_contribution' f pop e m = Ok (with_nodes m (with_spring_forces f pop e m)).
Proof.
  intros Hv Hmax. rewrite element_contribution_loops, (GetNumNodes_valid m e Hv).
  rewrite segment_loop_Ok by done. simpl. by apply aggregate_loop_Ok.
Qed.

(** The flag and the offset that the corner setup records are not read
    by the spring forces. *)
Lemma element_contribution_ignores_corner_setup f pop e m flag reference :
  element_contribution'
    (mkForce (mpMesh f) (mSpringConstant f) (mRestLengthMultiplier f)
       (mBasementSpringConstantModifier f) (mBasementRestLengthModifier f)
       flag reference) pop e m
  = element_contribution' f pop e m.
Proof. done. Qed.

(** The spring forces of one element: the segment forces the first loop
    stores, and what the second loop adds to each node of the element and
    to no other node. *)
Lemma element_contribution_spec f pop e m :
  valid_nodes m e → NoDup (Element.mNodes e) →
  vec_size (Element.mNodes e) ≤ 2147483648 →
  let n := vec_size (Element.mNodes e) in
  let k := claimed_spring_constant f pop m e in
  let r := claimed_rest_length f m e in
  segment_loop' m e (Element.GetNumNodes e) k r = Ok (segment_force m e k r <$> seqZ 0 n)
  ∧ element_contribution' f pop e m = Ok (with_nodes m (with_spring_forces f pop e m))
  ∧ (∀ j, 0 ≤ j < n →
       with_spring_forces f pop e m !! node_ptr e j
       = Node.AddAppliedForceContribution
           (vminus (segment_force m e k r j) (segment_force m e k r ((j - 1) `mod` n)))
         <$> Mesh.mNodes m !! node_ptr e j)
  ∧ (∀ p, p ∉ Element.mNodes e → with_spring_forces f pop e m !! p = Mesh.mNodes m !! p).
Proof.
  intros Hv Hnd Hmax n k r. split.
  { rewrite (GetNumNodes_valid m e Hv). by apply segment_loop_Ok. }
  split; [by apply element_contribution_Ok|]. split.
  - intros j Hj. unfold with_spring_forces.
    rewrite lookup_apply_updates_NoDup; [done| |apply elem_of_seqZ; lia].
    apply NoDup_node_ptr_range; [done|lia|lia].
  - intros p Hp. apply lookup_apply_updates_other. intros Hin. apply Hp.
    apply (node_ptr_fmap_subseteq e 0 (vec_size (Element.mNodes e))); [lia|lia|done].
Qed.

(** The displacements, and with them the segment forces, depend on the
    mesh through the positions of its nodes only. *)
Lemma segment_force_ext m m' e k r j :
  Node.mLocation <$> Mesh.mNodes m' = Node.mLocation <$> Mesh.mNodes m →
  segment_force m' e k r j = segment_force m e k r j.
Proof.
  intros Hn. unfold segment_force, displacement.
  by rewrite !(location_ext m m' e _ Hn).
Qed.

(** The spring constant and the rest length that an element is given,
    written out. *)
Lemma element_contribution_parameters f pop e m :
  let spacing_ratio := GetAverageNodeSpacingOfElement m (Element.GetIndex e) false in
  let intrinsic_spacing := GetIntrinsicSpacing pop in
  let k0 := (mSpringConstant f * (intrinsic_spacing * intrinsic_spacing)
             / (spacing_ratio * spacing_ratio))%float in
  let r0 := (mRestLengthMultiplier f * spacing_ratio)%float in
  let membrane := bool_decide (Element.GetIndex e = Mesh.GetMembraneIndex m) in
  let k := if membrane then (k0 * mBasementSpringConstantModifier f)%float else k0 in
  let r := if membrane then (r0 * mBasementRestLengthModifier f)%float else r0 in
  element_contribution' f pop e m
  = (efn ← segment_loop' m e (Element.GetNumNodes e) k r;
     aggregate_loop e (Element.GetNumNodes e) efn m).
Proof.
  intros spacing_ratio intrinsic_spacing k0 r0 membrane k r.
  rewrite element_contribution_loops.
  unfold claimed_spring_constant, claimed_rest_length, is_membrane,
    base_spring_constant, base_rest_length.
  subst k r membrane.
  destruct (Z.eqb_spec (Element.GetIndex e) (Mesh.GetMembraneIndex m)) as [Heq|Hne].
  - by rewrite bool_decide_eq_true_2.
  - by rewrite bool_decide_eq_false_2.
Qed.

(** The segment force of a pair at rest length, finite and not zero,
    under a finite spring constant: every component is a zero. *)
Lemma segment_force_at_rest m e k r j :
  is_finite k = true → is_finite r = true → is_zero r = false →
  norm_2 (displacement m e j) = r →
  Forall (λ x, is_finite x = true) (displacement m e j) →
  Forall (λ x, is_zero x = true) (segment_force m e k r j).
Proof.
  intros Hk Hr Hnz Hd Hv. unfold segment_force. rewrite Hd.
  eapply Forall_scale_assign; [|exact Hv]. intros x Hx. simpl in *.
  apply mul_finite_zero; [done|]. apply div_zero_finite; [|done..].
  apply mul_finite_zero; [done|]. by apply is_zero_sub_diag.
Qed.

(** C8, amended.  For an element in which every cyclic segment has a
    finite displacement whose length equals the rest length used for the
    element, that rest length being finite and not zero and the spring
    constant being finite, the aggregate force added to every node of the
    element is zero in every component. *)
Theorem C8_zero_force_at_rest_length f pop e m :
  valid_nodes m e → NoDup (Element.mNodes e) →
  vec_size (Element.mNodes e) ≤ 2147483648 →
  let n := vec_size (Element.mNodes e) in
  let k := claimed_spring_constant f pop m e in
  let r := claimed_rest_length f m e in
  is_finite k = true → is_finite r = true → is_zero r = false →
  (∀ j, 0 ≤ j < n →
     norm_2 (displacement m e j) = r
     ∧ Forall (λ x, is_finite x = true) (displacement m e j)) →
  ∃ ns',
    element_contribution' f pop e m = Ok (with_nodes m ns')
    ∧ ∀ j, 0 ≤ j < n →
        ∃ aggregate_force,
          ns' !! node_ptr e j
          = Node.AddAppliedForceContribution aggregate_force
            <$> Mesh.mNodes m !! node_ptr e j
          ∧ Forall (λ x, is_zero x = true) aggregate_force.
Proof.
  intros Hv Hnd Hmax n k r Hk Hr Hnz Hrest.
  exists (with_spring_forces f pop e m).
  split; [by apply element_contribution_Ok|].
  intros j Hj. exists (node_force m e k r j). split.
  - unfold with_spring_forces.
    rewrite lookup_apply_updates_NoDup; [done| |apply elem_of_seqZ; lia].
    apply NoDup_node_ptr_range; [done|lia|lia].
  - unfold node_force.
    assert (0 ≤ (j - 1) `mod` n < n) as Hprev by (apply Z.mod_pos_bound; lia).
    destruct (Hrest j Hj) as [Hd Hfin].
    destruct (Hrest _ Hprev) as [Hd' Hfin'].
    eapply Forall_vminus;
      [|by apply segment_force_at_rest..].
    intros x y Hx Hy. simpl in *. by apply sub_zero_zero.
Qed.


End SpringForces.

(** ** The first call: validation *)

Lemma for_steps_some_Exception {S} (body : Z → S → Result S) n lo s msg :
  (∀ i, lo ≤ i < lo + Z.of_nat n → body i s = Ok s ∨ body i s = Exception msg) →
  (∃ i, lo ≤ i < lo + Z.of_nat n ∧ body i s = Exception msg) →
  for_steps n lo body s = Exception msg.
Proof.
  revert lo. induction n as [|n IH]; intros lo Hall (i & Hi & Hthrow); [lia|].
  simpl. destruct (Hall lo) as [Hok|Hex]; [lia| |by rewrite Hex].
  rewrite Hok. simpl. apply IH.
  - intros j Hj. apply Hall. lia.
  - exists i. split; [|done]. destruct (decide (i = lo)) as [->|]; [|lia].
    rewrite Hok in Hthrow. discriminate.
Qed.

Lemma GetElement_Ok m (i : Z) :
  0 ≤ i < vec_size (Mesh.mElements m) →
  ∃ e, Mesh.GetElement m i = Ok e ∧ Mesh.mElements m !! Z.to_nat i = Some e.
Proof.
  intros Hi. unfold Mesh.GetElement, vec_size in *.
  destruct (Z.ltb_spec i (Z.of_nat (length (Mesh.mElements m)))); [|lia].
  destruct (lookup_lt_is_Some_2 (Mesh.mElements m) (Z.to_nat i)) as [e He]; [lia|].
  exists e. split; [|done]. apply vec_at_Ok. split; [lia|done].
Qed.

Lemma GetElement_not_Exception m i msg : Mesh.GetElement m i ≠ Exception msg.
Proof.
  unfold Mesh.GetElement. destruct (_ <? _); [apply vec_at_not_Exception|done].
Qed.

Lemma GetNumElements_small m :
  vec_size (Mesh.mElements m) ≤ UINT_MAX →
  Mesh.GetNumElements m = vec_size (Mesh.mElements m).
Proof. intros. apply to_unsigned_small. split; [apply vec_size_nonneg|done]. Qed.

(** A check of every element but the first against a reference value. *)
Lemma verify_loop_Exception m (test : Element.t → bool) msg :
  vec_size (Mesh.mElements m) ≤ UINT_MAX →
  (∃ (i : nat) e, (0 < i)%nat ∧ Mesh.mElements m !! i = Some e ∧ test e = true) →
  for_loop 1 (Mesh.GetNumElements m)
    (λ elem_idx (_ : ()),
       e ← Mesh.GetElement m elem_idx;
       if test e then Exception msg else Ok ())
    ()
  = Exception msg.
Proof.
  intros Hsz (i & e & Hpos & He & Ht). rewrite GetNumElements_small by done.
  pose proof (lookup_lt_Some _ _ _ He) as Hlt.
  apply for_steps_some_Exception.
  - intros j Hj. destruct (GetElement_Ok m j) as (ej & -> & _); [unfold vec_size in *; lia|].
    simpl. destruct (test ej); [by right|by left].
  - exists (Z.of_nat i). split; [unfold vec_size; lia|].
    destruct (GetElement_Ok m (Z.of_nat i)) as (ei & -> & Hei); [unfold vec_size; lia|].
    rewrite Nat2Z.id in Hei. simplify_eq. simpl. by rewrite Ht.
Qed.

Lemma verify_loop_Ok m (test : Element.t → bool) msg :
  Forall (λ e, test e = false) (Mesh.mElements m) →
  for_loop 1 (Mesh.GetNumElements m)
    (λ elem_idx (_ : ()),
       e ← Mesh.GetElement m elem_idx;
       if test e then Exception msg else Ok ())
    ()
  = Ok ().
Proof.
  intros Hall. apply for_steps_all_Ok. intros j Hj.
  pose proof (to_unsigned_le (vec_size (Mesh.mElements m)) (vec_size_nonneg _)) as Hle.
  unfold Mesh.GetNumElements in Hj.
  destruct (GetElement_Ok m j) as (ej & -> & Hej); [lia|]. simpl.
  by rewrite (Forall_lookup_1 _ _ _ _ Hall Hej).
Qed.

Lemma verify_corners_mismatch m e0 :
  vec_size (Mesh.mElements m) ≤ UINT_MAX →
  Mesh.mElements m !! 0%nat = Some e0 →
  vec_size (Element.rGetCornerNodes e0) ≤ UINT_MAX →
  (∃ e, e ∈ Mesh.mElements m
        ∧ vec_size (Element.rGetCornerNodes e) ≠ vec_size (Element.rGetCornerNodes e0)) →
  verify_corners m = Exception corners_message.
Proof.
  intros Hsz H0 Hc0 (e & Hin & Hne). unfold verify_corners.
  destruct (GetElement_Ok m 0) as (e0' & -> & He0').
  { apply lookup_lt_Some in H0. unfold vec_size. lia. }
  change (Z.to_nat 0) with 0%nat in He0'. simplify_eq. simpl.
  rewrite to_unsigned_small by (split; [apply vec_size_nonneg|done]).
  rewrite (verify_loop_Exception m
             (λ e, negb (vec_size (Element.rGetCornerNodes e0)
                         =? vec_size (Element.rGetCornerNodes e)))); [done|done|].
  apply list_elem_of_lookup_1 in Hin as [i Hi]. exists i, e.
  split; [|split; [done|]].
  - destruct i; [|lia]. by simplify_eq.
  - apply negb_true_iff, Z.eqb_neq. congruence.
Qed.

Lemma verify_corners_uniform m e0 :
  Mesh.mElements m !! 0%nat = Some e0 →
  vec_size (Element.rGetCornerNodes e0) ≤ UINT_MAX →
  Forall (λ e, vec_size (Element.rGetCornerNodes e)
               = vec_size (Element.rGetCornerNodes e0)) (Mesh.mElements m) →
  verify_corners m = Ok (vec_size (Element.rGetCornerNodes e0)).
Proof.
  intros H0 Hc0 Hall. unfold verify_corners.
  destruct (GetElement_Ok m 0) as (e0' & -> & He0').
  { apply lookup_lt_Some in H0. unfold vec_size. lia. }
  change (Z.to_nat 0) with 0%nat in He0'. simplify_eq. simpl.
  rewrite to_unsigned_small by (split; [apply vec_size_nonneg|done]).
  rewrite (verify_loop_Ok m
             (λ e, negb (vec_size (Element.rGetCornerNodes e0)
                         =? vec_size (Element.rGetCornerNodes e)))); [done|].
  eapply Forall_impl; [exact Hall|]. intros e He. simpl.
  apply negb_false_iff, Z.eqb_eq. congruence.
Qed.

Lemma verify_attributes_mismatch m e0 :
  vec_size (Mesh.mElements m) ≤ UINT_MAX →
  Mesh.mElements m !! 0%nat = Some e0 →
  (∃ e, e ∈ Mesh.mElements m
        ∧ Element.GetNumElementAttributes e ≠ Element.GetNumElementAttributes e0) →
  verify_attributes (Element.GetNumElementAttributes e0) m = Exception attributes_message.
Proof.
  intros Hsz H0 (e & Hin & Hne). unfold verify_attributes.
  apply (verify_loop_Exception m
           (λ e, negb (Element.GetNumElementAttributes e0
                       =? Element.GetNumElementAttributes e))); [done|].
  apply list_elem_of_lookup_1 in Hin as [i Hi]. exists i, e.
  split; [|split; [done|]].
  - destruct i; [|lia]. by simplify_eq.
  - apply negb_true_iff, Z.eqb_neq. congruence.
Qed.

(** ** What a call leaves unchanged *)

Lemma agree_refl {B} (π : Node.t → B) m : agree π m m.
Proof. done. Qed.

Lemma agree_trans {B} (π : Node.t → B) m1 m2 m3 :
  agree π m1 m2 → agree π m2 m3 → agree π m1 m3.
Proof. intros (? & ? & ?) (? & ? & ?). repeat split; congruence. Qed.

Lemma agree_weaken {B C} (π : Node.t → B) (ρ : Node.t → C) (g : B → C) m m' :
  (∀ n, ρ n = g (π n)) → agree π m m' → agree ρ m m'.
Proof.
  intros Hg (He & Hi & Hn). split; [done|]. split; [done|].
  rewrite (list_fmap_ext ρ (g ∘ π) (Mesh.mNodes m')) by (intros; apply Hg).
  rewrite (list_fmap_ext ρ (g ∘ π) (Mesh.mNodes m)) by (intros; apply Hg).
  by rewrite !list_fmap_compose, Hn.
Qed.

Lemma agree_length {B} (π : Node.t → B) m m' :
  agree π m m' → length (Mesh.mNodes m') = length (Mesh.mNodes m).
Proof.
  intros (_ & _ & Hn). apply (f_equal length) in Hn. by rewrite !length_fmap in Hn.
Qed.

Lemma valid_nodes_agree {B} (π : Node.t → B) m m' e :
  agree π m m' → valid_nodes m e → valid_nodes m' e.
Proof.
  intros Ha [? ?]. split; [done|]. by rewrite (agree_length π m m' Ha).
Qed.

Lemma distinct_indices_agree {B} (π : Node.t → B) (g : B → Z) m m' e :
  (∀ n, Node.mIndex n = g (π n)) →
  agree π m m' → distinct_indices m e → distinct_indices m' e.
Proof.
  intros Hg Ha. apply (agree_weaken π Node.mIndex g) in Ha as (_ & _ & Hn); [|done].
  unfold distinct_indices. intros Hd.
  rewrite (list_fmap_ext (global_index m') (global_index m) (Element.mNodes e)); [done|].
  intros _ p _. unfold global_index. by rewrite <- !list_lookup_fmap, Hn.
Qed.

Lemma update_node_agree {B} (π : Node.t → B) p g m m' :
  (∀ n, π (g n) = π n) → Mesh.update_node p g m = Ok m' → agree π m m'.
Proof.
  intros Hg ->%update_node_inv. repeat split; simpl.
  apply list_eq. intros i. rewrite !list_lookup_fmap.
  destruct (decide (i = p)) as [->|Hne].
  - rewrite list_lookup_alter_eq. destruct (Mesh.mNodes m !! p); simpl; [|done].
    by rewrite Hg.
  - by rewrite list_lookup_alter_ne.
Qed.

Lemma node_loop_agree {B} (π : Node.t → B) e g lo hi m m' :
  (∀ i n, π (g i n) = π n) →
  for_loop lo hi
    (λ node_idx m, p ← Element.GetNode e node_idx; Mesh.update_node p (g node_idx) m) m
  = Ok m' →
  agree π m m'.
Proof.
  intros Hg. apply (for_loop_preserves (agree π m)); [|apply agree_refl].
  intros i m1 m2 Hb Hm1. apply bind_Ok in Hb as (p & _ & Hb).
  eapply agree_trans; [done|]. eapply update_node_agree; [|exact Hb]. apply Hg.
Qed.

Lemma iterate_preserves (P : Mesh.t → Prop) positions body m m' :
  (∀ pos e m m', body pos e m = Ok m' → P m → P m') →
  P m → Mesh.iterate positions body m = Ok m' → P m'.
Proof.
  intros Hb. revert m. induction positions as [|pos rest IH]; intros m HP Hr;
    simpl in Hr; [by simplify_eq|].
  apply bind_Ok in Hr as (e & _ & Hr). apply bind_Ok in Hr as (m1 & Hm1 & Hr).
  eauto.
Qed.

Lemma iterate_length_elements positions body m m' :
  (∀ pos e m m', body pos e m = Ok m' →
     length (Mesh.mElements m') = length (Mesh.mElements m)) →
  Mesh.iterate positions body m = Ok m' →
  length (Mesh.mElements m') = length (Mesh.mElements m).
Proof.
  intros Hb. apply (iterate_preserves
    (λ m1, length (Mesh.mElements m1) = length (Mesh.mElements m))); [|done].
  intros pos e m1 m2 H12 H1. rewrite <- H1. by eapply Hb.
Qed.

(** The region tagging changes region tags only. *)
Lemma set_regions_agree {B} (π : Node.t → B) e lo hi r m m' :
  (∀ t n, π (Node.SetRegion t n) = π n) →
  set_regions e lo hi r m = Ok m' → agree π m m'.
Proof. intros Hπ. apply node_loop_agree. intros _ n. apply Hπ. Qed.

Lemma TagNodeRegions_element_agree {B} (π : Node.t → B) e m m' :
  (∀ t n, π (Node.SetRegion t n) = π n) →
  TagNodeRegions_element e m = Ok m' → agree π m m'.
Proof.
  intros Hπ Hb. unfold TagNodeRegions_element in Hb.
  destruct (_ =? _); [by eapply set_regions_agree|].
  do 4 (apply bind_Ok in Hb as (? & _ & Hb)).
  apply bind_Ok in Hb as (ma & Ha & Hb). apply bind_Ok in Hb as (mb & Hb' & Hb).
  apply bind_Ok in Hb as (mc & Hc & Hb). apply bind_Ok in Hb as (md & Hd & Hb).
  eapply agree_trans; [by eapply set_regions_agree|].
  eapply agree_trans; [by eapply set_regions_agree|].
  eapply agree_trans; [by eapply set_regions_agree|].
  eapply agree_trans; [by eapply set_regions_agree|].
  by eapply set_regions_agree.
Qed.

Lemma TagNodeRegions_agree {B} (π : Node.t → B) m m' :
  (∀ t n, π (Node.SetRegion t n) = π n) →
  TagNodeRegions m = Ok m' → agree π m m'.
Proof.
  intros Hπ. apply (iterate_preserves (agree π m)); [|apply agree_refl].
  intros _ e m1 m2 Hb Hm1. eapply agree_trans; [done|].
  by eapply TagNodeRegions_element_agree.
Qed.

Section Frames.
Context (GetVectorFromAtoB : c_vector → c_vector → c_vector).
Context (norm_2 : c_vector → float).
Context (GetAverageNodeSpacingOfElement : Mesh.t → Z → bool → float).
Context (DIM : nat).

(** The spring forces change force accumulators only. *)
Lemma element_contribution_agree {B} (π : Node.t → B) f pop e m m' :
  (∀ c n, π (Node.AddAppliedForceContribution c n) = π n) →
  element_contribution GetVectorFromAtoB norm_2 GetAverageNodeSpacingOfElement DIM
    f pop e m = Ok m' →
  agree π m m'.
Proof.
  intros Hπ. rewrite element_contribution_loops. intros H.
  apply bind_Ok in H as (efn & _ & H). revert H.
  apply (for_loop_preserves (agree π m)); [|apply agree_refl].
  intros i m1 m2 Hb Hm1. eapply agree_trans; [done|].
  repeat (apply bind_Ok in Hb as (? & _ & Hb)).
  eapply update_node_agree; [|exact Hb]. apply Hπ.
Qed.

Lemma force_loop_agree {B} (π : Node.t → B) f pop m m' :
  (∀ c n, π (Node.AddAppliedForceContribution c n) = π n) →
  Mesh.for_each_element
    (λ _ e m, element_contribution GetVectorFromAtoB norm_2
                GetAverageNodeSpacingOfElement DIM f pop e m) m
  = Ok m' →
  agree π m m'.
Proof.
  intros Hπ. apply (iterate_preserves (agree π m)); [|apply agree_refl].
  intros _ e m1 m2 Hb Hm1. eapply agree_trans; [done|].
  by eapply element_contribution_agree.
Qed.

End Frames.

(** ** The apical and basal baseline lengths *)

Lemma GetNode_inv e j p :
  Element.GetNode e j = Ok p → 0 ≤ j ∧ node_ptr e j = p.
Proof.
  unfold Element.GetNode, node_ptr. destruct (_ <? _); [|done].
  intros [? Hp]%vec_at_Ok. by rewrite Hp.
Qed.

Lemma update_element_inv pos g m m' :
  Mesh.update_element pos g m = Ok m' →
  m' = Mesh.mk (Mesh.mNodes m) (alter g pos (Mesh.mElements m)) (Mesh.mMembraneIndex m).
Proof. unfold Mesh.update_element. destruct (_ !! _); intros; by simplify_eq. Qed.

Section Lengths.
Context (GetVectorFromAtoB : c_vector → c_vector → c_vector).
Context (norm_2 : c_vector → float).

(** The width the setup records for an element: the absolute value of
    the first component of the displacement from node 0 to the node at
    local index floor(numNodes / 2). *)
Definition element_width (m : Mesh.t) (e : Element.t) : option float :=
  abs <$> GetVectorFromAtoB (location m e 0)
            (location m e (Element.GetNumNodes e `div` 2)) !! 0%nat.

(** The planar distance between node 0 and the node at local index
    floor(numNodes / 2), as the specification words the recorded length:
    the norm of their displacement. *)
Definition planar_distance (m : Mesh.t) (e : Element.t) : float :=
  norm_2 (GetVectorFromAtoB (location m e 0)
            (location m e (Element.GetNumNodes e `div` 2))).

(** The two attributes the setup appends to an element. *)
Definition with_lengths (w : float) (e : Element.t) : Element.t :=
  Element.AddElementAttribute w (Element.AddElementAttribute w e).

(** What the setup appends to element [e] of mesh [m] is [w], twice. *)
Definition recorded_length (m : Mesh.t) (e : Element.t) (w : float) : Prop :=
  if Element.GetIndex e =? Mesh.GetMembraneIndex m
  then w = 0%float
  else element_width m e = Some w.

(** Every element of the mesh has at most 2^31 nodes and room for two
    more attributes, and unless it is the membrane element the
    displacement from its node 0 to its node floor(numNodes / 2) has a
    first component. *)
Definition lengths_defined (m : Mesh.t) : Prop :=
  ∀ e, e ∈ Mesh.mElements m →
    vec_size (Element.mNodes e) ≤ 2147483648
    ∧ vec_size (Element.rGetElementAttributes e) + 2 ≤ UINT_MAX
    ∧ (Mesh.GetMembraneIndex m ≠ Element.GetIndex e → is_Some (element_width m e)).

Lemma recorded_length_ext m m' e w :
  Node.mLocation <$> Mesh.mNodes m' = Node.mLocation <$> Mesh.mNodes m →
  Mesh.mMembraneIndex m' = Mesh.mMembraneIndex m →
  recorded_length m' e w ↔ recorded_length m e w.
Proof.
  intros Hn Hi. unfold recorded_length, element_width, Mesh.GetMembraneIndex.
  by rewrite !(location_ext m m' e _ Hn), Hi.
Qed.

Lemma TagApicalAndBasalLengths_element_inv pos e m m' :
  TagApicalAndBasalLengths_element GetVectorFromAtoB pos e m = Ok m' →
  ∃ w, recorded_length m e w
    ∧ m' = Mesh.mk (Mesh.mNodes m) (alter (with_lengths w) pos (Mesh.mElements m))
             (Mesh.mMembraneIndex m).
Proof.
  unfold TagApicalAndBasalLengths_element, recorded_length.
  destruct (Element.GetIndex e =? Mesh.GetMembraneIndex m).
  - intros H. apply bind_Ok in H as (m1 & ->%update_element_inv & ->%update_element_inv).
    exists 0%float. split; [done|]. simpl. by rewrite list_alter_alter_eq.
  - intros H.
    apply bind_Ok in H as (p0 & [_ Hp0]%GetNode_inv & H).
    apply bind_Ok in H as (n0 & Hn0%node_Ok & H).
    apply bind_Ok in H as (ph & [_ Hph]%GetNode_inv & H).
    apply bind_Ok in H as (nh & Hnh%node_Ok & H).
    apply bind_Ok in H as (x & [_ Hx]%vec_at_Ok & H).
    apply bind_Ok in H as (m1 & ->%update_element_inv & ->%update_element_inv).
    exists (abs x). split; [|simpl; by rewrite list_alter_alter_eq].
    unfold element_width, location, half_way_of in *.
    rewrite Hp0, Hn0, Hph, Hnh. simpl. change (Z.to_nat 0) with 0%nat in Hx.
    unfold Node.rGetLocation in Hx. by rewrite Hx.
Qed.

(** Every element receives its recorded length twice, and nothing else
    changes. *)
Lemma TagApicalAndBasalLengths_inv m m' :
  TagApicalAndBasalLengths GetVectorFromAtoB m = Ok m' →
  Mesh.mNodes m' = Mesh.mNodes m
  ∧ Mesh.mMembraneIndex m' = Mesh.mMembraneIndex m
  ∧ length (Mesh.mElements m') = length (Mesh.mElements m)
  ∧ ∀ pos e, Mesh.mElements m !! pos = Some e →
      ∃ w, recorded_length m e w ∧ Mesh.mElements m' !! pos = Some (with_lengths w e).
Proof.
  unfold TagApicalAndBasalLengths, Mesh.for_each_element.
  set (body := TagApicalAndBasalLengths_element GetVectorFromAtoB).
  assert (∀ n k m1,
    k + n = length (Mesh.mElements m) →
    Mesh.mNodes m1 = Mesh.mNodes m →
    Mesh.mMembraneIndex m1 = Mesh.mMembraneIndex m →
    length (Mesh.mElements m1) = length (Mesh.mElements m) →
    (∀ pos e, pos < k → Mesh.mElements m !! pos = Some e →
       ∃ w, recorded_length m e w ∧ Mesh.mElements m1 !! pos = Some (with_lengths w e)) →
    (∀ pos, k ≤ pos → Mesh.mElements m1 !! pos = Mesh.mElements m !! pos) →
    Mesh.iterate (seq k n) body m1 = Ok m' →
    Mesh.mNodes m' = Mesh.mNodes m
    ∧ Mesh.mMembraneIndex m' = Mesh.mMembraneIndex m
    ∧ length (Mesh.mElements m') = length (Mesh.mElements m)
    ∧ ∀ pos e, Mesh.mElements m !! pos = Some e →
        ∃ w, recorded_length m e w
          ∧ Mesh.mElements m' !! pos = Some (with_lengths w e))%nat as Hgen.
  { induction n as [|n IH]; intros k m1 Hkn Hnodes Hmem Hlen Hdone Htodo Hrun.
    - simpl in Hrun. simplify_eq. repeat split; try done.
      intros pos e He. apply Hdone; [|done]. apply lookup_lt_Some in He. lia.
    - simpl in Hrun. apply bind_Ok in Hrun as (e & He%of_option_Ok & Hrun).
      apply bind_Ok in Hrun as (m2 & Hbody & Hrun).
      apply TagApicalAndBasalLengths_element_inv in Hbody as (w & Hw & ->).
      rewrite Htodo in He by lia.
      apply recorded_length_ext with (m := m) in Hw; [|by rewrite Hnodes|done].
      apply (IH (S k)) in Hrun; simpl; try done.
      + lia.
      + by rewrite length_alter.
      + intros pos e' Hpos He'. destruct (decide (pos = k)) as [->|Hne].
        * exists w. simplify_eq. split; [done|].
          by rewrite list_lookup_alter_eq, Htodo, He by lia.
        * rewrite list_lookup_alter_ne by done. apply Hdone; [lia|done].
      + intros pos Hpos. rewrite list_lookup_alter_ne by lia. apply Htodo. lia. }
  apply (Hgen _ 0%nat m); try done. intros pos e Hpos. lia.
Qed.

(** The recording of the lengths of one element completes. *)
Lemma TagApicalAndBasalLengths_element_Ok pos e m :
  is_Some (Mesh.mElements m !! pos) →
  valid_nodes m e →
  (Mesh.GetMembraneIndex m ≠ Element.GetIndex e →
   0 < vec_size (Element.mNodes e) ∧ is_Some (element_width m e)) →
  ∃ m', TagApicalAndBasalLengths_element GetVectorFromAtoB pos e m = Ok m'.
Proof.
  intros [e' He'] Hv Hw. unfold TagApicalAndBasalLengths_element.
  assert (∀ g1 g2, ∃ m',
    (m1 ← Mesh.update_element pos g1 m; Mesh.update_element pos g2 m1) = Ok m')
    as Hupd.
  { intros g1 g2. unfold Mesh.update_element. rewrite He'. simpl.
    rewrite list_lookup_alter_eq, He'. simpl. by eexists. }
  destruct (Z.eqb_spec (Element.GetIndex e) (Mesh.GetMembraneIndex m)) as [|Hne];
    [apply Hupd|].
  destruct (Hw ltac:(congruence)) as [Hpos [w Hwidth]].
  pose proof (GetNumNodes_valid m e Hv) as Hn.
  unfold half_way_of. unfold element_width in Hwidth. rewrite Hn in *.
  set (n := vec_size (Element.mNodes e)) in *.
  assert (0 ≤ n `div` 2 < n) as Hhalf.
  { split; [apply Z.div_pos; lia|apply Z.div_lt_upper_bound; lia]. }
  destruct (GetNode_Ok e 0) as [-> _]; [lia|].
  destruct (GetNode_Ok e (n `div` 2)) as [Hh _]; [done|].
  destruct (lookup_lt_is_Some_2 (Mesh.mNodes m) (node_ptr e 0)) as [n0 Hn0];
    [apply node_ptr_valid; [done|lia]|].
  destruct (lookup_lt_is_Some_2 (Mesh.mNodes m) (node_ptr e (n `div` 2))) as [nh Hnh];
    [by apply node_ptr_valid|].
  simpl. rewrite (proj2 (node_Ok m _ n0) Hn0). simpl. rewrite Hh. simpl.
  rewrite (proj2 (node_Ok m _ nh) Hnh). simpl.
  unfold location in Hwidth. rewrite Hn0, Hnh in Hwidth. simpl in Hwidth.
  unfold Node.rGetLocation.
  destruct (GetVectorFromAtoB (Node.mLocation n0) (Node.mLocation nh) !! 0%nat)
    as [x|] eqn:Hx; [|done].
  rewrite (proj2 (vec_at_Ok _ 0 x)) by done. simpl. apply Hupd.
Qed.

(** The recording of the lengths completes on a mesh whose elements have
    live node pointers and a width. *)
Lemma TagApicalAndBasalLengths_Ok m :
  (∀ e, e ∈ Mesh.mElements m →
     valid_nodes m e
     ∧ (Mesh.GetMembraneIndex m ≠ Element.GetIndex e →
        0 < vec_size (Element.mNodes e) ∧ is_Some (element_width m e))) →
  ∃ m', TagApicalAndBasalLengths GetVectorFromAtoB m = Ok m'.
Proof.
  intros Hwf. unfold TagApicalAndBasalLengths, Mesh.for_each_element.
  set (body := TagApicalAndBasalLengths_element GetVectorFromAtoB).
  assert (∀ n k m1,
    k + n = length (Mesh.mElements m) →
    Mesh.mNodes m1 = Mesh.mNodes m →
    Mesh.mMembraneIndex m1 = Mesh.mMembraneIndex m →
    (∀ pos, k ≤ pos → Mesh.mElements m1 !! pos = Mesh.mElements m !! pos) →
    ∃ m', Mesh.iterate (seq k n) body m1 = Ok m')%nat as Hgen.
  { induction n as [|n IH]; intros k m1 Hkn Hnodes Hmem Htodo; [by eexists|].
    destruct (lookup_lt_is_Some_2 (Mesh.mElements m) k) as [e He]; [lia|].
    destruct (Hwf e (list_elem_of_lookup_2 _ _ _ He)) as [Hv Hw].
    destruct (TagApicalAndBasalLengths_element_Ok k e m1) as [m2 Hrun].
    { rewrite Htodo, He by lia. by eexists. }
    { destruct Hv as [? ?]. split; [done|]. by rewrite Hnodes. }
    { unfold element_width, location, Mesh.GetMembraneIndex in *.
      by rewrite Hnodes, Hmem. }
    change (body k e m1 = Ok m2) in Hrun.
    simpl. rewrite Htodo, He by lia. simpl. rewrite Hrun. simpl.
    apply TagApicalAndBasalLengths_element_inv in Hrun as (w & _ & ->).
    apply (IH (S k)); simpl; [lia|done|done|].
    intros pos Hpos. rewrite list_lookup_alter_ne by lia. apply Htodo. lia. }
  apply (Hgen _ 0%nat m); done.
Qed.

End Lengths.

(** ** Only the validation throws *)

(** Refutes that a call which cannot throw has thrown. *)
Ltac refute_step H :=
  solve [ discriminate H
        | exfalso;
          first [ eapply of_option_not_Exception; exact H
                | eapply vec_at_not_Exception; exact H
                | eapply vec_set_not_Exception; exact H
                | eapply GetNode_not_Exception; exact H
                | eapply update_node_not_Exception; exact H
                | eapply GetNodeLocation_not_Exception; exact H
                | eapply node_loop_not_Exception; exact H ] ].

(** Splits a chain of binds that is assumed to throw into its steps and
    refutes each step. *)
Ltac refute_Exception H :=
  repeat (apply bind_Exception in H as [H|(? & _ & H)]);
  first [ refute_step H | repeat case_match; refute_step H ].

Lemma update_element_not_Exception pos g m msg :
  Mesh.update_element pos g m ≠ Exception msg.
Proof. unfold Mesh.update_element. by destruct (_ !! _). Qed.

Lemma iterate_not_Exception positions body m msg :
  (∀ pos e m, body pos e m ≠ Exception msg) →
  Mesh.iterate positions body m ≠ Exception msg.
Proof.
  intros Hb. revert m. induction positions as [|pos rest IH]; intros m; simpl; [done|].
  intros H. apply bind_Exception in H as [H|(e & _ & H)];
    [by apply of_option_not_Exception in H|].
  apply bind_Exception in H as [H|(m' & _ & H)]; [by apply Hb in H|by apply IH in H].
Qed.

Lemma GetNodeLocalIndex_not_Exception m e g msg :
  Mesh.GetNodeLocalIndex m e g ≠ Exception msg.
Proof.
  apply for_loop_not_Exception. intros i li H. unfold Mesh.node in H.
  refute_Exception H.
Qed.

Lemma corner_index_not_Exception m e r_corners c msg :
  corner_index m e r_corners c ≠ Exception msg.
Proof.
  unfold corner_index, Mesh.node. intros H.
  repeat (apply bind_Exception in H as [H|(? & _ & H)]); try refute_step H.
  by apply GetNodeLocalIndex_not_Exception in H.
Qed.

Lemma set_regions_not_Exception e lo hi r m msg : set_regions e lo hi r m ≠ Exception msg.
Proof. apply node_loop_not_Exception. Qed.

Lemma TagNodeRegions_not_Exception m msg : TagNodeRegions m ≠ Exception msg.
Proof.
  apply iterate_not_Exception. intros _ e m' H. unfold TagNodeRegions_element in H.
  destruct (_ =? _); [by apply set_regions_not_Exception in H|].
  unfold Mesh.node in H.
  repeat (apply bind_Exception in H as [H|(? & _ & H)]);
    solve [by apply corner_index_not_Exception in H
          |by apply set_regions_not_Exception in H
          |by apply GetNodeLocalIndex_not_Exception in H
          |refute_step H].
Qed.

Section NoException.
Context (GetVectorFromAtoB : c_vector → c_vector → c_vector).
Context (norm_2 : c_vector → float).
Context (GetAverageNodeSpacingOfElement : Mesh.t → Z → bool → float).
Context (DIM : nat).

Lemma TagApicalAndBasalLengths_not_Exception m msg :
  TagApicalAndBasalLengths GetVectorFromAtoB m ≠ Exception msg.
Proof.
  apply iterate_not_Exception. intros pos e m' H.
  unfold TagApicalAndBasalLengths_element, Mesh.node in H.
  destruct (_ =? _);
    repeat (apply bind_Exception in H as [H|(? & _ & H)]);
    solve [by apply update_element_not_Exception in H | refute_step H].
Qed.

Lemma element_contribution_not_Exception f pop e m msg :
  element_contribution GetVectorFromAtoB norm_2 GetAverageNodeSpacingOfElement DIM
    f pop e m ≠ Exception msg.
Proof.
  rewrite element_contribution_loops. intros H.
  apply bind_Exception in H as [H|(efn & _ & H)].
  - revert H. apply for_loop_not_Exception. intros i efn H. refute_Exception H.
  - revert H. apply for_loop_not_Exception. intros i m' H. refute_Exception H.
Qed.

Lemma force_loop_not_Exception f pop m msg :
  Mesh.for_each_element
    (λ _ e m, element_contribution GetVectorFromAtoB norm_2
                GetAverageNodeSpacingOfElement DIM f pop e m) m
  ≠ Exception msg.
Proof.
  apply iterate_not_Exception. intros _ e m'. apply element_contribution_not_Exception.
Qed.

End NoException.

(** ** The element loop on a mesh whose elements share no node *)

(** A loop body that rewrites the node store to [U e m], touching only
    the nodes of the element it stands on and nothing that [π] reads:
    every element's nodes end up as the body left them, computed on a
    mesh that differs from the initial one only in what earlier elements
    received. *)
Lemma iterate_disjoint {B} (π : Node.t → B) (U : Element.t → Mesh.t → list Node.t)
    body m :
  disjoint_elements m →
  (∀ pos e m1, Mesh.mElements m !! pos = Some e → agree π m m1 →
     body pos e m1 = Ok (with_nodes m1 (U e m1))
     ∧ π <$> U e m1 = π <$> Mesh.mNodes m1
     ∧ ∀ p, p ∉ Element.mNodes e → U e m1 !! p = Mesh.mNodes m1 !! p) →
  ∃ m', Mesh.for_each_element body m = Ok m'
    ∧ agree π m m'
    ∧ (∀ pos e, Mesh.mElements m !! pos = Some e →
         ∃ m1, agree π m m1
           ∧ ∀ p, p ∈ Element.mNodes e →
               Mesh.mNodes m1 !! p = Mesh.mNodes m !! p
               ∧ Mesh.mNodes m' !! p = U e m1 !! p)
    ∧ (∀ p, (∀ e, e ∈ Mesh.mElements m → p ∉ Element.mNodes e) →
         Mesh.mNodes m' !! p = Mesh.mNodes m !! p).
Proof.
  intros Hdisj Hbody. unfold Mesh.for_each_element.
  assert (∀ n k mk,
    (k + n = length (Mesh.mElements m))%nat →
    agree π m mk →
    (∀ pos e, (pos < k)%nat → Mesh.mElements m !! pos = Some e →
       ∃ m1, agree π m m1
         ∧ ∀ p, p ∈ Element.mNodes e →
             Mesh.mNodes m1 !! p = Mesh.mNodes m !! p
             ∧ Mesh.mNodes mk !! p = U e m1 !! p) →
    (∀ p, (∀ pos e, (pos < k)%nat → Mesh.mElements m !! pos = Some e →
             p ∉ Element.mNodes e) →
       Mesh.mNodes mk !! p = Mesh.mNodes m !! p) →
    ∃ m', Mesh.iterate (seq k n) body mk = Ok m'
      ∧ agree π m m'
      ∧ (∀ pos e, Mesh.mElements m !! pos = Some e →
           ∃ m1, agree π m m1
             ∧ ∀ p, p ∈ Element.mNodes e →
                 Mesh.mNodes m1 !! p = Mesh.mNodes m !! p
                 ∧ Mesh.mNodes m' !! p = U e m1 !! p)
      ∧ (∀ p, (∀ e, e ∈ Mesh.mElements m → p ∉ Element.mNodes e) →
           Mesh.mNodes m' !! p = Mesh.mNodes m !! p)) as Hgen.
  { induction n as [|n IH]; intros k mk Hkn Hagree Hdone Hrest.
    - exists mk. split; [done|]. split; [done|]. split.
      + intros pos e He. apply (Hdone pos e); [|done]. apply lookup_lt_Some in He. lia.
      + intros p Hp. apply Hrest. intros pos e _ He. apply Hp.
        by eapply list_elem_of_lookup_2.
    - destruct (lookup_lt_is_Some_2 (Mesh.mElements m) k) as [e He]; [lia|].
      destruct (Hbody k e mk He Hagree) as (Hrun & Hπ & Hother).
      simpl. destruct Hagree as (Helems & Hmem & Hnodes).
      rewrite Helems, He. simpl. rewrite Hrun. simpl.
      apply (IH (S k)); [lia| | |].
      + split; [done|]. split; [done|]. simpl. by rewrite Hπ.
      + intros pos e' Hpos He'. destruct (decide (pos = k)) as [->|Hne].
        * simplify_eq. exists mk. split; [done|]. intros p Hp. split; [|done].
          apply Hrest. intros pos' e' Hpos' He'.
          eapply (Hdisj k pos'); [lia|done..].
        * destruct (Hdone pos e' ltac:(lia) He') as (m1 & Hm1 & Hp1).
          exists m1. split; [done|]. intros p Hp.
          destruct (Hp1 p Hp) as [H1 H2]. split; [done|].
          simpl. rewrite Hother; [done|]. by eapply (Hdisj pos k).
      + intros p Hp. simpl. rewrite Hother.
        * apply Hrest. intros pos e' Hpos He'. apply (Hp pos e'); [lia|done].
        * apply (Hp k e); [lia|done]. }
  apply (Hgen _ 0%nat m); [done|apply agree_refl| |].
  - intros pos e Hpos. lia.
  - done.
Qed.

(** The meshes that the element loop goes through: [trace !! pos] is the
    mesh on which the body runs for the element at [pos], and
    [trace !! S pos] the mesh it leaves.  The body is one that completes
    on every mesh that agrees with the initial one on what [π] reads, and
    that leaves such a mesh. *)
Lemma iterate_trace {B} (π : Node.t → B) body m :
  (∀ pos e m1, Mesh.mElements m !! pos = Some e → agree π m m1 →
     ∃ m2, body pos e m1 = Ok m2 ∧ agree π m1 m2) →
  ∃ (trace : list Mesh.t) m',
    Mesh.for_each_element body m = Ok m'
    ∧ trace !! 0%nat = Some m
    ∧ trace !! length (Mesh.mElements m) = Some m'
    ∧ agree π m m'
    ∧ ∀ pos e, Mesh.mElements m !! pos = Some e →
        ∃ m1 m2, trace !! pos = Some m1 ∧ trace !! S pos = Some m2
          ∧ agree π m m1 ∧ body pos e m1 = Ok m2.
Proof.
  intros Hbody. unfold Mesh.for_each_element.
  assert (∀ n k mk,
    (k + n = length (Mesh.mElements m))%nat → agree π m mk →
    ∃ (trace : list Mesh.t) m',
      Mesh.iterate (seq k n) body mk = Ok m'
      ∧ trace !! 0%nat = Some mk
      ∧ trace !! n = Some m'
      ∧ agree π m m'
      ∧ ∀ i e, (i < n)%nat → Mesh.mElements m !! (k + i)%nat = Some e →
          ∃ m1 m2, trace !! i = Some m1 ∧ trace !! S i = Some m2
            ∧ agree π m m1 ∧ body (k + i)%nat e m1 = Ok m2) as Hgen.
  { induction n as [|n IH]; intros k mk Hkn Hagree.
    - exists [mk], mk. repeat split; try done; try apply Hagree. intros; lia.
    - destruct (lookup_lt_is_Some_2 (Mesh.mElements m) k) as [e He]; [lia|].
      destruct (Hbody k e mk He Hagree) as (m2 & Hrun & H12).
      destruct (IH (S k) m2) as (trace & m' & Hiter & H0 & Hn & Hm' & Hsteps);
        [lia|by eapply agree_trans|].
      exists (mk :: trace), m'. split.
      { simpl. destruct Hagree as (-> & _ & _). rewrite He. simpl.
        by rewrite Hrun. }
      split; [done|]. split; [done|]. split; [done|].
      intros [|i] e' Hi He'.
      + rewrite Nat.add_0_r in He'. simplify_eq. rewrite Nat.add_0_r.
        by exists mk, m2.
      + replace (k + S i)%nat with (S k + i)%nat in * by lia.
        destruct (Hsteps i e') as (m1 & m3 & ? & ? & ? & ?); [lia|done|].
        by exists m1, m3. }
  destruct (Hgen (length (Mesh.mElements m)) 0%nat m) as
    (trace & m' & Hiter & H0 & Hn & Hm' & Hsteps); [done|apply agree_refl|].
  exists trace, m'. repeat split; try done; try apply Hm'.
  intros pos e He. apply (Hsteps pos e); [by apply lookup_lt_Some in He|done].
Qed.

(** ** The region tagging of a whole mesh *)

Lemma well_formed_corners_agree m m1 e :
  well_formed_corners m → e ∈ Mesh.mElements m → agree but_region m m1 →
  valid_nodes m1 e ∧ distinct_indices m1 e
  ∧ Mesh.GetMembraneIndex m1 = Mesh.GetMembraneIndex m.
Proof.
  intros Hwf He Hm1. destruct (Hwf e He) as (Hv & Hd & _).
  split; [by apply (valid_nodes_agree but_region m m1)|].
  split; [by apply (distinct_indices_agree but_region (λ t, t.1.1) m m1)|].
  apply Hm1.
Qed.

(** On a well-formed mesh the tagging of an element completes. *)
Lemma TagNodeRegions_element_runs m m1 e :
  well_formed_corners m → e ∈ Mesh.mElements m → agree but_region m m1 →
  ∃ m2, TagNodeRegions_element e m1 = Ok m2 ∧ agree but_region m1 m2.
Proof.
  intros Hwf He Hm1. destruct (well_formed_corners_agree m m1 e Hwf He Hm1) as (Hv & Hd & Hi).
  destruct (TagNodeRegions_element_spec m1 e Hv Hd) as [Hmem Hoth].
  assert (∃ m2, TagNodeRegions_element e m1 = Ok m2) as [m2 Hrun].
  { destruct (decide (Mesh.GetMembraneIndex m = Element.GetIndex e)) as [Heq|Hne].
    - destruct Hmem as (ns' & Hrun & _); [congruence|]. by eexists.
    - destruct (Hwf e He) as (_ & _ & Hc).
      destruct (Hc Hne) as (i0 & i1 & i2 & i3 & (H0 & H1 & H2 & H3) & Hcorners).
      destruct (Hoth i0 i1 i2 i3) as (ns' & Hrun & _); [congruence|done..|].
      by eexists. }
  exists m2. split; [done|].
  by apply (TagNodeRegions_element_agree but_region) in Hrun.
Qed.

Lemma TagNodeRegions_Ok m :
  well_formed_corners m → ∃ m', TagNodeRegions m = Ok m' ∧ agree but_region m m'.
Proof.
  intros Hwf.
  destruct (iterate_trace but_region (λ _ e m, TagNodeRegions_element e m) m)
    as (trace & m' & Hloop & _ & _ & Hagree & _).
  - intros pos e m1 He Hm1.
    by apply (TagNodeRegions_element_runs m m1 e Hwf (list_elem_of_lookup_2 _ _ _ He)).
  - by exists m'.
Qed.

(** The region tagging of a well-formed mesh, element by element: the
    element at position [pos] turns the mesh [trace !! pos] into
    [trace !! S pos]; the membrane element is tagged basal throughout,
    any other element over its five ranges, the later range deciding
    where two of them overlap. *)
Lemma TagNodeRegions_trace m :
  well_formed_corners m →
  ∃ (trace : list Mesh.t) m',
    TagNodeRegions m = Ok m'
    ∧ trace !! 0%nat = Some m
    ∧ trace !! length (Mesh.mElements m) = Some m'
    ∧ agree but_region m m'
    ∧ ∀ pos e, Mesh.mElements m !! pos = Some e →
        ∃ m1 m2,
          trace !! pos = Some m1 ∧ trace !! S pos = Some m2
          ∧ agree but_region m m1 ∧ agree but_region m1 m2 ∧
          let n := vec_size (Element.mNodes e) in
          (Mesh.GetMembraneIndex m = Element.GetIndex e →
           ∀ j, 0 ≤ j < n →
             Mesh.mNodes m2 !! node_ptr e j
             = Node.SetRegion msBas <$> Mesh.mNodes m1 !! node_ptr e j)
          ∧ (∀ i0 i1 i2 i3,
               Mesh.GetMembraneIndex m ≠ Element.GetIndex e →
               corners_at e i0 i1 i2 i3 →
               ∀ j, 0 ≤ j < n →
                 ∃ t, last_range_tag
                        [(0, i1, msLat); (i1, i0 + 1, msApi); (i0 + 1, i3, msLat);
                         (i3, i2 + 1, msBas); (i2 + 1, n, msLat)] j = Some t
                   ∧ Mesh.mNodes m2 !! node_ptr e j
                     = Node.SetRegion t <$> Mesh.mNodes m1 !! node_ptr e j)
          ∧ (∀ p, p ∉ Element.mNodes e →
               Mesh.mNodes m2 !! p = Mesh.mNodes m1 !! p).
Proof.
  intros Hwf.
  destruct (iterate_trace but_region (λ _ e m, TagNodeRegions_element e m) m)
    as (trace & m' & Hloop & H0 & Hlast & Hagree & Hsteps).
  { intros pos e m1 He Hm1.
    by apply (TagNodeRegions_element_runs m m1 e Hwf (list_elem_of_lookup_2 _ _ _ He)). }
  exists trace, m'. split; [done|]. split; [done|]. split; [done|]. split; [done|].
  intros pos e He. destruct (Hsteps pos e He) as (m1 & m2 & H1 & H2 & Hm1 & Hrun).
  pose proof (list_elem_of_lookup_2 _ _ _ He) as Hin.
  exists m1, m2. split; [done|]. split; [done|]. split; [done|].
  split; [by apply (TagNodeRegions_element_agree but_region) in Hrun|].
  destruct (well_formed_corners_agree m m1 e Hwf Hin Hm1) as (Hv & Hd & Hi).
  destruct (TagNodeRegions_element_spec m1 e Hv Hd) as [Hmem Hoth].
  simpl in Hrun. intros n.
  destruct (decide (Mesh.GetMembraneIndex m = Element.GetIndex e)) as [Heq|Hne].
  - destruct Hmem as (ns' & Hrun' & Hnodes & Hother); [congruence|].
    rewrite Hrun in Hrun'. simplify_eq. split; [done|]. split; [done|]. done.
  - split; [done|]. split.
    + intros i0 i1 i2 i3 _ ((Hi0 & Hi1 & Hi2 & Hi3) & Hcorners).
      destruct (Hoth i0 i1 i2 i3) as (ns' & Hrun' & Hnodes & _); [congruence|done..|].
      rewrite Hrun in Hrun'. by simplify_eq.
    + destruct (Hwf e Hin) as (_ & _ & Hc).
      destruct (Hc Hne) as (i0 & i1 & i2 & i3 & (Hi0 & Hi1 & Hi2 & Hi3) & Hcorners).
      destruct (Hoth i0 i1 i2 i3) as (ns' & Hrun' & _ & Hother); [congruence|done..|].
      rewrite Hrun in Hrun'. by simplify_eq.
Qed.

Lemma twelve_node_mesh_well_formed :
  well_formed_corners (twelve_node_mesh [5; 2; 11; 8]%nat).
Proof.
  intros e He. apply list_elem_of_singleton in He as ->.
  split; [apply twelve_node_mesh_valid|]. split; [apply twelve_node_mesh_distinct|].
  intros _. exists 5, 2, 11, 8. by vm_compute.
Qed.


(** ** Calls on the force object *)

(** The force object once [mpMesh] has been assigned. *)
Definition bind_mesh (a : nat) (f : Force) : Force :=
  mkForce (Some a) (mSpringConstant f) (mRestLengthMultiplier f)
    (mBasementSpringConstantModifier f) (mBasementRestLengthModifier f)
    (mElementsHaveCorners f) (mReferenceLocationInAttributesVector f).

(** The force object once [mElementsHaveCorners] has been assigned. *)
Definition record_corners (b : bool) (f : Force) : Force :=
  mkForce (mpMesh f) (mSpringConstant f) (mRestLengthMultiplier f)
    (mBasementSpringConstantModifier f) (mBasementRestLengthModifier f)
    (Some b) (mReferenceLocationInAttributesVector f).

(** The force object once [mReferenceLocationInAttributesVector] has been
    assigned. *)
Definition record_reference (r : Z) (f : Force) : Force :=
  mkForce (mpMesh f) (mSpringConstant f) (mRestLengthMultiplier f)
    (mBasementSpringConstantModifier f) (mBasementRestLengthModifier f)
    (mElementsHaveCorners f) (Some r).

Ltac call_unfold :=
  unfold mbind, mret, Call_bind, Call_ret, get_this, put_this, read_mesh,
    write_mesh, lift, set_this; simpl.

Section Calls.
Context (GetVectorFromAtoB : c_vector → c_vector → c_vector).
Context (norm_2 : c_vector → float).
Context (GetAverageNodeSpacingOfElement : Mesh.t → Z → bool → float).
Context (DIM : nat).

Local Abbreviation AddForce :=
  (AddImmersedBoundaryForceContribution GetVectorFromAtoB norm_2
     GetAverageNodeSpacingOfElement DIM).
Local Abbreviation force_computation' :=
  (force_computation GetVectorFromAtoB norm_2 GetAverageNodeSpacingOfElement DIM).
Local Abbreviation setup' := (setup GetVectorFromAtoB).

(** With [mpMesh] assigned the call is the force computation alone. *)
Lemma AddForce_bound pop s :
  is_Some (mpMesh (this s)) → AddForce pop s = force_computation' pop s.
Proof.
  intros [a Ha]. unfold AddImmersedBoundaryForceContribution. call_unfold.
  by rewrite Ha.
Qed.

(** With [mpMesh] null the call is the setup, followed by the force
    computation when the setup completes. *)
Lemma AddForce_unbound pop s :
  mpMesh (this s) = None →
  AddForce pop s
  = match setup' pop s with
    | (Ok _, s') => force_computation' pop s'
    | (Exception msg, s') => (Exception msg, s')
    | (Fault, s') => (Fault, s')
    end.
Proof.
  intros Hnull. unfold AddImmersedBoundaryForceContribution. call_unfold.
  rewrite Hnull. by destruct (setup' pop s) as [[[]| |] s'].
Qed.

Lemma setup_corners_Exception pop s m msg :
  meshes s !! rGetMesh pop = Some m →
  verify_corners m = Exception msg →
  setup' pop s = (Exception msg, mkState (bind_mesh (rGetMesh pop) (this s)) (meshes s)).
Proof. intros Hm Hv. unfold setup. call_unfold. by rewrite Hm, Hv. Qed.

Lemma setup_attributes_Exception pop s m e0 msg :
  meshes s !! rGetMesh pop = Some m →
  verify_corners m = Ok 4 →
  Mesh.GetElement m 0 = Ok e0 →
  verify_attributes (Element.GetNumElementAttributes e0) m = Exception msg →
  setup' pop s
  = (Exception msg,
     mkState (record_reference (Element.GetNumElementAttributes e0)
                (record_corners true (bind_mesh (rGetMesh pop) (this s))))
       (meshes s)).
Proof.
  intros Hm Hv H0 Ha. unfold setup. call_unfold. rewrite Hm, Hv. simpl.
  rewrite Hm, H0. simpl. by rewrite Hm, Ha.
Qed.

Lemma force_computation_not_Exception pop s msg s' :
  force_computation' pop s ≠ (Exception msg, s').
Proof.
  unfold force_computation. call_unfold. intros H.
  repeat case_match; simplify_eq.
  by eapply force_loop_not_Exception.
Qed.

(** The setup, step by step. *)
Lemma setup_unfold pop s :
  setup' pop s
  = let a := rGetMesh pop in
    let f1 := bind_mesh a (this s) in
    match meshes s !! a with
    | None => (Fault, mkState f1 (meshes s))
    | Some m =>
        match verify_corners m with
        | Exception msg => (Exception msg, mkState f1 (meshes s))
        | Fault => (Fault, mkState f1 (meshes s))
        | Ok num_corners =>
            let f2 := record_corners (num_corners =? 4) f1 in
            if num_corners =? 4 then
              match Mesh.GetElement m 0 with
              | Exception msg => (Exception msg, mkState f2 (meshes s))
              | Fault => (Fault, mkState f2 (meshes s))
              | Ok e0 =>
                  let reference := Element.GetNumElementAttributes e0 in
                  let f3 := record_reference reference f2 in
                  match verify_attributes reference m with
                  | Exception msg => (Exception msg, mkState f3 (meshes s))
                  | Fault => (Fault, mkState f3 (meshes s))
                  | Ok _ =>
                      match TagNodeRegions m with
                      | Exception msg => (Exception msg, mkState f3 (meshes s))
                      | Fault => (Fault, mkState f3 (meshes s))
                      | Ok m1 =>
                          match TagApicalAndBasalLengths GetVectorFromAtoB m1 with
                          | Exception msg =>
                              (Exception msg, mkState f3 (<[a := m1]> (meshes s)))
                          | Fault => (Fault, mkState f3 (<[a := m1]> (meshes s)))
                          | Ok m2 =>
                              (Ok (), mkState f3 (<[a := m2]> (<[a := m1]> (meshes s))))
                          end
                      end
                  end
              end
            else (Ok (), mkState f2 (meshes s))
        end
    end.
Proof.
  unfold setup. call_unfold.
  destruct (meshes s !! rGetMesh pop) as [m|] eqn:Hm; [|reflexivity].
  destruct (verify_corners m) as [num_corners| |]; [|reflexivity..].
  destruct (num_corners =? 4); simpl; [|reflexivity]. rewrite ?Hm.
  destruct (Mesh.GetElement m 0) as [e0| |]; simpl; [|reflexivity..]. rewrite ?Hm.
  destruct (verify_attributes _ m) as [[]| |]; simpl; [|reflexivity..]. rewrite ?Hm.
  destruct (TagNodeRegions m) as [m1| |]; simpl; [|reflexivity..].
  unfold set_mesh. simpl.
  rewrite list_lookup_insert_eq by (by eapply lookup_lt_Some).
  destruct (TagApicalAndBasalLengths GetVectorFromAtoB m1); reflexivity.
Qed.

(** When the setup throws, [mpMesh] has been assigned and no mesh has
    been touched. *)
Lemma setup_Exception_inv pop s msg s' :
  setup' pop s = (Exception msg, s') →
  mpMesh (this s') = Some (rGetMesh pop) ∧ meshes s' = meshes s.
Proof.
  rewrite setup_unfold. cbv zeta. intros H.
  destruct (meshes s !! rGetMesh pop) as [m|]; [|by simplify_eq].
  destruct (verify_corners m) as [num_corners| |]; [|by simplify_eq..].
  destruct (num_corners =? 4); [|by simplify_eq].
  destruct (Mesh.GetElement m 0) as [e0| |]; [|by simplify_eq..].
  destruct (verify_attributes _ m) as [[]| |]; [|by simplify_eq..].
  destruct (TagNodeRegions m) as [m1| |] eqn:H1; [|by simplify_eq..].
  destruct (TagApicalAndBasalLengths GetVectorFromAtoB m1) as [m2| |] eqn:H2;
    [by simplify_eq| |by simplify_eq].
  by apply TagApicalAndBasalLengths_not_Exception in H2.
Qed.

Lemma ClearAppliedForce_idem n : ClearAppliedForce DIM (ClearAppliedForce DIM n) = ClearAppliedForce DIM n.
Proof. done. Qed.

Lemma clear_forces_idem m : clear_forces DIM (clear_forces DIM m) = clear_forces DIM m.
Proof.
  unfold clear_forces, with_nodes. simpl. f_equal.
  rewrite <- list_fmap_compose. by apply list_fmap_ext.
Qed.

Lemma clear_forces_agree m m' :
  agree (ClearAppliedForce DIM) m m' → clear_forces DIM m' = clear_forces DIM m.
Proof. intros (He & Hi & Hn). unfold clear_forces, with_nodes. by rewrite He, Hi, Hn. Qed.

Lemma reset_idem s : reset DIM (reset DIM s) = reset DIM s.
Proof.
  unfold reset. simpl. f_equal. rewrite <- list_fmap_compose.
  apply list_fmap_ext. intros _ m _. apply clear_forces_idem.
Qed.

(** A force computation on reset accumulators leaves a state that a
    reset takes back to where the computation started. *)
Lemma reset_force_computation pop s :
  reset DIM (force_computation' pop (reset DIM s)).2 = reset DIM s.
Proof.
  unfold force_computation. call_unfold.
  destruct (mpMesh (this s)) as [a|]; [|apply reset_idem].
  rewrite list_lookup_fmap.
  destruct (meshes s !! a) as [m|] eqn:Hm; simpl; [|apply reset_idem].
  match goal with |- context [Mesh.for_each_element ?b ?m0] =>
    destruct (Mesh.for_each_element b m0) as [m'| |] eqn:Hloop
  end; simpl; [|apply reset_idem..].
  apply force_loop_agree with (π := ClearAppliedForce DIM) in Hloop; [|done].
  apply clear_forces_agree in Hloop. rewrite clear_forces_idem in Hloop.
  unfold reset, set_mesh. simpl. f_equal.
  rewrite list_fmap_insert, Hloop, <- list_fmap_compose.
  assert (clear_forces DIM ∘ clear_forces DIM <$> meshes s
          = clear_forces DIM <$> meshes s) as ->.
  { apply list_fmap_ext. intros _ m0 _. apply clear_forces_idem. }
  apply list_insert_id. by rewrite list_lookup_fmap, Hm.
Qed.

(** C9.  The force computation is deterministic on unchanged inputs:
    run on reset accumulators, then reset and run again, it returns the
    same outcome and leaves the same state, so the same force vector on
    every node, both times. *)
Theorem C9_force_computation_repeats pop s :
  is_Some (mpMesh (this s)) →
  AddForce pop (reset DIM (AddForce pop (reset DIM s)).2) = AddForce pop (reset DIM s).
Proof.
  intros Hbound. rewrite (AddForce_bound pop (reset DIM s)) by done.
  rewrite reset_force_computation. by apply AddForce_bound.
Qed.

Lemma for_steps_unit_Ok_inv (body : Z → () → Result ()) n lo :
  for_steps n lo body () = Ok () →
  ∀ i, lo ≤ i < lo + Z.of_nat n → body i () = Ok ().
Proof.
  revert lo. induction n as [|n IH]; intros lo Hr i Hi; [lia|].
  simpl in Hr. apply bind_Ok in Hr as ([] & Hb & Hr).
  destruct (decide (i = lo)) as [->|Hne]; [done|]. apply (IH (lo + 1)); [done|lia].
Qed.

(** When the attribute check passes, every element reports the reference
    number of attributes. *)
Lemma verify_attributes_Ok_inv m e0 :
  vec_size (Mesh.mElements m) ≤ UINT_MAX →
  Mesh.mElements m !! 0%nat = Some e0 →
  verify_attributes (Element.GetNumElementAttributes e0) m = Ok () →
  ∀ (i : nat) e, Mesh.mElements m !! i = Some e →
    Element.GetNumElementAttributes e = Element.GetNumElementAttributes e0.
Proof.
  intros Hsz H0 Hv i e He. destruct i as [|i]; [by simplify_eq|].
  unfold verify_attributes, for_loop in Hv. rewrite GetNumElements_small in Hv by done.
  pose proof (lookup_lt_Some _ _ _ He) as Hlt.
  apply for_steps_unit_Ok_inv with (i := Z.of_nat (S i)) in Hv;
    [|unfold vec_size; lia].
  destruct (GetElement_Ok m (Z.of_nat (S i))) as (e' & Hget & He');
    [unfold vec_size; lia|].
  rewrite Hget in Hv. simpl in Hv. rewrite Nat2Z.id in He'. simplify_eq.
  destruct (Z.eqb_spec (Element.GetNumElementAttributes e0)
              (Element.GetNumElementAttributes e)); [done|discriminate].
Qed.

Lemma force_computation_Ok_inv pop s s' :
  force_computation' pop s = (Ok (), s') →
  ∃ a m m', mpMesh (this s) = Some a ∧ meshes s !! a = Some m
    ∧ agree Node.mLocation m m'
    ∧ s' = mkState (this s) (<[a := m']> (meshes s)).
Proof.
  unfold force_computation. call_unfold. intros H.
  destruct (mpMesh (this s)) as [a|] eqn:Ha; [|discriminate].
  destruct (meshes s !! a) as [m|] eqn:Hm; [|discriminate].
  match type of H with context [Mesh.for_each_element ?b ?m0] =>
    destruct (Mesh.for_each_element b m0) as [m'| |] eqn:Hloop
  end; [|discriminate..].
  exists a, m, m'. split; [done|]. split; [done|]. split.
  - by apply force_loop_agree with (π := Node.mLocation) in Hloop.
  - unfold set_mesh in H. by simplify_eq.
Qed.

(** The two getters on an element that carries its two recorded lengths
    behind [reference] attributes. *)
Lemma attribute_at_lengths m (i : nat) e w :
  Mesh.mElements m !! i = Some (with_lengths w e) →
  vec_size (Element.rGetElementAttributes e) + 2 ≤ UINT_MAX →
  let reference := Element.GetNumElementAttributes e in
  attribute_at (Z.of_nat i) reference m = Ok w
  ∧ attribute_at (Z.of_nat i) (to_unsigned (reference + 1)) m = Ok w.
Proof.
  intros He Hsz reference. pose proof (lookup_lt_Some _ _ _ He) as Hlt.
  pose proof (vec_size_nonneg (Element.rGetElementAttributes e)) as Hnn.
  assert (reference = vec_size (Element.rGetElementAttributes e)) as Href.
  { apply to_unsigned_small. lia. }
  unfold attribute_at.
  destruct (GetElement_Ok m (Z.of_nat i)) as (e' & -> & He'); [unfold vec_size; lia|].
  rewrite Nat2Z.id in He'. simplify_eq. simpl.
  assert (Element.GetNumElementAttributes (with_lengths w e)
          = vec_size (Element.rGetElementAttributes e) + 2) as ->.
  { unfold Element.GetNumElementAttributes, with_lengths, vec_size. simpl.
    rewrite !length_app. simpl.
    unfold Element.rGetElementAttributes, vec_size in *.
    rewrite to_unsigned_small; lia. }
  rewrite to_unsigned_small by lia. rewrite Href.
  unfold Element.rGetElementAttributes, vec_size in *. simpl.
  destruct (Z.ltb_spec (Z.of_nat (length (Element.mElementAttributes e)))
              (Z.of_nat (length (Element.mElementAttributes e)) + 2)); [|lia].
  destruct (Z.ltb_spec (Z.of_nat (length (Element.mElementAttributes e)) + 1)
              (Z.of_nat (length (Element.mElementAttributes e)) + 2)); [|lia].
  split; apply vec_at_Ok; (split; [lia|]).
  - rewrite Nat2Z.id, <- app_assoc. by rewrite lookup_app_r, Nat.sub_diag by lia.
  - replace (Z.to_nat (Z.of_nat (length (Element.mElementAttributes e)) + 1))
      with (length (Element.mElementAttributes e ++ [w])) by (rewrite length_app; simpl; lia).
    by rewrite lookup_app_r, Nat.sub_diag by lia.
Qed.

(** What a completed first call with corner tagging has recorded: every
    element has had one value appended twice to its attributes, its
    recorded length at the positions the nodes had when the call began,
    and both getters return it, whatever the nodes become afterwards. *)
Lemma baseline_lengths_inv pop s s' m :
  mpMesh (this s) = None →
  meshes s !! rGetMesh pop = Some m →
  vec_size (Mesh.mElements m) ≤ UINT_MAX →
  AddForce pop s = (Ok (), s') →
  mElementsHaveCorners (this s') = Some true →
  ∀ (i : nat) e,
    Mesh.mElements m !! i = Some e →
    vec_size (Element.rGetElementAttributes e) + 2 ≤ UINT_MAX →
    ∃ w m',
      recorded_length GetVectorFromAtoB m e w
      ∧ meshes s' !! rGetMesh pop = Some m'
      ∧ Element.rGetElementAttributes <$> Mesh.mElements m' !! i
        = Some (Element.rGetElementAttributes e ++ [w; w])
      ∧ GetApicalLengthForElement (Z.of_nat i) s' = (Ok w, s')
      ∧ GetBasalLengthForElement (Z.of_nat i) s' = (Ok w, s')
      ∧ ∀ ns,
          let moved :=
            mkState (this s') (<[rGetMesh pop := with_nodes m' ns]> (meshes s')) in
          (GetApicalLengthForElement (Z.of_nat i) moved).1 = Ok w
          ∧ (GetBasalLengthForElement (Z.of_nat i) moved).1 = Ok w.
Proof.
  intros Hnull Hm Hsz Hcall Hflag i e He Hattrs.
  rewrite AddForce_unbound in Hcall by done.
  destruct (setup' pop s) as [[[]| |] s1] eqn:Hsetup; [|discriminate..].
  apply force_computation_Ok_inv in Hcall as (a & m2 & m3 & Ha & Hm2 & Hagree3 & ->).
  simpl in Hflag. rewrite setup_unfold in Hsetup. cbv zeta in Hsetup.
  rewrite Hm in Hsetup.
  destruct (verify_corners m) as [num_corners| |]; [|discriminate..].
  destruct (num_corners =? 4); [|by simplify_eq].
  destruct (Mesh.GetElement m 0) as [e0| |] eqn:H0; [|discriminate..].
  destruct (verify_attributes _ m) as [[]| |] eqn:Hverify; [|discriminate..].
  destruct (TagNodeRegions m) as [m1| |] eqn:Htag; [|discriminate..].
  destruct (TagApicalAndBasalLengths GetVectorFromAtoB m1) as [m2'| |] eqn:Hlen;
    [|discriminate..].
  simplify_eq. simpl in *. simplify_eq.
  pose proof (lookup_lt_Some _ _ _ Hm) as Hlt.
  rewrite list_lookup_insert_eq in Hm2 by (by rewrite length_insert). simplify_eq.
  apply TagNodeRegions_agree with (π := Node.mLocation) in Htag as (He1 & Hi1 & Hn1);
    [|done].
  apply TagApicalAndBasalLengths_inv in Hlen as (Hn2 & Hi2 & Hl2 & Hlen).
  destruct (Hlen i e) as (w & Hw & Hwe); [by rewrite He1|].
  apply recorded_length_ext with (m := m) in Hw; [|done..].
  destruct Hagree3 as (He3 & _ & _).
  assert (Mesh.mElements m !! 0%nat = Some e0) as He0.
  { unfold Mesh.GetElement in H0. destruct (_ <? _); [|done].
    by apply vec_at_Ok in H0 as [_ ?]. }
  assert (Element.GetNumElementAttributes e0 = Element.GetNumElementAttributes e) as Href.
  { symmetry. by apply (verify_attributes_Ok_inv m e0 Hsz He0 Hverify i e). }
  rewrite <- He3 in Hwe.
  destruct (attribute_at_lengths m3 i e w Hwe Hattrs) as [Hapical Hbasal].
  exists w, m3. split; [done|].
  split; [apply list_lookup_insert_eq; by rewrite !length_insert|].
  split; [rewrite Hwe; simpl; unfold Element.rGetElementAttributes; simpl;
          by rewrite <- app_assoc|].
  assert (∀ ms, ms !! rGetMesh pop = Some m3 →
            GetApicalLengthForElement (Z.of_nat i)
              (mkState (record_reference (Element.GetNumElementAttributes e0)
                          (record_corners true (bind_mesh (rGetMesh pop) (this s)))) ms)
            = (Ok w, mkState (record_reference (Element.GetNumElementAttributes e0)
                          (record_corners true (bind_mesh (rGetMesh pop) (this s)))) ms)
            ∧ GetBasalLengthForElement (Z.of_nat i)
              (mkState (record_reference (Element.GetNumElementAttributes e0)
                          (record_corners true (bind_mesh (rGetMesh pop) (this s)))) ms)
            = (Ok w, mkState (record_reference (Element.GetNumElementAttributes e0)
                          (record_corners true (bind_mesh (rGetMesh pop) (this s)))) ms))
    as Hget.
  { intros ms Hms. unfold GetApicalLengthForElement, GetBasalLengthForElement.
    call_unfold. by rewrite Hms, Href, Hapical, Hbasal. }
  split; [apply Hget, list_lookup_insert_eq; by rewrite !length_insert|].
  split; [apply Hget, list_lookup_insert_eq; by rewrite !length_insert|].
  intros ns. cbv zeta.
  unfold GetApicalLengthForElement, GetBasalLengthForElement. call_unfold.
  rewrite list_lookup_insert_eq by (by rewrite !length_insert).
  rewrite Href. unfold attribute_at in *. simpl.
  change (Mesh.GetElement (with_nodes m3 ns) (Z.of_nat i))
    with (Mesh.GetElement m3 (Z.of_nat i)).
  by rewrite Hapical, Hbasal.
Qed.

(** C6.  At the first call, if the corner count of some element differs
    from that of element 0, or, every element having four corners, the
    attribute count of some element differs from that of element 0, the
    call raises the corresponding configuration error; it does so before
    anything is written to a mesh, so that no force has been added, no
    region tagged and no attribute appended. *)
Theorem C6_configuration_errors pop s m e0 :
  mpMesh (this s) = None →
  meshes s !! rGetMesh pop = Some m →
  vec_size (Mesh.mElements m) ≤ UINT_MAX →
  Mesh.mElements m !! 0%nat = Some e0 →
  vec_size (Element.rGetCornerNodes e0) ≤ UINT_MAX →
  ((∃ e, e ∈ Mesh.mElements m
         ∧ vec_size (Element.rGetCornerNodes e) ≠ vec_size (Element.rGetCornerNodes e0)) →
   ∃ s', AddForce pop s = (Exception corners_message, s') ∧ meshes s' = meshes s)
  ∧ (Forall (λ e, vec_size (Element.rGetCornerNodes e) = 4) (Mesh.mElements m) →
     (∃ e, e ∈ Mesh.mElements m
           ∧ Element.GetNumElementAttributes e ≠ Element.GetNumElementAttributes e0) →
     ∃ s', AddForce pop s = (Exception attributes_message, s') ∧ meshes s' = meshes s).
Proof.
  intros Hnull Hm Hsz H0 Hc0. rewrite AddForce_unbound by done. split.
  - intros Hne.
    rewrite (setup_corners_Exception pop s m corners_message Hm)
      by by apply (verify_corners_mismatch m e0).
    by eexists.
  - intros Hall Hne.
    assert (vec_size (Element.rGetCornerNodes e0) = 4) as H4.
    { by apply (Forall_lookup_1 _ _ _ _ Hall H0). }
    destruct (GetElement_Ok m 0) as (e0' & Hget & He0').
    { apply lookup_lt_Some in H0. unfold vec_size. lia. }
    change (Z.to_nat 0) with 0%nat in He0'. simplify_eq.
    rewrite (setup_attributes_Exception pop s m e0 attributes_message Hm).
    + by eexists.
    + rewrite (verify_corners_uniform m e0), H4; try done.
      eapply Forall_impl; [exact Hall|]. intros e He. simpl in *. congruence.
    + done.
    + by apply verify_attributes_mismatch.
Qed.

(** C10.  The setup is not atomic.  If the first call raises a
    configuration error, the mesh pointer is already bound and no mesh has
    been changed; a further call then runs no setup and no validation: it
    is the force computation alone, and it raises no configuration
    error. *)
Theorem C10_setup_not_atomic pop s msg s' :
  mpMesh (this s) = None →
  AddForce pop s = (Exception msg, s') →
  mpMesh (this s') = Some (rGetMesh pop)
  ∧ meshes s' = meshes s
  ∧ AddForce pop s'
    = force_computation GetVectorFromAtoB norm_2 GetAverageNodeSpacingOfElement DIM
        pop s'
  ∧ ∀ msg' s'', AddForce pop s' ≠ (Exception msg', s'').
Proof.
  intros Hnull Hcall. rewrite AddForce_unbound in Hcall by done.
  destruct (setup' pop s) as [[[]| |] s1] eqn:Hsetup.
  - by apply force_computation_not_Exception in Hcall.
  - simplify_eq. apply setup_Exception_inv in Hsetup as [Hbound Hmeshes].
    assert (is_Some (mpMesh (this s'))) as Hsome by by rewrite Hbound.
    repeat split; try done.
    + by apply AddForce_bound.
    + intros msg' s''. rewrite AddForce_bound by done.
      apply force_computation_not_Exception.
  - discriminate.
Qed.

End Calls.

(** Two squares of which only the first has corners: the first call
    raises the corner-count error and leaves the mesh as it was. *)
Lemma C6_witness :
  ∃ s', AddImmersedBoundaryForceContribution unit_square_GetVectorFromAtoB ublas_norm_2
          perimeter_GetAverageNodeSpacingOfElement 2 population
          (fresh (two_squares true false [] []))
        = (Exception corners_message, s')
    ∧ meshes s' = [two_squares true false [] []].
Proof.
  refine (proj1 (C6_configuration_errors unit_square_GetVectorFromAtoB ublas_norm_2
                   perimeter_GetAverageNodeSpacingOfElement 2 population
                   (fresh (two_squares true false [] []))
                   (two_squares true false [] [])
                   (square_element 0 0 true []) _ _ _ _ _) _).
  - reflexivity.
  - reflexivity.
  - vm_compute. discriminate.
  - reflexivity.
  - vm_compute. discriminate.
  - exists (square_element 1 4 false []). split.
    + apply list_elem_of_further, list_elem_of_here.
    + vm_compute. discriminate.
Defined.

(** Two squares with four corners each and attribute counts 0 and 1: the
    first call raises the attribute-count error. *)
Lemma C6_attribute_count_example :
  ∃ s', AddImmersedBoundaryForceContribution unit_square_GetVectorFromAtoB ublas_norm_2
          perimeter_GetAverageNodeSpacingOfElement 2 population
          (fresh (two_squares true true [] [1%float]))
        = (Exception attributes_message, s')
    ∧ meshes s' = [two_squares true true [] [1%float]].
Proof. eexists. split; by vm_compute. Qed.

(** On the two squares, bound and without corners, the force computation
    returns the same forces the second time, and they are not zero. *)
Lemma C9_witness :
  let run := AddImmersedBoundaryForceContribution unit_square_GetVectorFromAtoB
               ublas_norm_2 perimeter_GetAverageNodeSpacingOfElement 2 population in
  let s := mkState (bind_mesh 0 ImmersedBoundaryMembraneElasticityForce)
             [two_squares false false [] []] in
  run (reset 2 (run (reset 2 s)).2) = run (reset 2 s)
  ∧ (run (reset 2 s)).1 = Ok ()
  ∧ forces <$> meshes (run (reset 2 s)).2 ≠ forces <$> meshes (reset 2 s).
Proof.
  intros run s. split.
  - apply (C9_force_computation_repeats unit_square_GetVectorFromAtoB ublas_norm_2
             perimeter_GetAverageNodeSpacingOfElement 2 population s).
    by eexists.
  - split; [by vm_compute|]. vm_compute. discriminate.
Defined.

(** After the corner-count error on the two squares, the second call
    computes forces: it returns normally and the accumulators of the mesh
    are no longer zero. *)
Lemma C10_witness :
  ∃ s1 s2,
    AddImmersedBoundaryForceContribution unit_square_GetVectorFromAtoB ublas_norm_2
      perimeter_GetAverageNodeSpacingOfElement 2 population
      (fresh (two_squares true false [] []))
    = (Exception corners_message, s1)
    ∧ mpMesh (this s1) = Some 0%nat
    ∧ AddImmersedBoundaryForceContribution unit_square_GetVectorFromAtoB ublas_norm_2
        perimeter_GetAverageNodeSpacingOfElement 2 population s1
      = (Ok (), s2)
    ∧ meshes s2 ≠ meshes s1.
Proof.
  exists (mkState (bind_mesh 0 ImmersedBoundaryMembraneElasticityForce)
            [two_squares true false [] []]).
  assert (AddImmersedBoundaryForceContribution unit_square_GetVectorFromAtoB
            ublas_norm_2 perimeter_GetAverageNodeSpacingOfElement 2 population
            (fresh (two_squares true false [] []))
          = (Exception corners_message,
             mkState (bind_mesh 0 ImmersedBoundaryMembraneElasticityForce)
               [two_squares true false [] []])) as Hcall by by vm_compute.
  destruct (C10_setup_not_atomic unit_square_GetVectorFromAtoB ublas_norm_2
              perimeter_GetAverageNodeSpacingOfElement 2 population
              (fresh (two_squares true false [] [])) corners_message _
              eq_refl Hcall) as (Hbound & _ & Hsecond & _).
  eexists. split; [done|]. split; [done|]. split.
  - rewrite Hsecond. by vm_compute.
  - vm_compute. discriminate.
Defined.

(** ** The force computation on a whole mesh *)

Section MeshForces.
Context (GetVectorFromAtoB : c_vector → c_vector → c_vector).
Context (norm_2 : c_vector → float).
Context (GetAverageNodeSpacingOfElement : Mesh.t → Z → bool → float).
Context (DIM : nat).

(** The element loop of the force computation on a well-formed mesh
    whose elements share no node. *)
Lemma force_loop_spec f pop m :
  well_formed_elements m → disjoint_elements m →
  ∃ m',
    Mesh.for_each_element
      (λ _ e m, element_contribution GetVectorFromAtoB norm_2
                  GetAverageNodeSpacingOfElement DIM f pop e m) m
    = Ok m'
    ∧ agree but_force m m'
    ∧ (∀ e, e ∈ Mesh.mElements m →
         ∃ m1, agree but_force m m1
           ∧ ∀ j, 0 ≤ j < vec_size (Element.mNodes e) →
               Mesh.mNodes m' !! node_ptr e j
               = Node.AddAppliedForceContribution
                   (node_force GetVectorFromAtoB norm_2 m e
                      (claimed_spring_constant GetAverageNodeSpacingOfElement f pop m1 e)
                      (claimed_rest_length GetAverageNodeSpacingOfElement f m1 e) j)
                 <$> Mesh.mNodes m !! node_ptr e j)
    ∧ (∀ p, (∀ e, e ∈ Mesh.mElements m → p ∉ Element.mNodes e) →
         Mesh.mNodes m' !! p = Mesh.mNodes m !! p).
Proof.
  intros Hwf Hdisj.
  destruct (iterate_disjoint but_force
    (with_spring_forces GetVectorFromAtoB norm_2 GetAverageNodeSpacingOfElement f pop)
    (λ _ e m, element_contribution GetVectorFromAtoB norm_2
                GetAverageNodeSpacingOfElement DIM f pop e m) m Hdisj)
    as (m' & Hrun & Hagree & Helems & Hrest).
  - intros pos e m1 He Hm1.
    destruct (Hwf e (list_elem_of_lookup_2 _ _ _ He)) as (Hv & Hnd & Hmax).
    pose proof (valid_nodes_agree but_force m m1 e Hm1 Hv) as Hv1.
    destruct (element_contribution_spec GetVectorFromAtoB norm_2
                GetAverageNodeSpacingOfElement DIM f pop e m1 Hv1 Hnd Hmax)
      as (_ & Hok & _ & Hother).
    split; [done|]. split; [|done].
    apply element_contribution_agree with (π := but_force) in Hok as (_ & _ & Hn);
      done.
  - exists m'. split; [done|]. split; [done|]. split; [|done].
    intros e He. apply list_elem_of_lookup_1 in He as [pos He].
    destruct (Helems pos e He) as (m1 & Hm1 & Hnodes).
    exists m1. split; [done|]. intros j Hj.
    destruct (Hwf e (list_elem_of_lookup_2 _ _ _ He)) as (Hv & Hnd & Hmax).
    pose proof (valid_nodes_agree but_force m m1 e Hm1 Hv) as Hv1.
    destruct (element_contribution_spec GetVectorFromAtoB norm_2
                GetAverageNodeSpacingOfElement DIM f pop e m1 Hv1 Hnd Hmax)
      as (_ & _ & Hforce & _).
    destruct (Hnodes (node_ptr e j) (node_ptr_elem_of e j Hj)) as [Hsame ->].
    rewrite Hforce, Hsame by done. unfold node_force.
    assert (Node.mLocation <$> Mesh.mNodes m1 = Node.mLocation <$> Mesh.mNodes m)
      as Hloc.
    { by apply (agree_weaken but_force Node.mLocation (λ t, t.1.2)) in Hm1
        as (_ & _ & ?). }
    by rewrite !(segment_force_ext _ _ m m1 e _ _ _ Hloc).
Qed.

End MeshForces.

Section ForceComputation.
Context (GetVectorFromAtoB : c_vector → c_vector → c_vector).
Context (norm_2 : c_vector → float).
Context (GetAverageNodeSpacingOfElement : Mesh.t → Z → bool → float).
Context (DIM : nat).

Local Abbreviation AddForce :=
  (AddImmersedBoundaryForceContribution GetVectorFromAtoB norm_2
     GetAverageNodeSpacingOfElement DIM).

Lemma force_computation_Ok pop s a m m' :
  mpMesh (this s) = Some a → meshes s !! a = Some m →
  Mesh.for_each_element
    (λ _ e m, element_contribution GetVectorFromAtoB norm_2
                GetAverageNodeSpacingOfElement DIM (this s) pop e m) m
  = Ok m' →
  force_computation GetVectorFromAtoB norm_2 GetAverageNodeSpacingOfElement DIM pop s
  = (Ok (), mkState (this s) (<[a := m']> (meshes s))).
Proof.
  intros Ha Hm Hloop.
  unfold force_computation. call_unfold. by rewrite Ha, Hm, Hloop.
Qed.

End ForceComputation.

(** ** The first call on a mesh with corners *)

Lemma verify_attributes_Ok m reference :
  Forall (λ e, Element.GetNumElementAttributes e = reference) (Mesh.mElements m) →
  verify_attributes reference m = Ok ().
Proof.
  intros Hall. unfold verify_attributes.
  apply (verify_loop_Ok m (λ e, negb (reference =? Element.GetNumElementAttributes e))).
  eapply Forall_impl; [exact Hall|]. intros e He. simpl in He.
  by rewrite He, Z.eqb_refl.
Qed.

Section FirstCall.
Context (GetVectorFromAtoB : c_vector → c_vector → c_vector).
Context (norm_2 : c_vector → float).
Context (GetAverageNodeSpacingOfElement : Mesh.t → Z → bool → float).
Context (DIM : nat).

Local Abbreviation AddForce :=
  (AddImmersedBoundaryForceContribution GetVectorFromAtoB norm_2
     GetAverageNodeSpacingOfElement DIM).

(** The element loop of the force computation completes. *)
Lemma force_loop_Ok f pop m :
  (∀ e, e ∈ Mesh.mElements m →
     valid_nodes m e ∧ vec_size (Element.mNodes e) ≤ 2147483648) →
  ∃ m',
    Mesh.for_each_element
      (λ _ e m, element_contribution GetVectorFromAtoB norm_2
                  GetAverageNodeSpacingOfElement DIM f pop e m) m
    = Ok m'.
Proof.
  intros Hwf.
  destruct (iterate_trace but_force
    (λ _ e m, element_contribution GetVectorFromAtoB norm_2
                GetAverageNodeSpacingOfElement DIM f pop e m) m)
    as (trace & m' & Hloop & _).
  - intros pos e m1 He Hm1.
    destruct (Hwf e (list_elem_of_lookup_2 _ _ _ He)) as [Hv Hmax].
    pose proof (element_contribution_Ok GetVectorFromAtoB norm_2
                  GetAverageNodeSpacingOfElement DIM f pop e m1
                  (valid_nodes_agree but_force m m1 e Hm1 Hv) Hmax) as Hok.
    eexists. split; [exact Hok|].
    by apply element_contribution_agree with (π := but_force) in Hok.
  - by exists m'.
Qed.

(** The first call completes, with corner tagging enabled, on a
    well-formed mesh whose elements all have four corners and as many
    attributes as element 0. *)
Lemma first_call_Ok pop s m e0 :
  mpMesh (this s) = None →
  meshes s !! rGetMesh pop = Some m →
  Mesh.mElements m !! 0%nat = Some e0 →
  Forall (λ e, vec_size (Element.rGetCornerNodes e) = 4) (Mesh.mElements m) →
  Forall (λ e, Element.GetNumElementAttributes e = Element.GetNumElementAttributes e0)
    (Mesh.mElements m) →
  well_formed_corners m → lengths_defined GetVectorFromAtoB m →
  ∃ s', AddForce pop s = (Ok (), s') ∧ mElementsHaveCorners (this s') = Some true.
Proof.
  intros Hnull Hm H0 Hcorners Hattrs Hwf Hlen.
  rewrite AddForce_unbound by done. rewrite setup_unfold. cbv zeta. rewrite Hm.
  assert (vec_size (Element.rGetCornerNodes e0) = 4) as H4.
  { by apply (Forall_lookup_1 _ _ _ _ Hcorners H0). }
  rewrite (verify_corners_uniform m e0), H4; [|done|by rewrite H4|].
  2:{ eapply Forall_impl; [exact Hcorners|]. intros e He. simpl in *. congruence. }
  change (4 =? 4) with true. cbv iota.
  destruct (GetElement_Ok m 0) as (e0' & -> & He0').
  { apply lookup_lt_Some in H0. unfold vec_size. lia. }
  change (Z.to_nat 0) with 0%nat in He0'. simplify_eq.
  rewrite verify_attributes_Ok by done.
  destruct (TagNodeRegions_Ok m Hwf) as (m1 & -> & Helems & Hmem & Hnodes).
  assert (Node.mLocation <$> Mesh.mNodes m1 = Node.mLocation <$> Mesh.mNodes m)
    as Hloc.
  { assert (agree but_region m m1) as Hagree by done.
    by apply (agree_weaken but_region Node.mLocation (λ t, t.1.2)) in Hagree
      as (_ & _ & ?). }
  assert (length (Mesh.mNodes m1) = length (Mesh.mNodes m)) as Hlength.
  { apply (agree_length but_region m m1). by repeat split. }
  destruct (TagApicalAndBasalLengths_Ok GetVectorFromAtoB m1) as [m2 Hrun].
  { intros e He. rewrite Helems in He.
    destruct (Hwf e He) as ((Hsz & Hall) & _ & Hc).
    destruct (Hlen e He) as (_ & _ & Hw).
    split; [split; [done|by rewrite Hlength]|].
    unfold Mesh.GetMembraneIndex in *. rewrite Hmem. intros Hne. split.
    - destruct (Hc Hne) as (i0 & _ & _ & _ & (? & _) & _). lia.
    - unfold element_width. rewrite !(location_ext m m1 e _ Hloc). by apply Hw. }
  rewrite Hrun.
  pose proof Hrun as Hinv.
  apply TagApicalAndBasalLengths_inv in Hinv as (Hn2 & _ & Hl2 & Hsteps).
  match goal with |- ∃ s', force_computation _ _ _ _ _ ?s1 = _ ∧ _ =>
    destruct (force_loop_Ok (this s1) pop m2) as [m3 Hloop]
  end.
  { intros e' He'. apply list_elem_of_lookup_1 in He' as [pos He'].
    destruct (lookup_lt_is_Some_2 (Mesh.mElements m1) pos) as [e He].
    { rewrite <- Hl2. by apply lookup_lt_Some in He'. }
    destruct (Hsteps pos e He) as (w & _ & Hwe). simplify_eq.
    rewrite Helems in He. apply list_elem_of_lookup_2 in He.
    destruct (Hwf e He) as ((Hsz & Hall) & _ & _).
    destruct (Hlen e He) as (Hmax & _ & _).
    split; [|done]. split; [done|]. simpl. by rewrite Hn2, Hlength. }
  eexists. split.
  - apply (force_computation_Ok GetVectorFromAtoB norm_2
             GetAverageNodeSpacingOfElement DIM pop _ (rGetMesh pop) m2 m3);
      [done| |exact Hloop].
    apply list_lookup_insert_eq. rewrite length_insert. by apply lookup_lt_Some in Hm.
  - done.
Qed.

(** C5, amended.  On a well-formed mesh whose elements all have four
    corners and as many attributes as element 0, the first call
    completes, with corner tagging enabled, and every element has then
    had one value appended twice to its attributes: zero for the membrane
    element, and for any other element the absolute value of the first
    component of the displacement from node 0 to the node at local index
    floor(numNodes / 2), at the positions the nodes had when the call
    began.  The apical and the basal length getters return that value,
    read from the attribute list: they return it whatever the nodes of
    the mesh become afterwards. *)
Theorem C5_baseline_lengths pop s m e0 :
  mpMesh (this s) = None →
  meshes s !! rGetMesh pop = Some m →
  vec_size (Mesh.mElements m) ≤ UINT_MAX →
  Mesh.mElements m !! 0%nat = Some e0 →
  Forall (λ e, vec_size (Element.rGetCornerNodes e) = 4) (Mesh.mElements m) →
  Forall (λ e, Element.GetNumElementAttributes e = Element.GetNumElementAttributes e0)
    (Mesh.mElements m) →
  well_formed_corners m → lengths_defined GetVectorFromAtoB m →
  ∃ s' m',
    AddForce pop s = (Ok (), s')
    ∧ mElementsHaveCorners (this s') = Some true
    ∧ meshes s' !! rGetMesh pop = Some m'
    ∧ ∀ (i : nat) e,
        Mesh.mElements m !! i = Some e →
        ∃ w,
          recorded_length GetVectorFromAtoB m e w
          ∧ Element.rGetElementAttributes <$> Mesh.mElements m' !! i
            = Some (Element.rGetElementAttributes e ++ [w; w])
          ∧ GetApicalLengthForElement (Z.of_nat i) s' = (Ok w, s')
          ∧ GetBasalLengthForElement (Z.of_nat i) s' = (Ok w, s')
          ∧ ∀ ns,
              let moved :=
                mkState (this s') (<[rGetMesh pop := with_nodes m' ns]> (meshes s')) in
              (GetApicalLengthForElement (Z.of_nat i) moved).1 = Ok w
              ∧ (GetBasalLengthForElement (Z.of_nat i) moved).1 = Ok w.
Proof.
  intros Hnull Hm Hsz H0 Hcorners Hattrs Hwf Hlen.
  destruct (first_call_Ok pop s m e0) as (s' & Hcall & Hflag); try done.
  pose proof (baseline_lengths_inv GetVectorFromAtoB norm_2
                GetAverageNodeSpacingOfElement DIM pop s s' m Hnull Hm Hsz Hcall Hflag)
    as Hinv.
  destruct (Hinv 0%nat e0 H0) as (_ & m' & _ & Hm' & _).
  { by apply (Hlen e0 (list_elem_of_lookup_2 _ _ _ H0)). }
  exists s', m'. split; [done|]. split; [done|]. split; [done|].
  intros i e He.
  destruct (Hinv i e He) as (w & m'' & Hw & Hm'' & Hrest).
  { by apply (Hlen e (list_elem_of_lookup_2 _ _ _ He)). }
  simplify_eq. by exists w.
Qed.

End FirstCall.

(** ** The theorems on the two squares *)

Lemma two_squares_well_formed c0 c1 a0 a1 :
  well_formed_elements (two_squares c0 c1 a0 a1).
Proof.
  intros e He. repeat (apply elem_of_cons in He as [->|He]);
    [..|by apply elem_of_nil in He];
    (split; [split; [by vm_compute|refine (bool_decide_unpack _ _); by vm_compute]|]);
    (split; [refine (bool_decide_unpack _ _); by vm_compute|by vm_compute]).
Qed.

Lemma two_squares_disjoint c0 c1 a0 a1 : disjoint_elements (two_squares c0 c1 a0 a1).
Proof.
  intros pos pos' e e' p Hne He He' Hp.
  destruct pos as [|[|pos]], pos' as [|[|pos']]; try done; simpl in *; simplify_eq;
    intros Hp'; simpl in *;
    repeat (apply elem_of_cons in Hp as [->|Hp]);
    try (by apply elem_of_nil in Hp);
    repeat (apply elem_of_cons in Hp' as [?|Hp']);
    try (by apply elem_of_nil in Hp'); try done.
Qed.


Lemma two_squares_corners : well_formed_corners (two_squares true true [] []).
Proof.
  intros e He. repeat (apply elem_of_cons in He as [->|He]);
    [..|by apply elem_of_nil in He];
    (split; [split; [by vm_compute|refine (bool_decide_unpack _ _); by vm_compute]|]);
    (split; [refine (bool_decide_unpack _ _); by vm_compute|]);
    intros _; exists 1, 0, 3, 2; (split; [unfold vec_size; simpl; lia|done]).
Qed.

Lemma two_squares_lengths :
  lengths_defined unit_square_GetVectorFromAtoB (two_squares true true [] []).
Proof.
  intros e He. repeat (apply elem_of_cons in He as [->|He]);
    [..|by apply elem_of_nil in He];
    (split; [by vm_compute|]); (split; [by vm_compute|]);
    intros _; eexists; vm_compute; reflexivity.
Qed.

(** The first call on two squares with corners completes, and both
    getters return 0.25 for the first square: the width of the square. *)
Lemma C5_witness :
  ∃ s',
    AddImmersedBoundaryForceContribution unit_square_GetVectorFromAtoB ublas_norm_2
      perimeter_GetAverageNodeSpacingOfElement 2 population
      (fresh (two_squares true true [] []))
    = (Ok (), s')
    ∧ GetApicalLengthForElement 0 s' = (Ok 0.25%float, s')
    ∧ GetBasalLengthForElement 0 s' = (Ok 0.25%float, s').
Proof.
  destruct (C5_baseline_lengths unit_square_GetVectorFromAtoB ublas_norm_2
              perimeter_GetAverageNodeSpacingOfElement 2 population
              (fresh (two_squares true true [] []))
              (two_squares true true [] []) (square_element 0 0 true [])
              eq_refl eq_refl ltac:(by vm_compute) eq_refl
              ltac:(by repeat constructor) ltac:(by repeat constructor)
              two_squares_corners two_squares_lengths)
    as (s' & m' & Hcall & _ & _ & Hall).
  destruct (Hall 0%nat (square_element 0 0 true []) eq_refl)
    as (w & Hw & _ & Hapical & Hbasal & _).
  vm_compute in Hw. injection Hw as <-.
  exists s'. split; [exact Hcall|]. split; [exact Hapical|exact Hbasal].
Defined.

(** C5 as stated fails: on the two squares the setup appends 0.25 to the
    first square, twice, while the planar distance between its node 0 and
    its node 2, two opposite corners, is the length of the diagonal. *)
Lemma C5_counterexample :
  ∃ s' m',
    AddImmersedBoundaryForceContribution unit_square_GetVectorFromAtoB ublas_norm_2
      perimeter_GetAverageNodeSpacingOfElement 2 population
      (fresh (two_squares true true [] []))
    = (Ok (), s')
    ∧ meshes s' !! 0%nat = Some m'
    ∧ Element.rGetElementAttributes <$> Mesh.mElements m' !! 0%nat
      = Some [0.25%float; 0.25%float]
    ∧ planar_distance unit_square_GetVectorFromAtoB ublas_norm_2
        (two_squares true true [] []) (square_element 0 0 true [])
      = 0x1.6a09e667f3bcdp-2%float
    ∧ (planar_distance unit_square_GetVectorFromAtoB ublas_norm_2
         (two_squares true true [] []) (square_element 0 0 true [])
       =? 0.25)%float = false.
Proof.
  eexists _, _. split; [by vm_compute|]. split; [reflexivity|].
  split; [reflexivity|]. split; by vm_compute.
Qed.

Lemma two_squares_valid c0 c1 a0 a1 :
  valid_nodes (two_squares c0 c1 a0 a1) (square_element 0 0 c0 a0).
Proof. split; [by vm_compute|]. refine (bool_decide_unpack _ _). by vm_compute. Qed.


(** With the rest-length multiplier set to one, every segment of the
    first of the two squares is at rest length and no force is added. *)
Lemma C8_witness :
  ∃ ns',
    element_contribution unit_square_GetVectorFromAtoB ublas_norm_2
      perimeter_GetAverageNodeSpacingOfElement 2
      (SetRestLengthMultiplier 1 ImmersedBoundaryMembraneElasticityForce) population
      (square_element 0 0 false []) (two_squares false false [] [])
    = Ok (with_nodes (two_squares false false [] []) ns')
    ∧ Forall (λ c, is_zero c = true) (concat (Node.mAppliedForce <$> ns')).
Proof.
  destruct (C8_zero_force_at_rest_length unit_square_GetVectorFromAtoB ublas_norm_2
              perimeter_GetAverageNodeSpacingOfElement 2
              (SetRestLengthMultiplier 1 ImmersedBoundaryMembraneElasticityForce)
              population (square_element 0 0 false []) (two_squares false false [] []))
    as (ns' & Hrun & _).
  - apply two_squares_valid.
  - refine (bool_decide_unpack _ _). by vm_compute.
  - by vm_compute.
  - by vm_compute.
  - by vm_compute.
  - by vm_compute.
  - intros j Hj. change (vec_size _) with 4 in Hj.
    assert (j = 0 ∨ j = 1 ∨ j = 2 ∨ j = 3) as [-> | [-> | [-> | ->]]] by lia;
      (split; [by vm_compute|repeat constructor]).
  - exists ns'. split; [done|].
    assert (Ok (with_nodes (two_squares false false [] []) ns')
            = element_contribution unit_square_GetVectorFromAtoB ublas_norm_2
                perimeter_GetAverageNodeSpacingOfElement 2
                (SetRestLengthMultiplier 1 ImmersedBoundaryMembraneElasticityForce)
                population (square_element 0 0 false [])
                (two_squares false false [] [])) as Heq by done.
    vm_compute in Heq. simplify_eq. repeat constructor.
Defined.

(** C8 as stated fails: in the collapsed element every segment has
    length zero, which is the rest length used for it, and the force
    added to every node is a NaN in every component. *)
Lemma C8_counterexample :
  ∃ m',
    element_contribution unit_square_GetVectorFromAtoB ublas_norm_2
      perimeter_GetAverageNodeSpacingOfElement 2
      ImmersedBoundaryMembraneElasticityForce population
      collapsed_element collapsed_mesh
    = Ok m'
    ∧ Forall (λ j, ublas_norm_2
                     (displacement unit_square_GetVectorFromAtoB collapsed_mesh
                        collapsed_element j)
                   = claimed_rest_length perimeter_GetAverageNodeSpacingOfElement
                       ImmersedBoundaryMembraneElasticityForce collapsed_mesh
                       collapsed_element)
        (seqZ 0 3)
    ∧ Forall (λ c, is_nan c = true ∧ is_zero c = false) (concat (forces m')).
Proof.
  eexists. split; [by vm_compute|]. split.
  - repeat constructor.
  - repeat constructor.
Qed.

(** * Further properties of the force class *)

(** ** What a call leaves alone *)

(** What a node is, apart from what the force class writes to it: its
    global index and its position. *)
Definition node_geometry (n : Node.t) : Z * c_vector :=
  (Node.mIndex n, Node.mLocation n).

(** What an element is, apart from its attributes: its index, its nodes
    and its corners. *)
Definition element_shape (e : Element.t) : Z * list nat * list nat :=
  (Element.mIndex e, Element.mNodes e, Element.mCornerNodes e).

Lemma GetNode_elem_of e j p : Element.GetNode e j = Ok p → p ∈ Element.mNodes e.
Proof.
  unfold Element.GetNode. destruct (_ <? _); [|done].
  intros [_ Hp]%vec_at_Ok. by eapply list_elem_of_lookup_2.
Qed.

Lemma update_node_other p g m m' q :
  Mesh.update_node p g m = Ok m' → q ≠ p → Mesh.mNodes m' !! q = Mesh.mNodes m !! q.
Proof. intros ->%update_node_inv Hne. simpl. by rewrite list_lookup_alter_ne. Qed.

(** A loop over the elements keeps what each of its steps keeps, a step
    being a run of the body on an element of the mesh it finds. *)
Lemma iterate_preserves_at (P : Mesh.t → Prop) positions body m m' :
  (∀ pos e m m', Mesh.mElements m !! pos = Some e → body pos e m = Ok m' → P m → P m') →
  P m → Mesh.iterate positions body m = Ok m' → P m'.
Proof.
  intros Hb. revert m. induction positions as [|pos rest IH]; intros m HP Hr;
    simpl in Hr; [by simplify_eq|].
  apply bind_Ok in Hr as (e & He%of_option_Ok & Hr).
  apply bind_Ok in Hr as (m1 & Hm1 & Hr). eauto.
Qed.

Section FramesOfACall.
Context (GetVectorFromAtoB : c_vector → c_vector → c_vector).
Context (norm_2 : c_vector → float).
Context (GetAverageNodeSpacingOfElement : Mesh.t → Z → bool → float).
Context (DIM : nat).

Local Abbreviation AddForce :=
  (AddImmersedBoundaryForceContribution GetVectorFromAtoB norm_2
     GetAverageNodeSpacingOfElement DIM).

(** The spring forces of an element reach the nodes of the element
    only. *)
Lemma element_contribution_other f pop e m m' p :
  element_contribution GetVectorFromAtoB norm_2 GetAverageNodeSpacingOfElement DIM
    f pop e m = Ok m' →
  p ∉ Element.mNodes e → Mesh.mNodes m' !! p = Mesh.mNodes m !! p.
Proof.
  rewrite element_contribution_loops. intros H Hp.
  apply bind_Ok in H as (efn & _ & H). revert H.
  apply (for_loop_preserves (λ m1, Mesh.mNodes m1 !! p = Mesh.mNodes m !! p)); [|done].
  intros i m1 m2 Hb Hm1. rewrite <- Hm1.
  apply bind_Ok in Hb as (v & _ & Hb). apply bind_Ok in Hb as (w & _ & Hb).
  apply bind_Ok in Hb as (q & Hq%GetNode_elem_of & Hb).
  eapply update_node_other; [exact Hb|]. by intros ->.
Qed.

Lemma force_loop_other f pop m m' p :
  Mesh.for_each_element
    (λ _ e m, element_contribution GetVectorFromAtoB norm_2
                GetAverageNodeSpacingOfElement DIM f pop e m) m
  = Ok m' →
  (∀ e, e ∈ Mesh.mElements m → p ∉ Element.mNodes e) →
  Mesh.mNodes m' !! p = Mesh.mNodes m !! p.
Proof.
  intros Hloop Hp.
  apply (iterate_preserves_at
    (λ m1, Mesh.mElements m1 = Mesh.mElements m
           ∧ Mesh.mNodes m1 !! p = Mesh.mNodes m !! p)) in Hloop; [by apply Hloop| |done].
  intros pos e m1 m2 He Hb [Helems Hnodes].
  pose proof (element_contribution_agree GetVectorFromAtoB norm_2
                GetAverageNodeSpacingOfElement DIM but_force f pop e m1 m2
                ltac:(done) Hb) as (He2 & _ & _).
  split; [congruence|]. rewrite <- Hnodes.
  apply (element_contribution_other f pop e m1 m2 p Hb). apply Hp.
  rewrite Helems in He. by eapply list_elem_of_lookup_2.
Qed.

(** How a force computation that completes has run. *)
Lemma force_computation_inv pop s s' :
  force_computation GetVectorFromAtoB norm_2 GetAverageNodeSpacingOfElement DIM pop s
  = (Ok (), s') →
  ∃ a m m',
    mpMesh (this s) = Some a ∧ meshes s !! a = Some m
    ∧ Mesh.for_each_element
        (λ _ e m, element_contribution GetVectorFromAtoB norm_2
                    GetAverageNodeSpacingOfElement DIM (this s) pop e m) m
      = Ok m'
    ∧ s' = mkState (this s) (<[a := m']> (meshes s)).
Proof.
  unfold force_computation. call_unfold. intros H.
  destruct (mpMesh (this s)) as [a|] eqn:Ha; [|discriminate].
  destruct (meshes s !! a) as [m|] eqn:Hm; [|discriminate].
  match type of H with context [Mesh.for_each_element ?b ?m0] =>
    destruct (Mesh.for_each_element b m0) as [m'| |] eqn:Hloop
  end; [|discriminate..].
  exists a, m, m'. repeat split; try done. unfold set_mesh in H. by simplify_eq.
Qed.

(** X1.  A call on a force object whose mesh is bound, when it completes,
    has written to the force accumulators of the bound mesh and to
    nothing else: the force object is as it was, no other mesh is
    touched, and on the bound mesh the positions, global indices and
    region tags of the nodes, the elements and the membrane index are
    unchanged, as is every node that belongs to no element. *)
Theorem X1_later_call_writes_accumulators_only pop s s' :
  is_Some (mpMesh (this s)) →
  AddForce pop s = (Ok (), s') →
  this s' = this s
  ∧ ∃ a m m',
      mpMesh (this s) = Some a ∧ meshes s !! a = Some m
      ∧ meshes s' = <[a := m']> (meshes s)
      ∧ agree but_force m m'
      ∧ ∀ p, (∀ e, e ∈ Mesh.mElements m → p ∉ Element.mNodes e) →
          Mesh.mNodes m' !! p = Mesh.mNodes m !! p.
Proof.
  intros Hbound Hcall. rewrite AddForce_bound in Hcall by done.
  apply force_computation_inv in Hcall as (a & m & m' & Ha & Hm & Hloop & ->).
  split; [done|]. exists a, m, m'. repeat split; try done.
  - by apply force_loop_agree with (π := but_force) in Hloop as (? & _ & _).
  - by apply force_loop_agree with (π := but_force) in Hloop as (_ & ? & _).
  - by apply force_loop_agree with (π := but_force) in Hloop as (_ & _ & ?).
  - intros p Hp. by apply (force_loop_other (this s) pop m m' p).
Qed.

Lemma TagApicalAndBasalLengths_shape m m' :
  TagApicalAndBasalLengths GetVectorFromAtoB m = Ok m' →
  Mesh.mNodes m' = Mesh.mNodes m
  ∧ Mesh.mMembraneIndex m' = Mesh.mMembraneIndex m
  ∧ element_shape <$> Mesh.mElements m' = element_shape <$> Mesh.mElements m.
Proof.
  intros (Hn & Hi & Hl & Hsteps)%TagApicalAndBasalLengths_inv.
  split; [done|]. split; [done|]. apply list_eq. intros i.
  rewrite !list_lookup_fmap.
  destruct (Mesh.mElements m !! i) as [e|] eqn:He.
  - destruct (Hsteps i e He) as (w & _ & ->). done.
  - rewrite (lookup_ge_None_2 (Mesh.mElements m')); [done|].
    rewrite Hl. by apply lookup_ge_None_1.
Qed.

(** X2.  The first call, when it completes, has bound the mesh of the
    population it was given and kept the four spring parameters; it has
    touched no other mesh, and on the bound mesh it has moved no node and
    changed no global index, no element's index, node list or corner
    list, and not the membrane index: whatever it wrote went to region
    tags, element attributes and force accumulators. *)
Theorem X2_first_call_keeps_geometry pop s s' :
  mpMesh (this s) = None →
  AddForce pop s = (Ok (), s') →
  mpMesh (this s') = Some (rGetMesh pop)
  ∧ mSpringConstant (this s') = mSpringConstant (this s)
  ∧ mRestLengthMultiplier (this s') = mRestLengthMultiplier (this s)
  ∧ mBasementSpringConstantModifier (this s') = mBasementSpringConstantModifier (this s)
  ∧ mBasementRestLengthModifier (this s') = mBasementRestLengthModifier (this s)
  ∧ ∃ m m',
      meshes s !! rGetMesh pop = Some m
      ∧ meshes s' = <[rGetMesh pop := m']> (meshes s)
      ∧ node_geometry <$> Mesh.mNodes m' = node_geometry <$> Mesh.mNodes m
      ∧ element_shape <$> Mesh.mElements m' = element_shape <$> Mesh.mElements m
      ∧ Mesh.mMembraneIndex m' = Mesh.mMembraneIndex m.
Proof.
  intros Hnull Hcall. rewrite AddForce_unbound in Hcall by done.
  destruct (setup GetVectorFromAtoB pop s) as [[[]| |] s1] eqn:Hsetup; [|discriminate..].
  apply force_computation_inv in Hcall as (a & m2 & m3 & Ha & Hm2 & Hloop & ->).
  apply force_loop_agree with (π := node_geometry) in Hloop as (He3 & Hi3 & Hn3); [|done].
  rewrite setup_unfold in Hsetup. cbv zeta in Hsetup.
  destruct (meshes s !! rGetMesh pop) as [m|] eqn:Hm; [|discriminate].
  pose proof (lookup_lt_Some _ _ _ Hm) as Hlt.
  destruct (verify_corners m) as [num_corners| |]; [|discriminate..].
  destruct (num_corners =? 4).
  - destruct (Mesh.GetElement m 0) as [e0| |]; [|discriminate..].
    destruct (verify_attributes _ m) as [[]| |]; [|discriminate..].
    destruct (TagNodeRegions m) as [m1| |] eqn:Htag; [|discriminate..].
    destruct (TagApicalAndBasalLengths GetVectorFromAtoB m1) as [m2'| |] eqn:Hlen;
      [|discriminate..].
    simplify_eq. simpl in *. simplify_eq.
    rewrite list_lookup_insert_eq in Hm2 by (by rewrite length_insert). simplify_eq.
    apply TagNodeRegions_agree with (π := node_geometry) in Htag as (He1 & Hi1 & Hn1);
      [|done].
    apply TagApicalAndBasalLengths_shape in Hlen as (Hn2 & Hi2 & He2).
    repeat split; try done.
    exists m, m3. split; [done|]. split; [by rewrite !list_insert_insert_eq|].
    split; [by rewrite Hn3, Hn2|]. split; [by rewrite He3, He2, He1|]. congruence.
  - simplify_eq. simpl in *. simplify_eq. repeat split; try done.
    exists m, m3. split; [done|]. split; [done|]. split; [done|].
    split; [by rewrite He3|done].
Qed.

End FramesOfACall.

(** ** The validation at the first call *)

(** A loop that throws has a step that throws. *)
Lemma for_steps_Exception_inv {S} (body : Z → S → Result S) n lo s msg :
  for_steps n lo body s = Exception msg →
  ∃ i s1, lo ≤ i < lo + Z.of_nat n ∧ body i s1 = Exception msg.
Proof.
  revert lo s. induction n as [|n IH]; intros lo s H; simpl in H; [done|].
  apply bind_Exception in H as [H|(s1 & _ & H)].
  - exists lo, s. split; [lia|done].
  - destruct (IH _ _ H) as (i & s2 & Hi & Hb). exists i, s2. split; [lia|done].
Qed.

(** A check of every element but the first throws only its own message,
    and only for an element that fails the test. *)
Lemma verify_loop_Exception_inv m (test : Element.t → bool) msg msg' :
  for_loop 1 (Mesh.GetNumElements m)
    (λ elem_idx (_ : ()),
       e ← Mesh.GetElement m elem_idx;
       if test e then Exception msg else Ok ())
    ()
  = Exception msg' →
  msg' = msg
  ∧ ∃ (i : nat) e, (0 < i)%nat ∧ Mesh.mElements m !! i = Some e ∧ test e = true.
Proof.
  unfold for_loop. intros (i & [] & Hi & Hb)%for_steps_Exception_inv.
  apply bind_Exception in Hb as [Hb|(e & He & Hb)];
    [by apply GetElement_not_Exception in Hb|].
  destruct (test e) eqn:Htest; [|discriminate]. simplify_eq. split; [done|].
  unfold Mesh.GetElement in He. destruct (_ <? _); [|discriminate].
  apply vec_at_Ok in He as [_ He].
  exists (Z.to_nat i), e. split; [lia|done].
Qed.

Section FirstCallPaths.
Context (GetVectorFromAtoB : c_vector → c_vector → c_vector).
Context (norm_2 : c_vector → float).
Context (GetAverageNodeSpacingOfElement : Mesh.t → Z → bool → float).
Context (DIM : nat).

Local Abbreviation AddForce :=
  (AddImmersedBoundaryForceContribution GetVectorFromAtoB norm_2
     GetAverageNodeSpacingOfElement DIM).

(** X3.  The call throws at the first call only, and never without
    cause: when it throws, the mesh pointer was null, and either the
    message is the corner-count message and some element after the first
    has a corner count other than that read from element 0, or the
    message is the attribute-count message, element 0 has four corners
    and some element after the first has an attribute count other than
    that of element 0. *)
Theorem X3_exceptions_have_a_cause pop s msg s' :
  AddForce pop s = (Exception msg, s') →
  mpMesh (this s) = None
  ∧ ∃ m e0 (i : nat) e,
      meshes s !! rGetMesh pop = Some m
      ∧ Mesh.mElements m !! 0%nat = Some e0
      ∧ (0 < i)%nat ∧ Mesh.mElements m !! i = Some e
      ∧ ((msg = corners_message
          ∧ vec_size (Element.rGetCornerNodes e)
            ≠ to_unsigned (vec_size (Element.rGetCornerNodes e0)))
         ∨ (msg = attributes_message
            ∧ to_unsigned (vec_size (Element.rGetCornerNodes e0)) = 4
            ∧ Element.GetNumElementAttributes e ≠ Element.GetNumElementAttributes e0)).
Proof.
  intros Hcall. destruct (mpMesh (this s)) as [a|] eqn:Ha.
  { rewrite AddForce_bound in Hcall by by rewrite Ha.
    by apply force_computation_not_Exception in Hcall. }
  split; [done|]. rewrite AddForce_unbound in Hcall by done.
  destruct (setup GetVectorFromAtoB pop s) as [[[]| |] s1] eqn:Hsetup;
    [by apply force_computation_not_Exception in Hcall| |discriminate].
  simplify_eq. rewrite setup_unfold in Hsetup. cbv zeta in Hsetup.
  destruct (meshes s !! rGetMesh pop) as [m|] eqn:Hm; [|discriminate].
  exists m. unfold verify_corners in Hsetup.
  destruct (Mesh.GetElement m 0) as [e0| |] eqn:H0; simpl in Hsetup;
    [|by apply GetElement_not_Exception in H0|discriminate].
  assert (Mesh.mElements m !! 0%nat = Some e0) as He0.
  { unfold Mesh.GetElement in H0. destruct (_ <? _); [|done].
    by apply vec_at_Ok in H0 as [_ ?]. }
  exists e0.
  match type of Hsetup with context [for_loop 1 ?n ?b ()] =>
    destruct (for_loop 1 n b ()) as [[]| |] eqn:Hcorners
  end; simpl in Hsetup; [|simplify_eq|discriminate].
  - destruct (Z.eqb_spec (to_unsigned (vec_size (Element.rGetCornerNodes e0))) 4)
      as [H4|]; [|discriminate].
    destruct (verify_attributes _ m) as [[]| |] eqn:Hattrs; [|simplify_eq|discriminate].
    + destruct (TagNodeRegions m) as [m1| |] eqn:Htag.
      * destruct (TagApicalAndBasalLengths GetVectorFromAtoB m1) as [m2| |] eqn:Hlen;
          [discriminate| |discriminate].
        by apply TagApicalAndBasalLengths_not_Exception in Hlen.
      * by apply TagNodeRegions_not_Exception in Htag.
      * discriminate.
    + apply (verify_loop_Exception_inv m
               (λ e, negb (Element.GetNumElementAttributes e0
                           =? Element.GetNumElementAttributes e)))
        in Hattrs as (-> & i & e & Hi & He & Htest).
      exists i, e. repeat split; try done. right. repeat split; try done.
      apply negb_true_iff, Z.eqb_neq in Htest. congruence.
  - apply (verify_loop_Exception_inv m
             (λ e, negb (to_unsigned (vec_size (Element.rGetCornerNodes e0))
                         =? vec_size (Element.rGetCornerNodes e))))
      in Hcorners as (-> & i & e & Hi & He & Htest).
    exists i, e. repeat split; try done. left. split; [done|].
    apply negb_true_iff, Z.eqb_neq in Htest. congruence.
Qed.

(** X4.  When every element has the corner count of element 0 and that
    count is not four, the first call tags no region and appends no
    attribute: it binds the mesh, records that the elements have no
    corners, and is then the force computation on the meshes as they
    were. *)
Theorem X4_without_corners_no_tagging pop s m e0 :
  mpMesh (this s) = None →
  meshes s !! rGetMesh pop = Some m →
  Mesh.mElements m !! 0%nat = Some e0 →
  vec_size (Element.rGetCornerNodes e0) ≤ UINT_MAX →
  vec_size (Element.rGetCornerNodes e0) ≠ 4 →
  Forall (λ e, vec_size (Element.rGetCornerNodes e)
               = vec_size (Element.rGetCornerNodes e0)) (Mesh.mElements m) →
  AddForce pop s
  = force_computation GetVectorFromAtoB norm_2 GetAverageNodeSpacingOfElement DIM pop
      (mkState (record_corners false (bind_mesh (rGetMesh pop) (this s))) (meshes s)).
Proof.
  intros Hnull Hm H0 Hmax Hne Hall. rewrite AddForce_unbound by done.
  rewrite setup_unfold. cbv zeta. rewrite Hm, (verify_corners_uniform m e0) by done.
  by destruct (Z.eqb_spec (vec_size (Element.rGetCornerNodes e0)) 4).
Qed.

(** X5.  Once the mesh is bound the call works on the bound mesh,
    whatever mesh the population it is given has: of the population it
    reads the intrinsic spacing only. *)
Theorem X5_bound_mesh_is_kept pop pop' s :
  is_Some (mpMesh (this s)) →
  GetIntrinsicSpacing pop' = GetIntrinsicSpacing pop →
  AddImmersedBoundaryForceContribution GetVectorFromAtoB norm_2
    GetAverageNodeSpacingOfElement DIM pop' s
  = AddImmersedBoundaryForceContribution GetVectorFromAtoB norm_2
      GetAverageNodeSpacingOfElement DIM pop s.
Proof.
  intros Hbound Hspacing. rewrite !AddForce_bound by done.
  destruct pop as [a x], pop' as [a' x']. simpl in Hspacing. by subst.
Qed.

End FirstCallPaths.

(** ** The region tags that the tagging leaves *)

(** One of the three region tags. *)
Definition is_region_tag (t : Z) : Prop := t = msBas ∨ t = msApi ∨ t = msLat.

(** Every node of the element carries one of the three region tags. *)
Definition element_tagged (e : Element.t) (m : Mesh.t) : Prop :=
  ∀ p, p ∈ Element.mNodes e →
    ∃ n, Mesh.mNodes m !! p = Some n ∧ is_region_tag (Node.mRegion n).

Lemma last_range_tag_elem_of ranges j t :
  last_range_tag ranges j = Some t → ∃ lo hi, (lo, hi, t) ∈ ranges.
Proof.
  unfold last_range_tag.
  assert (∀ acc, foldl (λ tag '(lo, hi, t), if in_range lo hi j then Some t else tag)
                   acc ranges = Some t →
            acc = Some t ∨ ∃ lo hi, (lo, hi, t) ∈ ranges) as Hgen.
  { induction ranges as [|[[lo hi] t'] ranges IH]; intros acc H; simpl in H; [by left|].
    destruct (IH _ H) as [Hacc|(lo' & hi' & Hin)].
    - destruct (in_range lo hi j); [|by left].
      simplify_eq. right. exists lo, hi. by left.
    - right. exists lo', hi'. by right. }
  intros H. by destruct (Hgen None H).
Qed.

Lemma region_ranges_tags n i0 i1 i2 i3 j t :
  last_range_tag (region_ranges n i0 i1 i2 i3) j = Some t → is_region_tag t.
Proof.
  intros (lo & hi & Hin)%last_range_tag_elem_of. unfold region_ranges, is_region_tag in *.
  repeat (apply elem_of_cons in Hin as [Hin|Hin]; [simplify_eq; tauto|]).
  by apply elem_of_nil in Hin.
Qed.

Lemma elem_of_node_ptr e p :
  p ∈ Element.mNodes e → ∃ j, 0 ≤ j < vec_size (Element.mNodes e) ∧ node_ptr e j = p.
Proof.
  intros [i Hi]%list_elem_of_lookup_1. exists (Z.of_nat i).
  pose proof (lookup_lt_Some _ _ _ Hi). unfold vec_size, node_ptr.
  split; [lia|]. by rewrite Nat2Z.id, Hi.
Qed.

(** The tagging of an element leaves a region tag on each of its nodes,
    and on every other node what it found there. *)
Lemma TagNodeRegions_element_tags m m1 m2 e :
  well_formed_corners m → e ∈ Mesh.mElements m → agree but_region m m1 →
  TagNodeRegions_element e m1 = Ok m2 →
  element_tagged e m2
  ∧ ∀ p, p ∉ Element.mNodes e → Mesh.mNodes m2 !! p = Mesh.mNodes m1 !! p.
Proof.
  intros Hwf He Hm1 Hrun.
  destruct (well_formed_corners_agree m m1 e Hwf He Hm1) as (Hv & Hd & Hi).
  destruct (TagNodeRegions_element_spec m1 e Hv Hd) as [Hmem Hoth].
  assert (∀ p, p ∈ Element.mNodes e → is_Some (Mesh.mNodes m1 !! p)) as Hlive.
  { intros p Hp. apply lookup_lt_is_Some_2. destruct Hv as [_ Hall].
    by apply (proj1 (Forall_forall _ _) Hall). }
  destruct (decide (Mesh.GetMembraneIndex m = Element.GetIndex e)) as [Heq|Hne].
  - destruct Hmem as (ns' & Hrun' & Hnodes & Hother); [congruence|].
    rewrite Hrun in Hrun'. simplify_eq. split; [|done].
    intros p Hp. destruct (elem_of_node_ptr e p Hp) as (j & Hj & <-).
    destruct (Hlive _ Hp) as [n Hn]. exists (Node.SetRegion msBas n). simpl.
    rewrite Hnodes, Hn by done. split; [done|]. by left.
  - destruct (Hwf e He) as (_ & _ & Hc).
    destruct (Hc Hne) as (i0 & i1 & i2 & i3 & (Hi0 & Hi1 & Hi2 & Hi3) & Hcorners).
    destruct (Hoth i0 i1 i2 i3) as (ns' & Hrun' & Hnodes & Hother); [congruence|done..|].
    rewrite Hrun in Hrun'. simplify_eq. split; [|done].
    intros p Hp. destruct (elem_of_node_ptr e p Hp) as (j & Hj & <-).
    destruct (Hlive _ Hp) as [n Hn]. destruct (Hnodes j Hj) as (t & Ht & Hlook).
    exists (Node.SetRegion t n). simpl. rewrite Hlook, Hn. split; [done|].
    by apply region_ranges_tags in Ht.
Qed.

(** A loop over the elements whose body completes on every mesh that
    agrees with the initial one on what [π] reads, leaves such a mesh,
    establishes [Q] for the element it stands on and keeps it for the
    others: it completes and leaves [Q] established for every element. *)
Lemma iterate_establishes {B} (π : Node.t → B) (Q : Element.t → Mesh.t → Prop) body m :
  (∀ pos e m1, Mesh.mElements m !! pos = Some e → agree π m m1 →
     ∃ m2, body pos e m1 = Ok m2 ∧ agree π m1 m2 ∧ Q e m2
       ∧ ∀ e', e' ∈ Mesh.mElements m → Q e' m1 → Q e' m2) →
  ∃ m', Mesh.for_each_element body m = Ok m' ∧ agree π m m'
    ∧ ∀ e, e ∈ Mesh.mElements m → Q e m'.
Proof.
  intros Hbody. unfold Mesh.for_each_element.
  assert (∀ n k mk,
    (k + n = length (Mesh.mElements m))%nat → agree π m mk →
    (∀ pos e, (pos < k)%nat → Mesh.mElements m !! pos = Some e → Q e mk) →
    ∃ m', Mesh.iterate (seq k n) body mk = Ok m' ∧ agree π m m'
      ∧ ∀ e, e ∈ Mesh.mElements m → Q e m') as Hgen.
  { induction n as [|n IH]; intros k mk Hkn Hagree Hdone.
    - exists mk. split; [done|]. split; [done|].
      intros e [pos He]%list_elem_of_lookup_1. apply (Hdone pos); [|done].
      apply lookup_lt_Some in He. lia.
    - destruct (lookup_lt_is_Some_2 (Mesh.mElements m) k) as [e He]; [lia|].
      destruct (Hbody k e mk He Hagree) as (m2 & Hrun & H12 & HQ & Hkeep).
      destruct (IH (S k) m2) as (m' & Hiter & Hm' & Hall);
        [lia|by eapply agree_trans| |].
      + intros pos e' Hpos He'. destruct (decide (pos = k)) as [->|Hne].
        * by simplify_eq.
        * apply Hkeep; [by eapply list_elem_of_lookup_2|].
          apply (Hdone pos); [lia|done].
      + exists m'. split; [|done]. simpl.
        destruct Hagree as (-> & _ & _). rewrite He. simpl. by rewrite Hrun. }
  apply (Hgen _ 0%nat m); [done|apply agree_refl|]. intros pos e Hpos. lia.
Qed.

(** X6.  The region tagging of a well-formed mesh completes and leaves
    one of the three region tags, basal, apical or lateral, on every node
    of every element, whatever tags the nodes carried before. *)
Theorem X6_tagging_covers_every_element m :
  well_formed_corners m →
  ∃ m', TagNodeRegions m = Ok m'
    ∧ ∀ e p, e ∈ Mesh.mElements m → p ∈ Element.mNodes e →
        ∃ n, Mesh.mNodes m' !! p = Some n
          ∧ (Node.mRegion n = msBas ∨ Node.mRegion n = msApi ∨ Node.mRegion n = msLat).
Proof.
  intros Hwf.
  destruct (iterate_establishes but_region element_tagged
              (λ _ e m, TagNodeRegions_element e m) m) as (m' & Hrun & _ & Hall).
  - intros pos e m1 He Hm1. apply list_elem_of_lookup_2 in He.
    destruct (TagNodeRegions_element_runs m m1 e Hwf He Hm1) as (m2 & Hrun & H12).
    exists m2. split; [done|]. split; [done|].
    destruct (TagNodeRegions_element_tags m m1 m2 e Hwf He Hm1 Hrun) as [Htags Hother].
    split; [done|]. intros e' He' Hdone p Hp.
    destruct (decide (p ∈ Element.mNodes e)) as [Hin|Hout]; [by apply Htags|].
    rewrite Hother by done. by apply Hdone.
  - exists m'. split; [done|]. intros e p He Hp. by apply (Hall e He p Hp).
Qed.

(** X7.  When the corners of an element that is not the membrane element
    come in the order the tagging expects, apical-right no later than
    apical-left, then basal-left no later than basal-right, the nodes
    from apical-right to apical-left, both included, are tagged apical,
    the nodes from basal-left to basal-right, both included, are tagged
    basal, and every other node is tagged lateral. *)
Theorem X7_corners_in_order m e i0 i1 i2 i3 :
  valid_nodes m e → distinct_indices m e →
  Mesh.GetMembraneIndex m ≠ Element.GetIndex e →
  corners_at e i0 i1 i2 i3 →
  i1 ≤ i0 → i0 < i3 → i3 ≤ i2 →
  ∃ ns', TagNodeRegions_element e m = Ok (with_nodes m ns')
    ∧ ∀ j, 0 ≤ j < vec_size (Element.mNodes e) →
        ns' !! node_ptr e j
        = Node.SetRegion
            (if (i1 <=? j) && (j <=? i0) then msApi
             else if (i3 <=? j) && (j <=? i2) then msBas
             else msLat)
          <$> Mesh.mNodes m !! node_ptr e j.
Proof.
  intros Hv Hd Hm ((H0 & H1 & H2 & H3) & Hc) H10 H03 H32.
  pose proof (distinct_indices_NoDup m e Hd) as Hnd.
  eexists. split.
  - apply (TagNodeRegions_element_other m e i0 i1 i2 i3); try done; by rewrite Hc.
  - intros j Hj. apply lookup_tagged_last; [done|by apply region_ranges_within|done|].
    rewrite region_ranges_ordered by lia. f_equal.
    destruct (Z.leb_spec i1 j), (Z.leb_spec j i0), (Z.leb_spec i3 j), (Z.leb_spec j i2),
      (Z.ltb_spec j i1), (Z.ltb_spec j (i0 + 1)), (Z.ltb_spec j i3),
      (Z.ltb_spec j (i2 + 1)); simpl; try done; lia.
Qed.

(** X8.  When apical-left comes before apical-right and basal-right
    before basal-left in the node order of an element that is not the
    membrane element, the apical and the basal range are empty and every
    node of the element is tagged lateral. *)
Theorem X8_corners_out_of_order m e i0 i1 i2 i3 :
  valid_nodes m e → distinct_indices m e →
  Mesh.GetMembraneIndex m ≠ Element.GetIndex e →
  corners_at e i0 i1 i2 i3 →
  i0 < i1 → i2 < i3 →
  ∃ ns', TagNodeRegions_element e m = Ok (with_nodes m ns')
    ∧ ∀ j, 0 ≤ j < vec_size (Element.mNodes e) →
        ns' !! node_ptr e j = Node.SetRegion msLat <$> Mesh.mNodes m !! node_ptr e j.
Proof.
  intros Hv Hd Hm ((H0 & H1 & H2 & H3) & Hc) H01 H23.
  pose proof (distinct_indices_NoDup m e Hd) as Hnd.
  eexists. split.
  - apply (TagNodeRegions_element_other m e i0 i1 i2 i3); try done; by rewrite Hc.
  - intros j Hj. apply lookup_tagged_last; [done|by apply region_ranges_within|done|].
    unfold last_range_tag, region_ranges, in_range. simpl.
    repeat match goal with
           | |- context [?a <=? ?b] => destruct (Z.leb_spec a b)
           | |- context [?a <? ?b] => destruct (Z.ltb_spec a b)
           end; simpl; try done; lia.
Qed.

(** Two runs of a loop over the elements, from two meshes that agree on
    what [π] reads: a relation between the two meshes that every pair of
    steps keeps holds between the meshes the two runs leave. *)
Lemma iterate_lockstep {B} (π : Node.t → B) (R : Mesh.t → Mesh.t → Prop) body m m0 :
  agree π m m0 → R m m0 →
  (∀ pos e a b, Mesh.mElements m !! pos = Some e →
     agree π m a → agree π m b → R a b →
     ∃ a' b', body pos e a = Ok a' ∧ body pos e b = Ok b'
       ∧ agree π a a' ∧ agree π b b' ∧ R a' b') →
  ∃ a' b', Mesh.for_each_element body m = Ok a'
    ∧ Mesh.for_each_element body m0 = Ok b'
    ∧ agree π m a' ∧ agree π m b' ∧ R a' b'.
Proof.
  intros Hm0 HR Hbody. unfold Mesh.for_each_element.
  destruct Hm0 as (He0 & Hi0 & Hn0). rewrite He0.
  assert (agree π m m0) as Hm0 by done.
  assert (∀ n k a b,
    (k + n = length (Mesh.mElements m))%nat → agree π m a → agree π m b → R a b →
    ∃ a' b', Mesh.iterate (seq k n) body a = Ok a'
      ∧ Mesh.iterate (seq k n) body b = Ok b'
      ∧ agree π m a' ∧ agree π m b' ∧ R a' b') as Hgen.
  { induction n as [|n IH]; intros k a b Hkn Ha Hb Hab; [by exists a, b|].
    destruct (lookup_lt_is_Some_2 (Mesh.mElements m) k) as [e He]; [lia|].
    destruct (Hbody k e a b He Ha Hb Hab) as (a1 & b1 & Hra & Hrb & Ha1 & Hb1 & HR1).
    destruct (IH (S k) a1 b1) as (a' & b' & Hia & Hib & Ha' & Hb' & HR');
      [lia|exact (agree_trans π m a a1 Ha Ha1)|exact (agree_trans π m b b1 Hb Hb1)
      |done|].
    exists a', b'. simpl.
    destruct Ha as (-> & _ & _), Hb as (-> & _ & _). rewrite He. simpl.
    by rewrite Hra, Hrb. }
  by apply (Hgen _ 0%nat m m0); [|apply agree_refl|..].
Qed.

(** The tags that the tagging of an element leaves on the nodes of the
    element do not depend on the tags it finds. *)
Lemma TagNodeRegions_element_independent m a b e :
  well_formed_corners m → e ∈ Mesh.mElements m →
  agree but_region m a → agree but_region m b →
  ∃ a' b',
    TagNodeRegions_element e a = Ok a' ∧ TagNodeRegions_element e b = Ok b'
    ∧ agree but_region a a' ∧ agree but_region b b'
    ∧ (∀ p, p ∈ Element.mNodes e →
         Node.mRegion <$> Mesh.mNodes a' !! p = Node.mRegion <$> Mesh.mNodes b' !! p)
    ∧ (∀ p, p ∉ Element.mNodes e →
         Mesh.mNodes a' !! p = Mesh.mNodes a !! p
         ∧ Mesh.mNodes b' !! p = Mesh.mNodes b !! p).
Proof.
  intros Hwf He Ha Hb.
  destruct (TagNodeRegions_element_runs m a e Hwf He Ha) as (a' & Hra & Haa').
  destruct (TagNodeRegions_element_runs m b e Hwf He Hb) as (b' & Hrb & Hbb').
  exists a', b'. split; [done|]. split; [done|]. split; [done|]. split; [done|].
  destruct (well_formed_corners_agree m a e Hwf He Ha) as (Hva & Hda & Hia).
  destruct (well_formed_corners_agree m b e Hwf He Hb) as (Hvb & Hdb & Hib).
  destruct (TagNodeRegions_element_spec a e Hva Hda) as [Hmema Hotha].
  destruct (TagNodeRegions_element_spec b e Hvb Hdb) as [Hmemb Hothb].
  assert (∀ (x : Mesh.t) p, valid_nodes x e → p ∈ Element.mNodes e →
            is_Some (Mesh.mNodes x !! p)) as Hlive.
  { intros x p [_ Hall] Hp. apply lookup_lt_is_Some_2.
    by apply (proj1 (Forall_forall _ _) Hall). }
  destruct (decide (Mesh.GetMembraneIndex m = Element.GetIndex e)) as [Heq|Hne].
  - destruct Hmema as (nsa & Hra' & Hna & Hoa); [congruence|].
    destruct Hmemb as (nsb & Hrb' & Hnb & Hob); [congruence|].
    rewrite Hra in Hra'. rewrite Hrb in Hrb'. simplify_eq. simpl. split; [|by split; auto].
    intros p Hp. destruct (elem_of_node_ptr e p Hp) as (j & Hj & <-).
    rewrite Hna, Hnb by done.
    destruct (Hlive a _ Hva Hp) as [na ->], (Hlive b _ Hvb Hp) as [nb ->]. done.
  - destruct (Hwf e He) as (_ & _ & Hc).
    destruct (Hc Hne) as (i0 & i1 & i2 & i3 & (Hi0 & Hi1 & Hi2 & Hi3) & Hcorners).
    destruct (Hotha i0 i1 i2 i3) as (nsa & Hra' & Hna & Hoa); [congruence|done..|].
    destruct (Hothb i0 i1 i2 i3) as (nsb & Hrb' & Hnb & Hob); [congruence|done..|].
    rewrite Hra in Hra'. rewrite Hrb in Hrb'. simplify_eq. simpl. split; [|by split; auto].
    intros p Hp. destruct (elem_of_node_ptr e p Hp) as (j & Hj & <-).
    destruct (Hna j Hj) as (ta & Hta & ->), (Hnb j Hj) as (tb & Htb & ->).
    rewrite Hta in Htb. simplify_eq.
    destruct (Hlive a _ Hva Hp) as [na ->], (Hlive b _ Hvb Hp) as [nb ->]. done.
Qed.

(** X9.  The region tagging of a well-formed mesh completes, and tagging
    the mesh it leaves once more changes nothing: the tags depend on the
    elements, their corners and the node indices, not on the tags that
    are there. *)
Theorem X9_tagging_twice_is_tagging_once m :
  well_formed_corners m →
  ∃ m', TagNodeRegions m = Ok m' ∧ TagNodeRegions m' = Ok m'.
Proof.
  intros Hwf. destruct (TagNodeRegions_Ok m Hwf) as (m' & Hrun & Hm').
  destruct (iterate_lockstep but_region
    (λ a b, ∀ p, Node.mRegion <$> Mesh.mNodes a !! p = Node.mRegion <$> Mesh.mNodes b !! p
                 ∨ Mesh.mNodes b !! p = Mesh.mNodes m' !! p)
    (λ _ e m, TagNodeRegions_element e m) m m')
    as (a' & b' & Hra & Hrb & Ha' & Hb' & HR); [done|by right| |].
  - intros pos e a b He Ha Hb Hab. apply list_elem_of_lookup_2 in He.
    destruct (TagNodeRegions_element_independent m a b e Hwf He Ha Hb)
      as (a1 & b1 & Hra & Hrb & Ha1 & Hb1 & Hin & Hout).
    exists a1, b1. repeat split; try done; try apply Ha1; try apply Hb1.
    intros p. destruct (decide (p ∈ Element.mNodes e)) as [Hp|Hp]; [left; by apply Hin|].
    destruct (Hout p Hp) as [-> ->]. apply Hab.
  - exists m'. split; [done|]. fold (TagNodeRegions m) in Hra.
    fold (TagNodeRegions m') in Hrb. rewrite Hrun in Hra. simplify_eq.
    rewrite Hrb. f_equal.
    destruct Ha' as (Hea & Hia & Hna), Hb' as (Heb & Hib & Hnb).
    destruct a' as [nsa ea ia], b' as [nsb eb ib]. simpl in *. f_equal; [|congruence..].
    apply list_eq. intros p.
    assert (but_region <$> nsb !! p = but_region <$> nsa !! p) as Hp.
    { by rewrite <- !list_lookup_fmap, Hna, Hnb. }
    destruct (HR p) as [Hreg|Hsame]; [|done].
    destruct (nsa !! p) as [na|], (nsb !! p) as [nb|]; simpl in *; try done.
    f_equal. injection Hp as Hindex Hlocation Hforce. injection Hreg as Hreg.
    destruct na, nb. simpl in *. by subst.
Qed.

(** ** The recorded lengths and the two getters *)

(** An absolute value is never below zero. *)
Lemma abs_not_negative x : (abs x <? 0)%float = false.
Proof.
  rewrite FloatAxioms.ltb_spec, FloatAxioms.abs_spec.
  change (Prim2SF 0) with (S754_zero false).
  by destruct (Prim2SF x) as [s|s| |s m e].
Qed.

Section RecordedLengths.
Context (GetVectorFromAtoB : c_vector → c_vector → c_vector).
Context (norm_2 : c_vector → float).
Context (GetAverageNodeSpacingOfElement : Mesh.t → Z → bool → float).
Context (DIM : nat).

Local Abbreviation AddForce :=
  (AddImmersedBoundaryForceContribution GetVectorFromAtoB norm_2
     GetAverageNodeSpacingOfElement DIM).

Lemma recorded_length_not_negative m e w :
  recorded_length GetVectorFromAtoB m e w → (w <? 0)%float = false.
Proof.
  unfold recorded_length, element_width. destruct (_ =? _); [by intros ->|].
  destruct (_ !! _) as [x|]; [|done]. intros [= <-]. apply abs_not_negative.
Qed.

(** X10.  On a mesh whose elements have live node pointers and, the
    membrane element apart, a node 0 and a first component of the
    displacement from node 0 to node floor(numNodes / 2), the recording
    of the baseline lengths completes; it appends to every element one
    value twice, a value that is never negative, and changes nothing
    else: not the nodes, not the number or the order of the elements,
    not an element's index, nodes, corners or earlier attributes. *)
Theorem X10_baseline_lengths_are_not_negative m :
  (∀ e, e ∈ Mesh.mElements m →
     valid_nodes m e
     ∧ (Mesh.GetMembraneIndex m ≠ Element.GetIndex e →
        0 < vec_size (Element.mNodes e)
        ∧ is_Some (element_width GetVectorFromAtoB m e))) →
  ∃ m', TagApicalAndBasalLengths GetVectorFromAtoB m = Ok m'
    ∧ Mesh.mNodes m' = Mesh.mNodes m
    ∧ Mesh.mMembraneIndex m' = Mesh.mMembraneIndex m
    ∧ length (Mesh.mElements m') = length (Mesh.mElements m)
    ∧ ∀ pos e, Mesh.mElements m !! pos = Some e →
        ∃ w, (w <? 0)%float = false
          ∧ Mesh.mElements m' !! pos
            = Some (Element.mk (Element.mIndex e) (Element.mNodes e)
                      (Element.mCornerNodes e)
                      (Element.mElementAttributes e ++ [w; w])).
Proof.
  intros Hwf. destruct (TagApicalAndBasalLengths_Ok GetVectorFromAtoB m Hwf) as [m' Hrun].
  exists m'. split; [done|].
  apply TagApicalAndBasalLengths_inv in Hrun as (Hn & Hi & Hl & Hsteps).
  repeat split; try done. intros pos e He.
  destruct (Hsteps pos e He) as (w & Hw & ->). exists w.
  split; [by eapply recorded_length_not_negative|].
  unfold with_lengths, Element.AddElementAttribute. simpl. by rewrite <- app_assoc.
Qed.

(** X12.  The recorded lengths are frozen: a further call that completes
    leaves both getters with the outcome they had before it, for every
    element. *)
Theorem X12_later_calls_keep_the_recorded_lengths pop s s' i :
  is_Some (mpMesh (this s)) →
  AddForce pop s = (Ok (), s') →
  (GetApicalLengthForElement i s').1 = (GetApicalLengthForElement i s).1
  ∧ (GetBasalLengthForElement i s').1 = (GetBasalLengthForElement i s).1.
Proof.
  intros Hbound Hcall. rewrite AddForce_bound in Hcall by done.
  apply force_computation_inv in Hcall as (a & m & m' & Ha & Hm & Hloop & ->).
  apply force_loop_agree with (π := but_force) in Hloop as (He & _ & _); [|done].
  unfold GetApicalLengthForElement, GetBasalLengthForElement. call_unfold.
  rewrite Ha, Hm.
  rewrite list_lookup_insert_eq by (by eapply lookup_lt_Some).
  unfold attribute_at, Mesh.GetElement. rewrite He.
  by destruct (mReferenceLocationInAttributesVector (this s)).
Qed.

End RecordedLengths.

(** ** The direction of a segment force *)

(** The number of binary digits of a mantissa. *)
Lemma digits2_pos_size m : digits2_pos m = Pos.size m.
Proof. induction m as [m IH|m IH|]; simpl; by rewrite ?IH. Qed.

Lemma digits2_pos_bounds m :
  2 ^ (Z.pos (digits2_pos m) - 1) ≤ Z.pos m < 2 ^ Z.pos (digits2_pos m).
Proof.
  rewrite digits2_pos_size. split.
  - pose proof (Pos.size_le m) as H.
    assert (2 ^ Z.pos (Pos.size m) ≤ 2 * Z.pos m) as H2.
    { change 2 with (Z.pos 2) at 1. rewrite <- Pos2Z.inj_pow. by apply Pos2Z.pos_le_pos. }
    replace (Z.pos (Pos.size m)) with (Z.succ (Z.pos (Pos.size m) - 1)) in H2 by lia.
    rewrite Z.pow_succ_r in H2 by lia. lia.
  - pose proof (Pos.size_gt m) as H.
    change 2 with (Z.pos 2). rewrite <- Pos2Z.inj_pow. by apply Pos2Z.pos_lt_pos.
Qed.

(** A mantissa in canonical form has at most 53 digits, and exactly 53
    unless its exponent is the least one. *)
Lemma bounded_digits m e :
  bounded prec emax m e = true →
  Z.pos (digits2_pos m) ≤ 53 ∧ -1074 ≤ e
  ∧ (Z.pos (digits2_pos m) = 53 ∨ e = -1074).
Proof.
  unfold bounded, canonical_mantissa, fexp, emin, prec, emax.
  intros [H _]%andb_prop. apply Z.eqb_eq in H. lia.
Qed.

(** The mantissa aligned to an exponent that is not above its own. *)
Lemma shl_align_le m e e' :
  e' ≤ e → Z.pos (shl_align m e e').1 = Z.pos m * 2 ^ (e - e').
Proof.
  intros Hle. unfold shl_align. destruct (e' - e) as [|d|d] eqn:Hd; simpl.
  - replace (e - e') with 0 by lia. lia.
  - lia.
  - replace (e - e') with (Z.pos d) by lia.
    change (Pos.iter xO m d) with (shift_pos d m).
    rewrite shift_pos_correct. change (Z.pow_pos 2 d) with (2 ^ Z.pos d). lia.
Qed.

(** The mantissa of a finite number with its sign, aligned to an
    exponent. *)
Definition aligned (s : bool) (m : positive) (e e' : Z) : Z :=
  cond_Zopp s (Z.pos (shl_align m e e').1).

(** The order of two finite numbers in canonical form is the order of
    their aligned mantissas. *)
Lemma aligned_compare_Lt sx mx ex sy my ey :
  bounded prec emax mx ex = true → bounded prec emax my ey = true →
  SFcompare (S754_finite sy my ey) (S754_finite sx mx ex) = Some Lt →
  aligned sy my ey (Z.min ex ey) < aligned sx mx ex (Z.min ex ey).
Proof.
  intros (Hdx & Hex & Hnx)%bounded_digits (Hdy & Hey & Hny)%bounded_digits.
  pose proof (digits2_pos_bounds mx) as [Hlx Hux].
  pose proof (digits2_pos_bounds my) as [Hly Huy].
  unfold aligned. rewrite !shl_align_le by lia.
  assert (2 ^ Z.pos (digits2_pos mx) ≤ 2 ^ 53) as Hpx by (apply Z.pow_le_mono_r; lia).
  assert (2 ^ Z.pos (digits2_pos my) ≤ 2 ^ 53) as Hpy by (apply Z.pow_le_mono_r; lia).
  assert (∀ a b, a < b → 2 * 1 ≤ 2 ^ (b - a)) as Hpow.
  { intros a b Hab. change (2 * 1) with (2 ^ 1). apply Z.pow_le_mono_r; lia. }
  assert (∀ a, 0 < 2 ^ (a - a)) as Hpow0 by (intros a; rewrite Z.sub_diag; lia).
  assert (∀ a b, 0 < 2 ^ (Z.max a b - Z.min a b)) as Hpos.
  { intros a b. apply Z.pow_pos_nonneg; lia. }
  unfold SFcompare. destruct sy, sx; simpl; try discriminate.
  - destruct (Z.compare_spec ey ex) as [->|Hlt|Hgt]; try discriminate.
    + rewrite Z.min_id, Z.sub_diag. change (2 ^ 0) with 1.
      intros [= H]. apply CompOpp_iff in H. simpl in H.
      apply Pos.compare_gt_iff in H. lia.
    + intros _. rewrite Z.min_l by lia. rewrite Z.sub_diag. change (2 ^ 0) with 1.
      destruct Hny as [Hny|Hny]; [|lia]. rewrite Hny in *.
      pose proof (Hpow ex ey Hgt) as Hp. change (2 ^ (53 - 1)) with (2 ^ 52) in Hly.
      change (2 ^ 53) with (2 * 2 ^ 52) in Hpx.
      assert (Z.pos my * 2 ≤ Z.pos my * 2 ^ (ey - ex))
        by (apply Z.mul_le_mono_nonneg_l; lia).
      lia.
  - intros _.
    assert (0 < Z.pos my * 2 ^ (ey - Z.min ex ey))
      by (apply Z.mul_pos_pos; [lia|apply Z.pow_pos_nonneg; lia]).
    assert (0 < Z.pos mx * 2 ^ (ex - Z.min ex ey))
      by (apply Z.mul_pos_pos; [lia|apply Z.pow_pos_nonneg; lia]).
    lia.
  - destruct (Z.compare_spec ey ex) as [->|Hlt|Hgt]; try discriminate.
    + rewrite Z.min_id, Z.sub_diag. change (2 ^ 0) with 1.
      intros [= H]. apply -> Pos.compare_lt_iff in H. lia.
    + intros _. rewrite Z.min_r by lia. rewrite Z.sub_diag. change (2 ^ 0) with 1.
      destruct Hnx as [Hnx|Hnx]; [|lia]. rewrite Hnx in *.
      pose proof (Hpow ey ex Hlt) as Hp. change (2 ^ (53 - 1)) with (2 ^ 52) in Hlx.
      change (2 ^ 53) with (2 * 2 ^ 52) in Hpy.
      assert (Z.pos mx * 2 ≤ Z.pos mx * 2 ^ (ex - ey))
        by (apply Z.mul_le_mono_nonneg_l; lia).
      lia.
Qed.

(** A NaN, or a number with the sign [s]. *)
Definition SFsign_is (s : bool) (x : spec_float) : Prop :=
  match x with
  | S754_nan => True
  | S754_zero s' | S754_infinity s' | S754_finite s' _ _ => s' = s
  end.

(** Rounding keeps the sign. *)
Lemma binary_round_aux_sign s m e l : SFsign_is s (binary_round_aux prec emax s m e l).
Proof.
  unfold binary_round_aux.
  destruct (shr_fexp prec emax m e l) as [mrs' e'].
  destruct (shr_fexp prec emax _ e' loc_Exact) as [mrs'' e''].
  destruct (shr_m mrs''); simpl; try done. by destruct (_ <=? _).
Qed.

Lemma binary_round_sign s m e : SFsign_is s (binary_round prec emax s m e).
Proof. unfold binary_round. destruct (shl_align _ _ _). apply binary_round_aux_sign. Qed.

Definition SFnot_negative (x : spec_float) : Prop := SFltb x (S754_zero false) = false.
Definition SFnot_positive (x : spec_float) : Prop := SFltb (S754_zero false) x = false.
Definition SFpositive (x : spec_float) : Prop := SFltb (S754_zero false) x = true.

Lemma SFsign_false_not_negative x : SFsign_is false x → SFnot_negative x.
Proof. by destruct x as [[]|[]| |[] ? ?]. Qed.

Lemma SFsign_true_not_positive x : SFsign_is true x → SFnot_positive x.
Proof. by destruct x as [[]|[]| |[] ? ?]. Qed.

(** The difference of a number and a smaller one is not negative, and
    that of a number and a larger one is not positive. *)
Lemma SFsub_not_negative x y :
  valid_binary x = true → valid_binary y = true →
  SFltb y x = true → SFnot_negative (SFsub prec emax x y).
Proof.
  unfold SFltb. destruct (SFcompare y x) as [[]|] eqn:Hc; try discriminate.
  intros Hx Hy _.
  destruct x as [sx|sx| |sx mx ex], y as [sy|sy| |sy my ey];
    try discriminate; try (by destruct sx, sy); try (by destruct sx); try (by destruct sy).
  simpl in Hx, Hy. pose proof (aligned_compare_Lt sx mx ex sy my ey Hx Hy Hc) as Hlt.
  unfold aligned in Hlt. unfold SFsub.
  destruct (_ - _) as [|z|z] eqn:Hz; simpl; [done| |lia].
  apply SFsign_false_not_negative, binary_round_sign.
Qed.

Lemma SFsub_not_positive x y :
  valid_binary x = true → valid_binary y = true →
  SFltb x y = true → SFnot_positive (SFsub prec emax x y).
Proof.
  unfold SFltb. destruct (SFcompare x y) as [[]|] eqn:Hc; try discriminate.
  intros Hx Hy _.
  destruct x as [sx|sx| |sx mx ex], y as [sy|sy| |sy my ey];
    try discriminate; try (by destruct sx, sy); try (by destruct sx); try (by destruct sy).
  simpl in Hx, Hy. pose proof (aligned_compare_Lt sy my ey sx mx ex Hy Hx Hc) as Hlt.
  unfold aligned in Hlt. rewrite (Z.min_comm ey ex) in Hlt. unfold SFsub.
  destruct (_ - _) as [|z|z] eqn:Hz; simpl; [done|lia|].
  apply SFsign_true_not_positive, binary_round_sign.
Qed.

(** Multiplying by a positive number and dividing by one keep what side
    of zero a number is on. *)
Lemma SFmul_not_negative k x :
  SFpositive k → SFnot_negative x → SFnot_negative (SFmul prec emax k x).
Proof.
  destruct k as [[]|[]| |[] mk ek], x as [[]|[]| |[] mx ex]; try done.
  intros _ _. apply SFsign_false_not_negative, binary_round_aux_sign.
Qed.

Lemma SFmul_not_positive k x :
  SFpositive k → SFnot_positive x → SFnot_positive (SFmul prec emax k x).
Proof.
  destruct k as [[]|[]| |[] mk ek], x as [[]|[]| |[] mx ex]; try done.
  intros _ _. apply SFsign_true_not_positive, binary_round_aux_sign.
Qed.

Lemma SFdiv_not_negative x d :
  SFnot_negative x → SFpositive d → SFnot_negative (SFdiv prec emax x d).
Proof.
  destruct d as [[]|[]| |[] md ed], x as [[]|[]| |[] mx ex]; try done.
  intros _ _. unfold SFdiv.
  destruct (SFdiv_core_binary _ _ _ _ _ _) as [[mz ez] lz].
  apply SFsign_false_not_negative, binary_round_aux_sign.
Qed.

Lemma SFdiv_not_positive x d :
  SFnot_positive x → SFpositive d → SFnot_positive (SFdiv prec emax x d).
Proof.
  destruct d as [[]|[]| |[] md ed], x as [[]|[]| |[] mx ex]; try done.
  intros _ _. unfold SFdiv.
  destruct (SFdiv_core_binary _ _ _ _ _ _) as [[mz ez] lz].
  apply SFsign_true_not_positive, binary_round_aux_sign.
Qed.

(** The scale factor of a segment force, for a positive spring constant
    and a positive segment length: not negative when the segment is
    longer than the rest length, not positive when it is shorter. *)
Lemma scale_factor_sign (k d r : float) :
  (0 <? k)%float = true → (0 <? d)%float = true →
  ((r <? d)%float = true → (k * (d - r) / d <? 0)%float = false)
  ∧ ((d <? r)%float = true → (0 <? k * (d - r) / d)%float = false).
Proof.
  rewrite !FloatAxioms.ltb_spec, FloatAxioms.div_spec, FloatAxioms.mul_spec,
    FloatAxioms.sub_spec.
  change (Prim2SF 0) with (S754_zero false). intros Hk Hd. split; intros Hrd.
  - apply SFdiv_not_negative; [|done]. apply SFmul_not_negative; [done|].
    apply SFsub_not_negative; [apply Prim2SF_valid..|done].
  - apply SFdiv_not_positive; [|done]. apply SFmul_not_positive; [done|].
    apply SFsub_not_positive; [apply Prim2SF_valid..|done].
Qed.

Section Direction.
Context (GetVectorFromAtoB : c_vector → c_vector → c_vector).
Context (norm_2 : c_vector → float).

(** X13.  For a positive spring constant and a segment of positive
    length [d], the segment force is the displacement to the next node
    times a factor that is not negative when the segment is longer than
    the rest length, so that the force stored for the segment does not
    point away from the next node, and not positive when it is shorter.
    A factor that is neither is a zero or a NaN. *)
Theorem X13_stretched_pulls_compressed_pushes m e k r j :
  let v := displacement GetVectorFromAtoB m e j in
  let d := norm_2 v in
  (0 <? k)%float = true → (0 <? d)%float = true →
  ∃ factor,
    segment_force GetVectorFromAtoB norm_2 m e k r j = scale_assign v factor
    ∧ ((r <? d)%float = true → (factor <? 0)%float = false)
    ∧ ((d <? r)%float = true → (0 <? factor)%float = false).
Proof.
  intros v d Hk Hd. exists (k * (d - r) / d)%float. split; [done|].
  by apply scale_factor_sign.
Qed.

End Direction.

(** ** The further properties on the example meshes *)

(** The call with the mesh operations of the periodic unit square. *)
Definition unit_square_call : ImmersedBoundaryCellPopulation → Call () :=
  AddImmersedBoundaryForceContribution unit_square_GetVectorFromAtoB ublas_norm_2
    perimeter_GetAverageNodeSpacingOfElement 2.

(** A force object bound to the two squares without corners. *)
Definition bound_squares : State :=
  mkState (bind_mesh 0 ImmersedBoundaryMembraneElasticityForce)
    [two_squares false false [] []].

(** A call on the bound squares leaves the force object as it is. *)
Lemma X1_witness :
  this (unit_square_call population bound_squares).2 = this bound_squares.
Proof.
  refine (proj1 (X1_later_call_writes_accumulators_only unit_square_GetVectorFromAtoB
                   ublas_norm_2 perimeter_GetAverageNodeSpacingOfElement 2 population
                   bound_squares (unit_square_call population bound_squares).2 _ _)).
  - by eexists.
  - by vm_compute.
Defined.

(** The first call on the two squares with corners binds mesh 0. *)
Lemma X2_witness :
  mpMesh (this (unit_square_call population (fresh (two_squares true true [] []))).2)
  = Some 0%nat.
Proof.
  refine (proj1 (X2_first_call_keeps_geometry unit_square_GetVectorFromAtoB
                   ublas_norm_2 perimeter_GetAverageNodeSpacingOfElement 2 population
                   (fresh (two_squares true true [] []))
                   (unit_square_call population (fresh (two_squares true true [] []))).2
                   _ _)).
  - reflexivity.
  - by vm_compute.
Defined.

(** Two squares of which only the first has corners: the call throws,
    and element 1 is the cause. *)
Lemma X3_witness :
  ∃ m e0 (i : nat) e,
    meshes (fresh (two_squares true false [] [])) !! rGetMesh population = Some m
    ∧ Mesh.mElements m !! 0%nat = Some e0
    ∧ (0 < i)%nat ∧ Mesh.mElements m !! i = Some e
    ∧ ((corners_message = corners_message
        ∧ vec_size (Element.rGetCornerNodes e)
          ≠ to_unsigned (vec_size (Element.rGetCornerNodes e0)))
       ∨ (corners_message = attributes_message
          ∧ to_unsigned (vec_size (Element.rGetCornerNodes e0)) = 4
          ∧ Element.GetNumElementAttributes e ≠ Element.GetNumElementAttributes e0)).
Proof.
  refine (proj2 (X3_exceptions_have_a_cause unit_square_GetVectorFromAtoB
                   ublas_norm_2 perimeter_GetAverageNodeSpacingOfElement 2 population
                   (fresh (two_squares true false [] [])) corners_message
                   (unit_square_call population (fresh (two_squares true false [] []))).2
                   _)).
  by vm_compute.
Defined.

(** The first call on the two squares without corners is the force
    computation on the meshes as they were. *)
Lemma X4_witness :
  unit_square_call population (fresh (two_squares false false [] []))
  = force_computation unit_square_GetVectorFromAtoB ublas_norm_2
      perimeter_GetAverageNodeSpacingOfElement 2 population
      (mkState (record_corners false (bind_mesh 0 ImmersedBoundaryMembraneElasticityForce))
         [two_squares false false [] []]).
Proof.
  apply (X4_without_corners_no_tagging unit_square_GetVectorFromAtoB ublas_norm_2
           perimeter_GetAverageNodeSpacingOfElement 2 population
           (fresh (two_squares false false [] [])) (two_squares false false [] [])
           (square_element 0 0 false [])).
  - reflexivity.
  - reflexivity.
  - reflexivity.
  - by vm_compute.
  - by vm_compute.
  - by repeat constructor.
Defined.

(** A population on another mesh with the same intrinsic spacing gives
    the same call on the bound squares. *)
Lemma X5_witness :
  unit_square_call (mkPopulation 7 0.25) bound_squares
  = unit_square_call population bound_squares.
Proof.
  apply (X5_bound_mesh_is_kept unit_square_GetVectorFromAtoB ublas_norm_2
           perimeter_GetAverageNodeSpacingOfElement 2 population (mkPopulation 7 0.25)
           bound_squares).
  - by eexists.
  - reflexivity.
Defined.

(** The tagging of the twelve-node mesh leaves a tag on node 0. *)
Lemma X6_witness :
  ∃ m', TagNodeRegions (twelve_node_mesh [5; 2; 11; 8]%nat) = Ok m'
    ∧ ∃ n, Mesh.mNodes m' !! 0%nat = Some n
        ∧ (Node.mRegion n = msBas ∨ Node.mRegion n = msApi ∨ Node.mRegion n = msLat).
Proof.
  destruct (X6_tagging_covers_every_element (twelve_node_mesh [5; 2; 11; 8]%nat)
              twelve_node_mesh_well_formed) as (m' & Hrun & Hall).
  exists m'. split; [done|].
  apply (Hall (twelve_node_element [5; 2; 11; 8]%nat) 0%nat).
  - by left.
  - by left.
Defined.

(** The twelve-node element with its corners at 5, 2, 11 and 8. *)
Lemma X7_witness :
  ∃ ns',
    TagNodeRegions_element (twelve_node_element [5; 2; 11; 8]%nat)
      (twelve_node_mesh [5; 2; 11; 8]%nat)
    = Ok (with_nodes (twelve_node_mesh [5; 2; 11; 8]%nat) ns')
    ∧ Node.mRegion <$> ns' !! 3%nat = Some msApi.
Proof.
  destruct (X7_corners_in_order (twelve_node_mesh [5; 2; 11; 8]%nat)
              (twelve_node_element [5; 2; 11; 8]%nat) 5 2 11 8)
    as (ns' & Hrun & Htags).
  - apply twelve_node_mesh_valid.
  - apply twelve_node_mesh_distinct.
  - vm_compute. discriminate.
  - split; [unfold vec_size; simpl; lia|reflexivity].
  - lia.
  - lia.
  - lia.
  - exists ns'. split; [done|].
    specialize (Htags 3 ltac:(unfold vec_size; simpl; lia)).
    change (node_ptr (twelve_node_element [5; 2; 11; 8]%nat) 3) with 3%nat in Htags.
    by rewrite Htags.
Defined.

(** The twelve-node element with its corners at 2, 5, 8 and 11. *)
Lemma X8_witness :
  ∃ ns',
    TagNodeRegions_element (twelve_node_element [2; 5; 8; 11]%nat)
      (twelve_node_mesh [2; 5; 8; 11]%nat)
    = Ok (with_nodes (twelve_node_mesh [2; 5; 8; 11]%nat) ns')
    ∧ Node.mRegion <$> ns' !! 3%nat = Some msLat.
Proof.
  destruct (X8_corners_out_of_order (twelve_node_mesh [2; 5; 8; 11]%nat)
              (twelve_node_element [2; 5; 8; 11]%nat) 2 5 8 11)
    as (ns' & Hrun & Htags).
  - apply twelve_node_mesh_valid.
  - apply twelve_node_mesh_distinct.
  - vm_compute. discriminate.
  - split; [unfold vec_size; simpl; lia|reflexivity].
  - lia.
  - lia.
  - exists ns'. split; [done|].
    specialize (Htags 3 ltac:(unfold vec_size; simpl; lia)).
    change (node_ptr (twelve_node_element [2; 5; 8; 11]%nat) 3) with 3%nat in Htags.
    by rewrite Htags.
Defined.

(** Tagging the twelve-node mesh twice. *)
Lemma X9_witness :
  ∃ m', TagNodeRegions (twelve_node_mesh [5; 2; 11; 8]%nat) = Ok m'
    ∧ TagNodeRegions m' = Ok m'.
Proof.
  apply (X9_tagging_twice_is_tagging_once (twelve_node_mesh [5; 2; 11; 8]%nat)).
  apply twelve_node_mesh_well_formed.
Defined.

(** The lengths recorded on the two squares with corners. *)
Lemma X10_witness :
  ∃ m', TagApicalAndBasalLengths unit_square_GetVectorFromAtoB
          (two_squares true true [] []) = Ok m'
    ∧ Mesh.mNodes m' = Mesh.mNodes (two_squares true true [] []).
Proof.
  destruct (X10_baseline_lengths_are_not_negative unit_square_GetVectorFromAtoB
              (two_squares true true [] [])) as (m' & Hrun & Hnodes & _).
  - intros e He. destruct (two_squares_corners e He) as (Hv & _ & _).
    destruct (two_squares_lengths e He) as (_ & _ & Hw).
    split; [done|]. intros Hne. split; [|by apply Hw].
    repeat (apply elem_of_cons in He as [->|He]); [done..|by apply elem_of_nil in He].
  - by exists m'.
Defined.

(** The first segment of the first square, of length 0.25, with a rest
    length of 0.125. *)
Lemma X13_witness :
  ∃ factor,
    segment_force unit_square_GetVectorFromAtoB ublas_norm_2
      (two_squares false false [] []) (square_element 0 0 false []) 1e6 0.125 0
    = scale_assign
        (displacement unit_square_GetVectorFromAtoB (two_squares false false [] [])
           (square_element 0 0 false []) 0) factor
    ∧ (factor <? 0)%float = false.
Proof.
  destruct (X13_stretched_pulls_compressed_pushes unit_square_GetVectorFromAtoB
              ublas_norm_2 (two_squares false false [] [])
              (square_element 0 0 false []) 1e6 0.125 0)
    as (factor & Hforce & Hlong & _).
  - by vm_compute.
  - by vm_compute.
  - exists factor. split; [done|]. apply Hlong. by vm_compute.
Defined.

(** ** Calls without a reset in between *)

Section Accumulation.
Context (GetVectorFromAtoB : c_vector → c_vector → c_vector).
Context (norm_2 : c_vector → float).
Context (GetAverageNodeSpacingOfElement : Mesh.t → Z → bool → float).
Context (DIM : nat).

Local Abbreviation AddForce :=
  (AddImmersedBoundaryForceContribution GetVectorFromAtoB norm_2
     GetAverageNodeSpacingOfElement DIM).

(** The average node spacing of an element does not depend on the force
    accumulators. *)
Definition spacing_ignores_forces : Prop :=
  ∀ m m' index recalculate,
    agree but_force m m' →
    GetAverageNodeSpacingOfElement m' index recalculate
    = GetAverageNodeSpacingOfElement m index recalculate.

Lemma node_force_agree f pop m m1 m2 e j :
  spacing_ignores_forces → agree but_force m m1 → agree but_force m m2 →
  node_force GetVectorFromAtoB norm_2 m1 e
    (claimed_spring_constant GetAverageNodeSpacingOfElement f pop m2 e)
    (claimed_rest_length GetAverageNodeSpacingOfElement f m2 e) j
  = node_force GetVectorFromAtoB norm_2 m e
      (claimed_spring_constant GetAverageNodeSpacingOfElement f pop m e)
      (claimed_rest_length GetAverageNodeSpacingOfElement f m e) j.
Proof.
  intros Hspacing Hm1 Hm2.
  assert (claimed_spring_constant GetAverageNodeSpacingOfElement f pop m2 e
          = claimed_spring_constant GetAverageNodeSpacingOfElement f pop m e) as ->.
  { unfold claimed_spring_constant, base_spring_constant, is_membrane,
      Mesh.GetMembraneIndex.
    rewrite (Hspacing m m2) by done. by destruct Hm2 as (_ & -> & _). }
  assert (claimed_rest_length GetAverageNodeSpacingOfElement f m2 e
          = claimed_rest_length GetAverageNodeSpacingOfElement f m e) as ->.
  { unfold claimed_rest_length, base_rest_length, is_membrane, Mesh.GetMembraneIndex.
    rewrite (Hspacing m m2) by done. by destruct Hm2 as (_ & -> & _). }
  assert (Node.mLocation <$> Mesh.mNodes m1 = Node.mLocation <$> Mesh.mNodes m) as Hloc.
  { by apply (agree_weaken but_force Node.mLocation (λ t, t.1.2)) in Hm1
      as (_ & _ & ?). }
  unfold node_force. by rewrite !(segment_force_ext _ _ m m1 e _ _ _ Hloc).
Qed.

(** X14.  Without a reset in between, two calls on a bound force object
    add the same force twice: on a mesh whose elements are well formed
    and share no node, and with an average node spacing that does not
    depend on the force accumulators, both calls complete, and the second
    adds to the accumulator of every node of every element the very
    vector that the first one added. *)
Theorem X14_calls_accumulate pop s a m :
  spacing_ignores_forces →
  mpMesh (this s) = Some a → meshes s !! a = Some m →
  well_formed_elements m → disjoint_elements m →
  ∃ m1 m2,
    AddForce pop s = (Ok (), mkState (this s) (<[a := m1]> (meshes s)))
    ∧ AddForce pop (mkState (this s) (<[a := m1]> (meshes s)))
      = (Ok (), mkState (this s) (<[a := m2]> (meshes s)))
    ∧ ∀ e j, e ∈ Mesh.mElements m → 0 ≤ j < vec_size (Element.mNodes e) →
        let added :=
          node_force GetVectorFromAtoB norm_2 m e
            (claimed_spring_constant GetAverageNodeSpacingOfElement (this s) pop m e)
            (claimed_rest_length GetAverageNodeSpacingOfElement (this s) m e) j in
        Mesh.mNodes m1 !! node_ptr e j
        = Node.AddAppliedForceContribution added <$> Mesh.mNodes m !! node_ptr e j
        ∧ Mesh.mNodes m2 !! node_ptr e j
          = Node.AddAppliedForceContribution added
            <$> (Node.AddAppliedForceContribution added <$> Mesh.mNodes m !! node_ptr e j).
Proof.
  intros Hspacing Ha Hm Hwf Hdisj.
  pose proof (lookup_lt_Some _ _ _ Hm) as Hlt.
  destruct (force_loop_spec GetVectorFromAtoB norm_2 GetAverageNodeSpacingOfElement DIM
              (this s) pop m Hwf Hdisj) as (m1 & Hloop1 & Hm1 & Helems1 & _).
  assert (well_formed_elements m1) as Hwf1.
  { intros e He. pose proof Hm1 as (Heq & _). rewrite Heq in He.
    destruct (Hwf e He) as (Hv & Hnd & Hmax).
    split; [|done]. by apply (valid_nodes_agree but_force m m1). }
  assert (disjoint_elements m1) as Hdisj1.
  { unfold disjoint_elements. pose proof Hm1 as (-> & _). apply Hdisj. }
  destruct (force_loop_spec GetVectorFromAtoB norm_2 GetAverageNodeSpacingOfElement DIM
              (this s) pop m1 Hwf1 Hdisj1) as (m2 & Hloop2 & Hm2 & Helems2 & _).
  exists m1, m2. split; [|split].
  - rewrite AddForce_bound by by rewrite Ha.
    by apply (force_computation_Ok _ _ _ _ pop s a m m1).
  - rewrite AddForce_bound by (simpl; by rewrite Ha).
    rewrite (force_computation_Ok _ _ _ _ pop
               (mkState (this s) (<[a := m1]> (meshes s))) a m1 m2); simpl; try done.
    + by rewrite list_insert_insert_eq.
    + by apply list_lookup_insert_eq.
  - intros e j He Hj added.
    destruct (Helems1 e He) as (ma & Hma & Hnodes1).
    assert (e ∈ Mesh.mElements m1) as He1 by (by pose proof Hm1 as (-> & _)).
    destruct (Helems2 e He1) as (mb & Hmb & Hnodes2).
    rewrite Hnodes2, Hnodes1 by done.
    rewrite (node_force_agree (this s) pop m m ma e j Hspacing (agree_refl _ _) Hma).
    rewrite (node_force_agree (this s) pop m m1 mb e j Hspacing Hm1
               (agree_trans _ _ _ _ Hm1 Hmb)).
    done.
Qed.

End Accumulation.

Lemma GetNodeLocation_ext m m' e j :
  Node.mLocation <$> Mesh.mNodes m' = Node.mLocation <$> Mesh.mNodes m →
  Mesh.GetNodeLocation m' e j = Mesh.GetNodeLocation m e j.
Proof.
  intros Hn. unfold Mesh.GetNodeLocation, Mesh.node.
  destruct (Element.GetNode e j) as [p| |]; simpl; [|done..].
  assert (Node.mLocation <$> Mesh.mNodes m' !! p = Node.mLocation <$> Mesh.mNodes m !! p)
    as Hp by (by rewrite <- !list_lookup_fmap, Hn).
  unfold Node.rGetLocation.
  destruct (Mesh.mNodes m' !! p), (Mesh.mNodes m !! p); simpl in *; congruence.
Qed.

(** The perimeter of an element divided by its number of nodes does not
    depend on the force accumulators. *)
Lemma perimeter_spacing_ignores_forces :
  spacing_ignores_forces perimeter_GetAverageNodeSpacingOfElement.
Proof.
  intros m m' index recalculate Hagree.
  assert (Node.mLocation <$> Mesh.mNodes m' = Node.mLocation <$> Mesh.mNodes m) as Hloc.
  { by apply (agree_weaken but_force Node.mLocation (λ t, t.1.2)) in Hagree
      as (_ & _ & ?). }
  destruct Hagree as (He & _ & _).
  unfold perimeter_GetAverageNodeSpacingOfElement, Mesh.GetElement. rewrite He.
  destruct (if _ <? _ then _ else _) as [e| |]; [|done..].
  rewrite (for_loop_ext _
    (λ i area,
       a ← Mesh.GetNodeLocation m e i;
       b ← Mesh.GetNodeLocation m e (to_unsigned (i + 1) `mod` Element.GetNumNodes e);
       Ok (area + ublas_norm_2 (unit_square_GetVectorFromAtoB a b))%float)); [done|].
  intros i area _. by rewrite !(GetNodeLocation_ext m m' e _ Hloc).
Qed.

(** Two calls on the bound squares. *)
Lemma X14_witness :
  ∃ m1 m2,
    unit_square_call population bound_squares
    = (Ok (), mkState (this bound_squares) [m1])
    ∧ unit_square_call population (mkState (this bound_squares) [m1])
      = (Ok (), mkState (this bound_squares) [m2])
    ∧ forces m2
      = [[(-250000)%float; (-250000)%float]; [250000%float; (-250000)%float];
         [250000%float; 250000%float]; [(-250000)%float; 250000%float];
         [(-250000)%float; (-250000)%float]; [250000%float; (-250000)%float];
         [250000%float; 250000%float]; [(-250000)%float; 250000%float]].
Proof.
  destruct (X14_calls_accumulate unit_square_GetVectorFromAtoB ublas_norm_2
              perimeter_GetAverageNodeSpacingOfElement 2 population bound_squares
              0%nat (two_squares false false [] [])
              perimeter_spacing_ignores_forces eq_refl eq_refl
              (two_squares_well_formed _ _ _ _) (two_squares_disjoint _ _ _ _))
    as (m1 & m2 & Hfirst & Hsecond & _).
  exists m1, m2. split; [exact Hfirst|]. split; [exact Hsecond|].
  match type of Hfirst with ?call = _ =>
    assert (call.2 = mkState (this bound_squares) [m1]) as H1 by (by rewrite Hfirst)
  end.
  vm_compute in H1. injection H1 as <-.
  match type of Hsecond with ?call = _ =>
    assert (call.2 = mkState (this bound_squares) [m2]) as H2 by (by rewrite Hsecond)
  end.
  vm_compute in H2. by injection H2 as <-.
Defined.

(** * The call as a whole: setup, then the force computation *)

(** The spring parameters of two force objects are the same. *)
Definition same_parameters (f f' : Force) : Prop :=
  mSpringConstant f' = mSpringConstant f
  ∧ mRestLengthMultiplier f' = mRestLengthMultiplier f
  ∧ mBasementSpringConstantModifier f' = mBasementSpringConstantModifier f
  ∧ mBasementRestLengthModifier f' = mBasementRestLengthModifier f.

(** What the setup leaves of a mesh [m] in the mesh [m0] it hands to the
    force computation: the global index, the position and the force
    accumulator of every node, the index, the nodes and the corners of
    every element, and the membrane index.  Region tags and element
    attributes are what it may have written. *)
Definition setup_leaves (m m0 : Mesh.t) : Prop :=
  but_region <$> Mesh.mNodes m0 = but_region <$> Mesh.mNodes m
  ∧ element_shape <$> Mesh.mElements m0 = element_shape <$> Mesh.mElements m
  ∧ Mesh.mMembraneIndex m0 = Mesh.mMembraneIndex m.

Lemma setup_leaves_refl m : setup_leaves m m.
Proof. done. Qed.

Lemma well_formed_elements_leaves m m0 :
  setup_leaves m m0 → well_formed_elements m → well_formed_elements m0.
Proof.
  intros (Hn & He & _) Hwf e' [pos He']%list_elem_of_lookup_1.
  assert ((element_shape <$> Mesh.mElements m) !! pos = Some (element_shape e')) as Hpos.
  { by rewrite <- He, list_lookup_fmap, He'. }
  rewrite list_lookup_fmap in Hpos.
  destruct (Mesh.mElements m !! pos) as [e|] eqn:Hin; [|done].
  injection Hpos as _ Hnodes _. apply list_elem_of_lookup_2 in Hin.
  destruct (Hwf e Hin) as ((Hsz & Hall) & Hnd & Hmax). rewrite Hnodes in *.
  split; [|done]. split; [done|].
  apply (f_equal length) in Hn. rewrite !length_fmap in Hn. by rewrite Hn.
Qed.

Lemma iterate_ext (body body' : nat → Element.t → Mesh.t → Result Mesh.t)
    positions m :
  (∀ pos e m, body pos e m = body' pos e m) →
  Mesh.iterate positions body m = Mesh.iterate positions body' m.
Proof.
  intros Hbody. revert m. induction positions as [|pos rest IH]; intros m; [done|].
  simpl. destruct (of_option (Mesh.mElements m !! pos)) as [e| |]; [|done..].
  simpl. rewrite Hbody. destruct (body' pos e m) as [m1| |]; [|done..].
  simpl. apply IH.
Qed.

Section CallSpec.
Context (GetVectorFromAtoB : c_vector → c_vector → c_vector).
Context (norm_2 : c_vector → float).
Context (GetAverageNodeSpacingOfElement : Mesh.t → Z → bool → float).
Context (DIM : nat).

Local Abbreviation AddForce :=
  (AddImmersedBoundaryForceContribution GetVectorFromAtoB norm_2
     GetAverageNodeSpacingOfElement DIM).
Local Abbreviation force_loop f pop :=
  (Mesh.for_each_element
     (λ _ e m, element_contribution GetVectorFromAtoB norm_2
                 GetAverageNodeSpacingOfElement DIM f pop e m)).

(** A mesh on which the first call enables corner tagging and completes
    its setup: every element has four corners and as many attributes as
    element 0, the elements are well formed for the tagging and their
    lengths are defined. *)
Definition corners_ready (m : Mesh.t) (e0 : Element.t) : Prop :=
  Mesh.mElements m !! 0%nat = Some e0
  ∧ Forall (λ e, vec_size (Element.rGetCornerNodes e) = 4) (Mesh.mElements m)
  ∧ Forall (λ e, Element.GetNumElementAttributes e = Element.GetNumElementAttributes e0)
      (Mesh.mElements m)
  ∧ well_formed_corners m
  ∧ lengths_defined GetVectorFromAtoB m.

(** A mesh on which the first call completes its setup: without corner
    tagging, every element having the corner count of element 0 and that
    count not being four, or with it. *)
Definition first_call_ready (m : Mesh.t) : Prop :=
  ∃ e0,
    (Mesh.mElements m !! 0%nat = Some e0
     ∧ Forall (λ e, vec_size (Element.rGetCornerNodes e)
                    = vec_size (Element.rGetCornerNodes e0)) (Mesh.mElements m)
     ∧ vec_size (Element.rGetCornerNodes e0) ≤ UINT_MAX
     ∧ vec_size (Element.rGetCornerNodes e0) ≠ 4)
    ∨ corners_ready m e0.

(** A call of AddImmersedBoundaryForceContribution that works on the
    mesh [m] at address [a]: a later call, the mesh pointer being bound
    to [a], or the first call, the pointer being null and [a] the mesh of
    the population. *)
Definition call_ready (pop : ImmersedBoundaryCellPopulation) (s : State)
    (a : nat) (m : Mesh.t) : Prop :=
  meshes s !! a = Some m
  ∧ well_formed_elements m
  ∧ (mpMesh (this s) = Some a
     ∨ (mpMesh (this s) = None ∧ a = rGetMesh pop ∧ first_call_ready m)).

(** The mesh that the setup hands to the force computation. *)
Definition after_setup (m : Mesh.t) : Mesh.t :=
  match verify_corners m with
  | Ok num_corners =>
      if num_corners =? 4 then
        match TagNodeRegions m with
        | Ok m1 =>
            match TagApicalAndBasalLengths GetVectorFromAtoB m1 with
            | Ok m2 => m2
            | _ => m
            end
        | _ => m
        end
      else m
  | _ => m
  end.

Lemma element_contribution_same_parameters f f' pop e m :
  same_parameters f f' →
  element_contribution GetVectorFromAtoB norm_2 GetAverageNodeSpacingOfElement DIM
    f' pop e m
  = element_contribution GetVectorFromAtoB norm_2 GetAverageNodeSpacingOfElement DIM
      f pop e m.
Proof.
  intros (H1 & H2 & H3 & H4). unfold element_contribution.
  by rewrite H1, H2, H3, H4.
Qed.

Lemma force_loop_same_parameters f f' pop m :
  same_parameters f f' → force_loop f' pop m = force_loop f pop m.
Proof.
  intros Hsame. apply iterate_ext. intros _ e m1.
  by apply element_contribution_same_parameters.
Qed.

(** The setup of the first call on a mesh with four corners everywhere:
    the regions are tagged, then the lengths recorded. *)
Lemma setup_with_corners pop s m e0 :
  meshes s !! rGetMesh pop = Some m → corners_ready m e0 →
  ∃ m1 m2,
    verify_corners m = Ok 4
    ∧ TagNodeRegions m = Ok m1
    ∧ agree but_region m m1
    ∧ TagApicalAndBasalLengths GetVectorFromAtoB m1 = Ok m2
    ∧ setup GetVectorFromAtoB pop s
      = (Ok (),
         mkState (record_reference (Element.GetNumElementAttributes e0)
                    (record_corners true (bind_mesh (rGetMesh pop) (this s))))
           (<[rGetMesh pop := m2]> (meshes s))).
Proof.
  intros Hm (H0 & Hcorners & Hattrs & Hwf & Hlen).
  assert (vec_size (Element.rGetCornerNodes e0) = 4) as H4.
  { by apply (Forall_lookup_1 _ _ _ _ Hcorners H0). }
  assert (verify_corners m = Ok 4) as Hverify.
  { rewrite (verify_corners_uniform m e0), H4; [done|done|by rewrite H4|].
    eapply Forall_impl; [exact Hcorners|]. intros e He. simpl in *. congruence. }
  destruct (TagNodeRegions_Ok m Hwf) as (m1 & Htag & Hagree).
  pose proof Hagree as (Helems & Hmem & Hnodes).
  assert (Node.mLocation <$> Mesh.mNodes m1 = Node.mLocation <$> Mesh.mNodes m)
    as Hloc.
  { pose proof Hagree as Hagree'.
    by apply (agree_weaken but_region Node.mLocation (λ t, t.1.2)) in Hagree'
      as (_ & _ & ?). }
  pose proof (agree_length but_region m m1 Hagree) as Hlength.
  destruct (TagApicalAndBasalLengths_Ok GetVectorFromAtoB m1) as [m2 Hrun].
  { intros e He. rewrite Helems in He.
    destruct (Hwf e He) as ((Hsz & Hall) & _ & Hc).
    destruct (Hlen e He) as (_ & _ & Hw).
    split; [split; [done|by rewrite Hlength]|].
    unfold Mesh.GetMembraneIndex in *. rewrite Hmem. intros Hne. split.
    - destruct (Hc Hne) as (i0 & _ & _ & _ & (? & _) & _). lia.
    - unfold element_width. rewrite !(location_ext m m1 e _ Hloc). by apply Hw. }
  exists m1, m2. split; [done|]. split; [done|]. split; [done|]. split; [done|].
  rewrite setup_unfold. cbv zeta. rewrite Hm, Hverify. change (4 =? 4) with true.
  cbv iota.
  destruct (GetElement_Ok m 0) as (e0' & -> & He0').
  { apply lookup_lt_Some in H0. unfold vec_size. lia. }
  change (Z.to_nat 0) with 0%nat in He0'. simplify_eq.
  rewrite verify_attributes_Ok by done. rewrite Htag, Hrun.
  by rewrite list_insert_insert_eq.
Qed.

Lemma after_setup_with_corners m m1 m2 :
  verify_corners m = Ok 4 → TagNodeRegions m = Ok m1 →
  TagApicalAndBasalLengths GetVectorFromAtoB m1 = Ok m2 →
  after_setup m = m2.
Proof. intros H1 H2 H3. unfold after_setup. by rewrite H1, H2, H3. Qed.

Lemma setup_leaves_with_corners m m1 m2 :
  agree but_region m m1 →
  TagApicalAndBasalLengths GetVectorFromAtoB m1 = Ok m2 →
  setup_leaves m m2.
Proof.
  intros (He & Hi & Hn) (Hn2 & Hi2 & He2)%TagApicalAndBasalLengths_shape.
  unfold setup_leaves. by rewrite Hn2, Hn, He2, He, Hi2, Hi.
Qed.

(** The state in which the force computation of a call starts: the
    state of the call when the mesh pointer is bound, and otherwise the
    state that the setup leaves on completing. *)
Definition computation_starts (pop : ImmersedBoundaryCellPopulation)
    (s s0 : State) : Prop :=
  (is_Some (mpMesh (this s)) ∧ s0 = s)
  ∨ (mpMesh (this s) = None ∧ setup GetVectorFromAtoB pop s = (Ok (), s0)).

(** The mesh on which the element loop of a call starts. *)
Definition loop_mesh (s : State) (m : Mesh.t) : Mesh.t :=
  match mpMesh (this s) with
  | Some _ => m
  | None => after_setup m
  end.

Lemma corners_ready_well_formed m e0 : corners_ready m e0 → well_formed_elements m.
Proof.
  intros (_ & _ & _ & Hwf & Hlen) e He.
  destruct (Hwf e He) as (Hv & Hd & _). destruct (Hlen e He) as (Hmax & _).
  split; [done|]. split; [|done]. by apply NoDup_fmap_1 in Hd.
Qed.

(** The setup of the first call completes. *)
Lemma first_call_setup pop s m :
  mpMesh (this s) = None → meshes s !! rGetMesh pop = Some m →
  first_call_ready m →
  setup_leaves m (after_setup m)
  ∧ ∃ f1,
      setup GetVectorFromAtoB pop s
      = (Ok (), mkState f1 (<[rGetMesh pop := after_setup m]> (meshes s)))
      ∧ mpMesh f1 = Some (rGetMesh pop) ∧ same_parameters (this s) f1.
Proof.
  intros Hnull Hm [e0 [(H0 & Hall & Hmax & Hne)|Hready]].
  - assert (after_setup m = m) as ->.
    { unfold after_setup. rewrite (verify_corners_uniform m e0) by done.
      by destruct (Z.eqb_spec (vec_size (Element.rGetCornerNodes e0)) 4). }
    split; [done|].
    exists (record_corners false (bind_mesh (rGetMesh pop) (this s))).
    split; [|done]. rewrite setup_unfold. cbv zeta.
    rewrite Hm, (verify_corners_uniform m e0) by done.
    destruct (Z.eqb_spec (vec_size (Element.rGetCornerNodes e0)) 4); [done|].
    by rewrite list_insert_id.
  - destruct (setup_with_corners pop s m e0 Hm Hready)
      as (m1 & m2 & Hverify & Htag & Hagree & Hlen & Hsetup).
    rewrite (after_setup_with_corners m m1 m2) by done.
    split; [by apply (setup_leaves_with_corners m m1 m2)|].
    by exists (record_reference (Element.GetNumElementAttributes (e0))
                 (record_corners true (bind_mesh (rGetMesh pop) (this s)))).
Qed.

(** Any call up to the element loop. *)
Lemma call_reaches pop s a m :
  call_ready pop s a m →
  ∃ s0,
    computation_starts pop s s0
    ∧ meshes s0 = <[a := loop_mesh s m]> (meshes s)
    ∧ mpMesh (this s0) = Some a
    ∧ same_parameters (this s) (this s0)
    ∧ setup_leaves m (loop_mesh s m)
    ∧ ∀ m', force_loop (this s) pop (loop_mesh s m) = Ok m' →
        AddForce pop s = (Ok (), mkState (this s0) (<[a := m']> (meshes s))).
Proof.
  unfold loop_mesh. intros (Hm & Hwf & [Ha|(Hnull & -> & Hready)]).
  - rewrite Ha. exists s. split; [left; by rewrite Ha|].
    split; [by rewrite list_insert_id|]. split; [done|]. split; [done|].
    split; [done|]. intros m' Hloop.
    rewrite AddForce_bound by by rewrite Ha.
    by apply (force_computation_Ok GetVectorFromAtoB norm_2
                GetAverageNodeSpacingOfElement DIM pop s a m m').
  - rewrite Hnull.
    destruct (first_call_setup pop s m Hnull Hm Hready)
      as (Hleaves & f1 & Hsetup & H1 & Hsame).
    eexists. split; [right; split; [done|exact Hsetup]|].
    split; [done|]. split; [done|]. split; [done|]. split; [done|].
    intros m' Hloop. rewrite AddForce_unbound by done. rewrite Hsetup.
    rewrite (force_computation_Ok GetVectorFromAtoB norm_2
               GetAverageNodeSpacingOfElement DIM pop _ (rGetMesh pop)
               (after_setup m) m').
    + simpl. by rewrite list_insert_insert_eq.
    + done.
    + simpl. apply list_lookup_insert_eq. by eapply lookup_lt_Some.
    + simpl. by rewrite (force_loop_same_parameters (this s) f1).
Qed.

(** The element loop of the force computation on a mesh with well-formed
    elements, element by element. *)
Lemma force_loop_trace f pop m0 :
  well_formed_elements m0 →
  ∃ (trace : list Mesh.t) m',
    force_loop f pop m0 = Ok m'
    ∧ trace !! 0%nat = Some m0
    ∧ trace !! length (Mesh.mElements m0) = Some m'
    ∧ agree but_force m0 m'
    ∧ ∀ pos e, Mesh.mElements m0 !! pos = Some e →
        ∃ m1 m2,
          trace !! pos = Some m1 ∧ trace !! S pos = Some m2
          ∧ agree but_force m0 m1 ∧ agree but_force m1 m2
          ∧ element_contribution GetVectorFromAtoB norm_2
              GetAverageNodeSpacingOfElement DIM f pop e m1 = Ok m2 ∧
          let n := vec_size (Element.mNodes e) in
          let k := claimed_spring_constant GetAverageNodeSpacingOfElement f pop m1 e in
          let r := claimed_rest_length GetAverageNodeSpacingOfElement f m1 e in
          let segment := segment_force GetVectorFromAtoB norm_2 m1 e k r in
          segment_loop GetVectorFromAtoB norm_2 DIM m1 e (Element.GetNumNodes e) k r
          = Ok (segment <$> seqZ 0 n)
          ∧ (∀ j, 0 ≤ j < n →
               Mesh.mNodes m2 !! node_ptr e j
               = Node.AddAppliedForceContribution
                   (vminus (segment j) (segment ((j - 1) `mod` n)))
                 <$> Mesh.mNodes m1 !! node_ptr e j)
          ∧ (∀ p, p ∉ Element.mNodes e →
               Mesh.mNodes m2 !! p = Mesh.mNodes m1 !! p).
Proof.
  intros Hwf.
  assert (∀ pos e m1, Mesh.mElements m0 !! pos = Some e → agree but_force m0 m1 →
    valid_nodes m1 e ∧ NoDup (Element.mNodes e)
    ∧ vec_size (Element.mNodes e) ≤ 2147483648) as Hwf1.
  { intros pos e m1 He Hm1.
    destruct (Hwf e (list_elem_of_lookup_2 _ _ _ He)) as (Hv & Hnd & Hmax).
    split; [by apply (valid_nodes_agree but_force m0 m1)|done]. }
  destruct (iterate_trace but_force
    (λ _ e m, element_contribution GetVectorFromAtoB norm_2
                GetAverageNodeSpacingOfElement DIM f pop e m) m0)
    as (trace & m' & Hloop & H0 & Hlast & Hagree & Hsteps).
  { intros pos e m1 He Hm1. destruct (Hwf1 pos e m1 He Hm1) as (Hv & Hnd & Hmax).
    destruct (element_contribution_spec GetVectorFromAtoB norm_2
                GetAverageNodeSpacingOfElement DIM f pop e m1 Hv Hnd Hmax)
      as (_ & Hok & _). eexists. split; [exact Hok|].
    by apply element_contribution_agree with (π := but_force) in Hok. }
  exists trace, m'. split; [done|]. split; [done|]. split; [done|]. split; [done|].
  intros pos e He. destruct (Hsteps pos e He) as (m1 & m2 & H1 & H2 & Hm1 & Hrun).
  destruct (Hwf1 pos e m1 He Hm1) as (Hv & Hnd & Hmax).
  destruct (element_contribution_spec GetVectorFromAtoB norm_2
              GetAverageNodeSpacingOfElement DIM f pop e m1 Hv Hnd Hmax)
    as (Hsegments & Hok & Hnodes & Hother).
  simpl in Hrun. exists m1, m2.
  split; [done|]. split; [done|]. split; [done|].
  split; [by apply element_contribution_agree with (π := but_force) in Hrun|].
  split; [done|]. rewrite Hok in Hrun. injection Hrun as <-.
  intros n k r segment. split; [done|]. split; done.
Qed.

(** C1.  A call on a mesh whose elements are well formed, the first one
    included, with or without four corners per element.  The force
    computation starts in the state [s0]: that of the call when the mesh
    pointer is bound, that left by the setup otherwise; the setup leaves
    of the mesh all but region tags and element attributes.  The loop
    then takes the elements in storage order, the element at position
    [pos] turning the mesh [trace !! pos] into [trace !! S pos]; the
    first of these meshes is the one of [s0] and the last the one the
    call leaves, and they differ in force accumulators only.  For the
    element with [n] nodes it stores, for each cyclic adjacent pair
    [(j, j+1 mod n)], the segment force
    [spring_constant * (d - rest_length) / d] times the displacement from
    node [j] to node [j+1 mod n], [d] being the norm of that displacement;
    it then adds to the accumulator that node [j] has at that moment
    exactly segment force [j] minus segment force [j-1 mod n], and leaves
    every other node as it is.  No corner force is added: this holds
    whether or not the setup has enabled corner tagging, and the flag and
    the offset found in the force object make no difference to the mesh
    that the call leaves. *)
Theorem C1_segment_and_node_forces pop s a m :
  call_ready pop s a m →
  ∃ s0 m0 (trace : list Mesh.t) m',
    computation_starts pop s s0
    ∧ meshes s0 = <[a := m0]> (meshes s)
    ∧ mpMesh (this s0) = Some a
    ∧ same_parameters (this s) (this s0)
    ∧ setup_leaves m m0
    ∧ AddImmersedBoundaryForceContribution GetVectorFromAtoB norm_2
        GetAverageNodeSpacingOfElement DIM pop s
      = (Ok (), mkState (this s0) (<[a := m']> (meshes s)))
    ∧ trace !! 0%nat = Some m0
    ∧ trace !! length (Mesh.mElements m0) = Some m'
    ∧ (∀ pos e, Mesh.mElements m0 !! pos = Some e →
         ∃ m1 m2,
           trace !! pos = Some m1 ∧ trace !! S pos = Some m2
           ∧ agree but_force m0 m1 ∧ agree but_force m1 m2 ∧
           let n := vec_size (Element.mNodes e) in
           let k := claimed_spring_constant GetAverageNodeSpacingOfElement
                      (this s) pop m1 e in
           let r := claimed_rest_length GetAverageNodeSpacingOfElement (this s) m1 e in
           let segment := segment_force GetVectorFromAtoB norm_2 m1 e k r in
           segment_loop GetVectorFromAtoB norm_2 DIM m1 e (Element.GetNumNodes e) k r
           = Ok (segment <$> seqZ 0 n)
           ∧ (∀ j, 0 ≤ j < n →
                segment j
                = scale_assign (displacement GetVectorFromAtoB m1 e j)
                    (k * (norm_2 (displacement GetVectorFromAtoB m1 e j) - r)
                     / norm_2 (displacement GetVectorFromAtoB m1 e j))%float)
           ∧ (∀ j, 0 ≤ j < n →
                Mesh.mNodes m2 !! node_ptr e j
                = Node.AddAppliedForceContribution
                    (vminus (segment j) (segment ((j - 1) `mod` n)))
                  <$> Mesh.mNodes m1 !! node_ptr e j)
           ∧ (∀ p, p ∉ Element.mNodes e →
                Mesh.mNodes m2 !! p = Mesh.mNodes m1 !! p))
    ∧ (∀ flag reference,
         let f := mkForce (mpMesh (this s)) (mSpringConstant (this s))
                    (mRestLengthMultiplier (this s))
                    (mBasementSpringConstantModifier (this s))
                    (mBasementRestLengthModifier (this s)) flag reference in
         ∃ f',
           AddImmersedBoundaryForceContribution GetVectorFromAtoB norm_2
             GetAverageNodeSpacingOfElement DIM pop (mkState f (meshes s))
           = (Ok (), mkState f' (<[a := m']> (meshes s)))
           ∧ (is_Some (mpMesh (this s)) → f' = f)).
Proof.
  intros Hready.
  destruct (call_reaches pop s a m Hready)
    as (s0 & Hstarts & Hmeshes & Ha & Hsame & Hleaves & Hcall).
  pose proof Hready as (Hm & Hwf & Hcases).
  destruct (force_loop_trace (this s) pop (loop_mesh s m))
    as (trace & m' & Hloop & H0 & Hlast & Hagree & Hsteps).
  { by apply (well_formed_elements_leaves m). }
  exists s0, (loop_mesh s m), trace, m'.
  split; [done|]. split; [done|]. split; [done|]. split; [done|]. split; [done|].
  split; [by apply Hcall|]. split; [done|]. split; [done|]. split.
  - intros pos e He.
    destruct (Hsteps pos e He)
      as (m1 & m2 & H1 & H2 & Hm1 & Hm2 & _ & Hsegments & Hnodes & Hother).
    exists m1, m2. split; [done|]. split; [done|]. split; [done|]. split; [done|].
    intros n k r segment. split; [done|]. split; [done|]. split; done.
  - intros flag reference f.
    destruct (call_reaches pop (mkState f (meshes s)) a m)
      as (s1 & Hstarts1 & _ & _ & _ & _ & Hcall1).
    { split; [done|]. split; [done|]. exact Hcases. }
    exists (this s1). split.
    + apply Hcall1. exact Hloop.
    + intros Hbound. destruct Hstarts1 as [[_ ->]|[Hnull _]]; [done|].
      simpl in Hnull. destruct Hbound as [? ?]. congruence.
Qed.

(** C2.  In a call on a mesh whose elements are well formed, the first
    one included, the loop works, for the element at position [pos], on
    the mesh [trace !! pos].  With [spacing_ratio] the average node
    spacing of the element in that mesh, the spring constant is the base
    spring constant times the intrinsic spacing squared over
    [spacing_ratio] squared and the rest length the rest-length
    multiplier times [spacing_ratio]; each is multiplied by its basement
    modifier if and only if the index of the element is the membrane
    index of the mesh.  These are the two constants of every segment
    force of the element: the loop over its segments returns, for each
    cyclic adjacent pair, the displacement scaled by
    [k * (d - r) / d], and the accumulator of node [j] receives the
    difference of two such forces. *)
Theorem C2_spring_parameters pop s a m :
  call_ready pop s a m →
  ∃ s0 m0 (trace : list Mesh.t) m',
    computation_starts pop s s0
    ∧ meshes s0 = <[a := m0]> (meshes s)
    ∧ setup_leaves m m0
    ∧ AddImmersedBoundaryForceContribution GetVectorFromAtoB norm_2
        GetAverageNodeSpacingOfElement DIM pop s
      = (Ok (), mkState (this s0) (<[a := m']> (meshes s)))
    ∧ trace !! 0%nat = Some m0
    ∧ trace !! length (Mesh.mElements m0) = Some m'
    ∧ ∀ pos e, Mesh.mElements m0 !! pos = Some e →
        ∃ m1 m2,
          trace !! pos = Some m1 ∧ trace !! S pos = Some m2 ∧
          let n := vec_size (Element.mNodes e) in
          let spacing_ratio :=
            GetAverageNodeSpacingOfElement m1 (Element.GetIndex e) false in
          let intrinsic_spacing := GetIntrinsicSpacing pop in
          let k0 := (mSpringConstant (this s) * (intrinsic_spacing * intrinsic_spacing)
                     / (spacing_ratio * spacing_ratio))%float in
          let r0 := (mRestLengthMultiplier (this s) * spacing_ratio)%float in
          let membrane := bool_decide (Element.GetIndex e = Mesh.GetMembraneIndex m) in
          let k :=
            if membrane then (k0 * mBasementSpringConstantModifier (this s))%float
            else k0 in
          let r :=
            if membrane then (r0 * mBasementRestLengthModifier (this s))%float
            else r0 in
          let force j :=
            scale_assign (displacement GetVectorFromAtoB m1 e j)
              (k * (norm_2 (displacement GetVectorFromAtoB m1 e j) - r)
               / norm_2 (displacement GetVectorFromAtoB m1 e j))%float in
          element_contribution GetVectorFromAtoB norm_2
            GetAverageNodeSpacingOfElement DIM (this s) pop e m1 = Ok m2
          ∧ segment_loop GetVectorFromAtoB norm_2 DIM m1 e (Element.GetNumNodes e) k r
            = Ok (force <$> seqZ 0 n)
          ∧ ∀ j, 0 ≤ j < n →
              Mesh.mNodes m2 !! node_ptr e j
              = Node.AddAppliedForceContribution
                  (vminus (force j) (force ((j - 1) `mod` n)))
                <$> Mesh.mNodes m1 !! node_ptr e j.
Proof.
  intros Hready.
  destruct (call_reaches pop s a m Hready)
    as (s0 & Hstarts & Hmeshes & Ha & Hsame & Hleaves & Hcall).
  pose proof Hready as (Hm & Hwf & Hcases).
  destruct (force_loop_trace (this s) pop (loop_mesh s m))
    as (trace & m' & Hloop & H0 & Hlast & Hagree & Hsteps).
  { by apply (well_formed_elements_leaves m). }
  exists s0, (loop_mesh s m), trace, m'.
  split; [done|]. split; [done|]. split; [done|].
  split; [by apply Hcall|]. split; [done|]. split; [done|].
  intros pos e He.
  destruct (Hsteps pos e He)
    as (m1 & m2 & H1 & H2 & Hm1 & Hm2 & Hrun & Hsegments & Hnodes & Hother).
  exists m1, m2. split; [done|]. split; [done|].
  intros n spacing_ratio intrinsic_spacing k0 r0 membrane k r force.
  assert (Mesh.GetMembraneIndex m1 = Mesh.GetMembraneIndex m) as Hindex.
  { destruct Hm1 as (_ & Hi1 & _), Hleaves as (_ & _ & Hi0).
    unfold Mesh.GetMembraneIndex. congruence. }
  assert (claimed_spring_constant GetAverageNodeSpacingOfElement (this s) pop m1 e = k
          ∧ claimed_rest_length GetAverageNodeSpacingOfElement (this s) m1 e = r)
    as [Hk Hr].
  { unfold claimed_spring_constant, claimed_rest_length, is_membrane,
      base_spring_constant, base_rest_length.
    subst k r membrane. rewrite Hindex.
    destruct (Z.eqb_spec (Element.GetIndex e) (Mesh.GetMembraneIndex m)) as [Heq|Hne].
    - by rewrite bool_decide_eq_true_2.
    - by rewrite bool_decide_eq_false_2. }
  cbv zeta in Hsegments, Hnodes. rewrite Hk, Hr in Hsegments, Hnodes.
  split; [done|]. split; [exact Hsegments|]. exact Hnodes.
Qed.

(** C3.  The first call on a mesh whose elements all have four corners
    and are well formed for the tagging: the setup enables corner
    tagging and runs TagNodeRegions on the mesh it finds, and the region
    tags that TagNodeRegions leaves are those of the mesh that the call
    leaves.  TagNodeRegions takes the elements in storage order, the
    element at position [pos] turning the mesh [trace !! pos] into
    [trace !! S pos]: the membrane element is tagged basal on all its
    nodes; any other element, its corners 0, 1, 2, 3 being its nodes at
    the local indices [i0], [i1], [i2], [i3], is tagged over the five
    ranges in the listed order, so that a range whose bounds cross is
    empty and the later range decides where two of them overlap.  Nodes
    outside the element keep their tags. *)
Theorem C3_region_tagging pop s m e0 :
  mpMesh (this s) = None → meshes s !! rGetMesh pop = Some m →
  corners_ready m e0 →
  ∃ (trace : list Mesh.t) m1 s0 m0 m',
    TagNodeRegions m = Ok m1
    ∧ setup GetVectorFromAtoB pop s = (Ok (), s0)
    ∧ mElementsHaveCorners (this s0) = Some true
    ∧ meshes s0 = <[rGetMesh pop := m0]> (meshes s)
    ∧ Mesh.mNodes m0 = Mesh.mNodes m1
    ∧ AddImmersedBoundaryForceContribution GetVectorFromAtoB norm_2
        GetAverageNodeSpacingOfElement DIM pop s
      = (Ok (), mkState (this s0) (<[rGetMesh pop := m']> (meshes s)))
    ∧ Node.mRegion <$> Mesh.mNodes m' = Node.mRegion <$> Mesh.mNodes m1
    ∧ trace !! 0%nat = Some m
    ∧ trace !! length (Mesh.mElements m) = Some m1
    ∧ agree but_region m m1
    ∧ ∀ pos e, Mesh.mElements m !! pos = Some e →
        ∃ ma mb,
          trace !! pos = Some ma ∧ trace !! S pos = Some mb
          ∧ agree but_region m ma ∧ agree but_region ma mb ∧
          let n := vec_size (Element.mNodes e) in
          (Mesh.GetMembraneIndex m = Element.GetIndex e →
           ∀ j, 0 ≤ j < n →
             Mesh.mNodes mb !! node_ptr e j
             = Node.SetRegion msBas <$> Mesh.mNodes ma !! node_ptr e j)
          ∧ (∀ i0 i1 i2 i3,
               Mesh.GetMembraneIndex m ≠ Element.GetIndex e →
               corners_at e i0 i1 i2 i3 →
               ∀ j, 0 ≤ j < n →
                 ∃ t, last_range_tag
                        [(0, i1, msLat); (i1, i0 + 1, msApi); (i0 + 1, i3, msLat);
                         (i3, i2 + 1, msBas); (i2 + 1, n, msLat)] j = Some t
                   ∧ Mesh.mNodes mb !! node_ptr e j
                     = Node.SetRegion t <$> Mesh.mNodes ma !! node_ptr e j)
          ∧ (∀ p, p ∉ Element.mNodes e →
               Mesh.mNodes mb !! p = Mesh.mNodes ma !! p).
Proof.
  intros Hnull Hm Hready.
  destruct (setup_with_corners pop s m e0 Hm Hready)
    as (m1 & m2 & Hverify & Htag & Hagree & Hlen & Hsetup).
  pose proof Hready as (_ & _ & _ & Hwf & _).
  destruct (TagNodeRegions_trace m Hwf)
    as (trace & m1' & Htag' & H0 & Hlast & _ & Hsteps).
  rewrite Htag in Htag'. injection Htag' as <-.
  pose proof (TagApicalAndBasalLengths_shape GetVectorFromAtoB m1 m2 Hlen)
    as (Hnodes2 & _ & _).
  destruct (force_loop_trace
              (record_reference (Element.GetNumElementAttributes e0)
                 (record_corners true (bind_mesh (rGetMesh pop) (this s)))) pop m2)
    as (_ & m' & Hloop & _ & _ & Hforce & _).
  { apply (well_formed_elements_leaves m); [|by apply (corners_ready_well_formed m e0)].
    by apply (setup_leaves_with_corners m m1 m2). }
  eexists trace, m1, _, m2, m'.
  split; [done|]. split; [exact Hsetup|]. split; [done|]. split; [done|].
  split; [done|]. split.
  { rewrite AddForce_unbound by done. rewrite Hsetup.
    rewrite (force_computation_Ok GetVectorFromAtoB norm_2
               GetAverageNodeSpacingOfElement DIM pop _ (rGetMesh pop) m2 m').
    - simpl. by rewrite list_insert_insert_eq.
    - done.
    - simpl. apply list_lookup_insert_eq. by eapply lookup_lt_Some.
    - exact Hloop. }
  split.
  { apply (agree_weaken but_force Node.mRegion (λ t, t.2)) in Hforce
      as (_ & _ & Hregion); [|done]. by rewrite Hregion, Hnodes2. }
  split; [done|]. split; [done|]. split; [done|]. exact Hsteps.
Qed.

End CallSpec.

(** ** The call as a whole on the two squares *)

(** The two squares, the first of them being the membrane element. *)
Definition membrane_squares (corners : bool) : Mesh.t :=
  Mesh.mk (square_nodes 0 0 ++ square_nodes 4 0.5)
    [square_element 0 0 corners []; square_element 1 4 corners []] 0.

(** The state that the first call leaves on the two squares with
    corners. *)
Definition tagged_squares : State :=
  (unit_square_call population (fresh (two_squares true true [] []))).2.

Lemma two_squares_ready :
  call_ready unit_square_GetVectorFromAtoB population
    (fresh (two_squares true true [] [])) 0 (two_squares true true [] []).
Proof.
  split; [done|]. split; [apply two_squares_well_formed|]. right.
  split; [done|]. split; [done|]. exists (square_element 0 0 true []). right.
  split; [done|]. split; [by repeat constructor|]. split; [by repeat constructor|].
  split; [apply two_squares_corners|apply two_squares_lengths].
Qed.

Lemma membrane_squares_ready :
  call_ready unit_square_GetVectorFromAtoB population
    (fresh (membrane_squares true)) 0 (membrane_squares true).
Proof.
  split; [done|]. split.
  { intros e He. repeat (apply elem_of_cons in He as [->|He]);
      [..|by apply elem_of_nil in He];
      (split; [split; [by vm_compute|refine (bool_decide_unpack _ _); by vm_compute]|]);
      (split; [refine (bool_decide_unpack _ _); by vm_compute|by vm_compute]). }
  right. split; [done|]. split; [done|]. exists (square_element 0 0 true []). right.
  split; [done|]. split; [by repeat constructor|]. split; [by repeat constructor|].
  split.
  - intros e He. repeat (apply elem_of_cons in He as [->|He]);
      [..|by apply elem_of_nil in He];
      (split; [split; [by vm_compute|refine (bool_decide_unpack _ _); by vm_compute]|]);
      (split; [refine (bool_decide_unpack _ _); by vm_compute|]);
      intros _; exists 1, 0, 3, 2; (split; [unfold vec_size; simpl; lia|done]).
  - intros e He. repeat (apply elem_of_cons in He as [->|He]);
      [..|by apply elem_of_nil in He];
      (split; [by vm_compute|]); (split; [by vm_compute|]);
      intros _; eexists; vm_compute; reflexivity.
Qed.

(** The first call on the two squares with corners: the setup enables
    corner tagging, and the call leaves on the eight nodes the
    differences of the segment forces and nothing else. *)
Lemma C1_witness :
  ∃ f' m',
    AddImmersedBoundaryForceContribution unit_square_GetVectorFromAtoB ublas_norm_2
      perimeter_GetAverageNodeSpacingOfElement 2 population
      (fresh (two_squares true true [] []))
    = (Ok (), mkState f' [m'])
    ∧ mElementsHaveCorners f' = Some true
    ∧ Node.mAppliedForce <$> Mesh.mNodes m'
      = [[(-125000)%float; (-125000)%float]; [125000%float; (-125000)%float];
         [125000%float; 125000%float]; [(-125000)%float; 125000%float];
         [(-125000)%float; (-125000)%float]; [125000%float; (-125000)%float];
         [125000%float; 125000%float]; [(-125000)%float; 125000%float]].
Proof.
  destruct (C1_segment_and_node_forces unit_square_GetVectorFromAtoB ublas_norm_2
              perimeter_GetAverageNodeSpacingOfElement 2 population
              (fresh (two_squares true true [] [])) 0 (two_squares true true [] [])
              two_squares_ready)
    as (s0 & m0 & trace & m' & Hstarts & _ & _ & _ & _ & Hcall & _).
  exists (this s0), m'. split; [exact Hcall|].
  destruct Hstarts as [[[a Hbound] _]|[_ Hsetup]]; [discriminate Hbound|].
  vm_compute in Hsetup. injection Hsetup as <-.
  split; [done|].
  vm_compute in Hcall. injection Hcall as <-. by vm_compute.
Defined.

(** The first call on the two squares with corners, the first square
    being the membrane element: its segments are computed with five
    times the spring constant and half the rest length of the segments
    of the second square. *)
Lemma C2_witness :
  ∃ s' m0 m1,
    AddImmersedBoundaryForceContribution unit_square_GetVectorFromAtoB ublas_norm_2
      perimeter_GetAverageNodeSpacingOfElement 2 population
      (fresh (membrane_squares true))
    = (Ok (), s')
    ∧ Mesh.mElements m0
      = [square_element 0 0 true [0%float; 0%float];
         square_element 1 4 true [0.25%float; 0.25%float]]
    ∧ segment_loop unit_square_GetVectorFromAtoB ublas_norm_2 2 m0
        (square_element 0 0 true [0%float; 0%float]) 4 5e6 0.0625
      = Ok [[(-937500)%float; 0%float]; [0%float; (-937500)%float];
            [937500%float; 0%float]; [0%float; 937500%float]]
    ∧ segment_loop unit_square_GetVectorFromAtoB ublas_norm_2 2 m1
        (square_element 1 4 true [0.25%float; 0.25%float]) 4 1e6 0.125
      = Ok [[(-125000)%float; 0%float]; [0%float; (-125000)%float];
            [125000%float; 0%float]; [0%float; 125000%float]].
Proof.
  destruct (C2_spring_parameters unit_square_GetVectorFromAtoB ublas_norm_2
              perimeter_GetAverageNodeSpacingOfElement 2 population
              (fresh (membrane_squares true)) 0 (membrane_squares true)
              membrane_squares_ready)
    as (s0 & m0 & trace & m' & Hstarts & Hmeshes & _ & Hcall & H0 & _ & Hsteps).
  destruct Hstarts as [[[a Hbound] _]|[_ Hsetup]]; [discriminate Hbound|].
  vm_compute in Hsetup. injection Hsetup as <-.
  vm_compute in Hmeshes. injection Hmeshes as <-.
  destruct (Hsteps 0%nat _ eq_refl) as (ma & mb & Ha & Hb & Hrun & Hsegments & _).
  rewrite H0 in Ha. injection Ha as <-.
  destruct (Hsteps 1%nat _ eq_refl) as (mc & md & Hc & _ & _ & Hsegments1 & _).
  rewrite Hb in Hc. injection Hc as <-.
  vm_compute in Hrun. injection Hrun as <-.
  eexists _, _, _. split; [exact Hcall|].
  split; [|split; [exact Hsegments|exact Hsegments1]]. reflexivity.
Defined.

(** The first call on the two squares with corners: the setup enables
    corner tagging and the call leaves, on each square, the apical tag
    on the nodes 0 and 1 and the basal tag on the nodes 2 and 3. *)
Lemma C3_witness :
  ∃ f' m',
    AddImmersedBoundaryForceContribution unit_square_GetVectorFromAtoB ublas_norm_2
      perimeter_GetAverageNodeSpacingOfElement 2 population
      (fresh (two_squares true true [] []))
    = (Ok (), mkState f' [m'])
    ∧ mElementsHaveCorners f' = Some true
    ∧ Node.mRegion <$> Mesh.mNodes m'
      = [msApi; msApi; msBas; msBas; msApi; msApi; msBas; msBas].
Proof.
  destruct (C3_region_tagging unit_square_GetVectorFromAtoB ublas_norm_2
              perimeter_GetAverageNodeSpacingOfElement 2 population
              (fresh (two_squares true true [] [])) (two_squares true true [] [])
              (square_element 0 0 true []) eq_refl eq_refl)
    as (trace & m1 & s0 & m0 & m' & Htag & _ & Hflag & _ & _ & Hcall & Hregion & _).
  { split; [done|]. split; [by repeat constructor|]. split; [by repeat constructor|].
    split; [apply two_squares_corners|apply two_squares_lengths]. }
  exists (this s0), m'. split; [exact Hcall|]. split; [exact Hflag|].
  rewrite Hregion. vm_compute in Htag. injection Htag as <-. by vm_compute.
Defined.

(** A further call on the two squares with corners, after the one that
    recorded the lengths: the apical getter returns for the first square
    the 0.25 that it returned before. *)
Lemma X12_witness :
  (GetApicalLengthForElement 0 (unit_square_call population tagged_squares).2).1
  = (GetApicalLengthForElement 0 tagged_squares).1
  ∧ (GetApicalLengthForElement 0 tagged_squares).1 = Ok 0.25%float.
Proof.
  split; [|by vm_compute].
  refine (proj1 (X12_later_calls_keep_the_recorded_lengths unit_square_GetVectorFromAtoB
                   ublas_norm_2 perimeter_GetAverageNodeSpacingOfElement 2 population
                   tagged_squares (unit_square_call population tagged_squares).2 0 _ _)).
  - exists 0%nat. by vm_compute.
  - by vm_compute.
Defined.
